(** * Access-point synchronisation: store adapter, vector index adapter,
      sync coordinator

    A shallow embedding of the TypeScript sources
      - [pineconeOperations.ts]  (class [PineconeOperations]),
      - [supabaseOperations.ts]  (class [SupabaseOperations]),
      - [databaseOperations.ts]  (class [DatabaseOperations]),
      - [dataSyncManager.ts]     (class [DataSyncManager]),
      - [types.ts], [supabase-schema.sql],
    followed by the properties the specification states about them.

    Conventions of the embedding.
      - A JavaScript string is a [string]; [charCodeAt] is the character code
        of the [ascii] (texts are ASCII, so UTF-16 code units and bytes agree).
      - A JavaScript object is an association list in insertion order.
      - A number stored in an embedding vector is kept as the exact rational
        [n # 1000]; the double the program stores is the one nearest to it,
        and that rounding is injective and monotone on the integers [n] that
        occur ([-3000 < n < 1000]), so equalities and bounds carry over.
      - The two backends are external services.  Their state, the answers
        they give and the time of day are fields of [World]; an adapter method
        is a function [World -> result * World].  A backend may refuse or drop
        any request: the next entry of its fault list says so.
      - Console output is not modelled. *)

From Stdlib Require Import ZArith QArith String Ascii List Bool Lia.
From stdpp Require Import base option list strings pretty gmap.

Open Scope string_scope.
Open Scope Z_scope.

(* ===================================================================== *)
(** ** JavaScript strings, values and objects *)
(* ===================================================================== *)

Module JS.

Definition charCode (c : ascii) : Z := Z.of_nat (nat_of_ascii c).

(** The regular-expression classes [[a-z]] and [[A-Z]]. *)
Definition isLower (c : ascii) : bool :=
  (97 <=? charCode c) && (charCode c <=? 122).
Definition isUpper (c : ascii) : bool :=
  (65 <=? charCode c) && (charCode c <=? 90).

Definition lowerChar (c : ascii) : ascii :=
  if isUpper c then ascii_of_nat (nat_of_ascii c + 32) else c.
Definition upperChar (c : ascii) : ascii :=
  if isLower c then ascii_of_nat (nat_of_ascii c - 32) else c.

(** [s.toLowerCase()] *)
Fixpoint toLowerCase (s : string) : string :=
  match s with
  | EmptyString => EmptyString
  | String c r => String (lowerChar c) (toLowerCase r)
  end.

(** [s.charCodeAt(i)] for [i = 0 .. s.length - 1], in order. *)
Fixpoint charCodes (s : string) : list Z :=
  match s with
  | EmptyString => []
  | String c r => charCode c :: charCodes r
  end.

(** [parts.join(sep)] *)
Fixpoint join (sep : string) (parts : list string) : string :=
  match parts with
  | [] => ""
  | [p] => p
  | p :: ps => p ++ sep ++ join sep ps
  end.

(** [s.split(' ')]: the pieces between the blanks; always at least one. *)
Fixpoint splitBlank (cur : string) (s : string) : list string :=
  match s with
  | EmptyString => [cur]
  | String c r =>
      if Ascii.eqb c " " then cur :: splitBlank "" r
      else splitBlank (cur ++ String c "") r
  end.
Definition split (s : string) : list string := splitBlank "" s.

(** The values that occur in access-point objects and table rows. *)
Inductive Value :=
| VUndefined
| VNull
| VBool (b : bool)
| VStr (s : string)
| VArr (items : list string).

#[export] Instance Value_eq_dec : EqDecision Value.
Proof. solve_decision. Defined.

(** An object: own enumerable properties in insertion order. *)
Definition Obj := list (string * Value).

(** [obj[key]] *)
Fixpoint get (key : string) (o : Obj) : Value :=
  match o with
  | [] => VUndefined
  | (k, v) :: r => if String.eqb k key then v else get key r
  end.

(** [obj[key] = v]: overwrite in place, or add as the last property. *)
Fixpoint set (key : string) (v : Value) (o : Obj) : Obj :=
  match o with
  | [] => [(key, v)]
  | (k, w) :: r =>
      if String.eqb k key then (k, v) :: r else (k, w) :: set key v r
  end.

(** [{...a, ...b}] *)
Definition spread (a b : Obj) : Obj :=
  fold_left (fun acc kv => set (fst kv) (snd kv) acc) b a.

(** [`${v}`] *)
Definition toStr (v : Value) : string :=
  match v with
  | VUndefined => "undefined"
  | VNull => "null"
  | VBool true => "true"
  | VBool false => "false"
  | VStr s => s
  | VArr items => join "," items
  end.

(** Truthiness, as used by [?:], [||] and [filter(Boolean)]. *)
Definition truthy (v : Value) : bool :=
  match v with
  | VUndefined | VNull => false
  | VBool b => b
  | VStr s => negb (String.eqb s "")
  | VArr _ => true
  end.

(** A computation that may throw: the error message, or the value. *)
Inductive Exc (A : Type) :=
| Throw (message : string)
| Ok (a : A).
Arguments Throw {A} message.
Arguments Ok {A} a.

(** [v.join(sep)]: defined on arrays; a [TypeError] on anything else. *)
Definition joinValue (prop sep : string) (v : Value) : Exc string :=
  match v with
  | VArr items => Ok (join sep items)
  | VUndefined =>
      Throw ("Cannot read properties of undefined (reading 'join')")
  | VNull => Throw ("Cannot read properties of null (reading 'join')")
  | _ => Throw ("accessPoint." ++ prop ++ ".join is not a function")
  end.

End JS.

(* ===================================================================== *)
(** ** types.ts *)
(* ===================================================================== *)

(** [interface AccessPoint]: an object; the interface is a compile-time
    annotation only, so what [as AccessPoint] returns need not carry the
    interface's property names. *)
Abbreviation AccessPoint := JS.Obj (only parsing).

(** The property names of [interface AccessPoint], in declaration order. *)
Definition accessPointFields : list string :=
  [ "id"; "subnetID"; "subnetName"; "description"; "input"; "output";
    "inputType"; "outputType"; "capabilities"; "tags"; "promptExample";
    "fileUpload"; "fileDownload"; "subnetURL"; "createdAt"; "updatedAt" ].

(** [interface VectorData] *)
Record VectorData := mkVectorData {
  vd_id : JS.Value;
  vd_values : list Q;
  vd_metadata : JS.Obj
}.

(** [interface APIResponse<T>] *)
Record APIResponse (T : Type) := mkResponse {
  success : bool;
  data : option T;
  error : option string
}.
Arguments mkResponse {T} success data error.
Arguments success {T} _.
Arguments data {T} _.
Arguments error {T} _.

(** [{ success: true }], [{ success: true, data }], [{ success: false, error }] *)
Definition succeed {T} : APIResponse T := mkResponse true None None.
Definition succeedWith {T} (d : T) : APIResponse T := mkResponse true (Some d) None.
Definition failWith {T} (msg : string) : APIResponse T := mkResponse false None (Some msg).

(* ===================================================================== *)
(** ** The environment: the two backends, the clock, the process settings *)
(* ===================================================================== *)

(** What the environment does with the next request to a backend. *)
Inductive Fault :=
| Served                              (* the backend executes the request *)
| Rejected (code message : string)    (* the backend answers with an error *)
| Thrown (message : string).          (* the call itself throws (transport) *)

(** What a client call gives back to the adapter. *)
Inductive Reply (A : Type) :=
| Data (a : A)
| Err (code message : string)         (* [{ error }] *)
| Exn (message : string).             (* an exception *)
Arguments Data {A} a.
Arguments Err {A} code message.
Arguments Exn {A} message.

Inductive StoreRequest :=
| StoreConnect
| StoreInsert (row : JS.Obj)
| StoreUpdate (id : JS.Value) (columns : JS.Obj)
| StoreSelect (id : JS.Value)
| StoreDelete (id : JS.Value)
| StoreUpsert (rows : list JS.Obj)
| StoreSearch (query : string).

Inductive IndexRequest :=
| IndexUpsert (records : list VectorData)
| IndexQuery (vector : list Q) (topK : nat)
| IndexDelete (id : JS.Value).

(** The relational store: table [access_points] of supabase-schema.sql, keyed
    by its primary key [id]; the procedure [search_access_points]; the
    faults still to come; the requests received so far. *)
Record Store := mkStore {
  table : gmap string JS.Obj;
  textSearch : string -> gmap string JS.Obj -> option (list JS.Obj);
  storeFaults : list Fault;
  storeLog : list StoreRequest
}.

(** The vector index: its records by id; the similarity ranking the service
    computes; the faults still to come; the requests received so far. *)
Record Index := mkIndex {
  vectors : gmap string VectorData;
  nearest : list Q -> nat -> gmap string VectorData -> option (list JS.Obj);
  indexFaults : list Fault;
  indexLog : list IndexRequest
}.

Record World := mkWorld {
  store : Store;
  index : Index;
  clock : list string;          (* what [new Date().toISOString()] will read *)
  openaiKey : option string     (* [process.env.OPENAI_API_KEY] *)
}.

(** An asynchronous method: it runs against the world and leaves a new one. *)
Definition M (A : Type) : Type := World -> A * World.

#[export] Instance M_ret : MRet M := fun A a w => (a, w).
#[export] Instance M_bind : MBind M :=
  fun A B f m w => let '(a, w') := m w in f a w'.

Definition withStore (s : Store) (w : World) : World :=
  mkWorld s (index w) (clock w) (openaiKey w).
Definition withIndex (i : Index) (w : World) : World :=
  mkWorld (store w) i (clock w) (openaiKey w).

(** [process.env.OPENAI_API_KEY] *)
Definition processEnv : M (option string) := fun w => (openaiKey w, w).

(** [new Date().toISOString()] *)
Definition now : M string := fun w =>
  match clock w with
  | [] => ("1970-01-01T00:00:00.000Z", w)
  | t :: later => (t, mkWorld (store w) (index w) later (openaiKey w))
  end.

(** One request to the store.  [serve] is what the database does with it. *)
Definition storeCall {A} (req : StoreRequest)
    (serve : Store -> Reply A * gmap string JS.Obj) : M (Reply A) := fun w =>
  let s := store w in
  let log := (storeLog s ++ [req])%list in
  match storeFaults s with
  | [] =>
      let '(r, t) := serve s in (r, withStore (mkStore t (textSearch s) [] log) w)
  | Served :: later =>
      let '(r, t) := serve s in (r, withStore (mkStore t (textSearch s) later log) w)
  | Rejected code msg :: later =>
      (Err code msg, withStore (mkStore (table s) (textSearch s) later log) w)
  | Thrown msg :: later =>
      (Exn msg, withStore (mkStore (table s) (textSearch s) later log) w)
  end.

(** One request to the index.  The Pinecone client reports every failure by
    throwing. *)
Definition indexCall {A} (req : IndexRequest)
    (serve : Index -> Reply A * gmap string VectorData) : M (Reply A) := fun w =>
  let i := index w in
  let log := (indexLog i ++ [req])%list in
  match indexFaults i with
  | [] =>
      let '(r, v) := serve i in (r, withIndex (mkIndex v (nearest i) [] log) w)
  | Served :: later =>
      let '(r, v) := serve i in (r, withIndex (mkIndex v (nearest i) later log) w)
  | Rejected _ msg :: later | Thrown msg :: later =>
      (Exn msg, withIndex (mkIndex (vectors i) (nearest i) later log) w)
  end.

(** *** What the database does (PostgreSQL behind PostgREST or [pg])

    Only the behaviour that depends on which ids are present is spelled
    out: the primary key, and statements that match no row.  Every other
    refusal (a check constraint, row-level security, an unknown column, a
    lost connection) is a [Rejected] or [Thrown] entry of the fault list. *)
Module Postgres.

Definition duplicateKey : string :=
  "duplicate key value violates unique constraint access_points_pkey".
Definition nullId : string :=
  "null value in column id of relation access_points violates not-null constraint".
Definition noSingleRow : string :=
  "JSON object requested, multiple (or no) rows returned".
Definition twiceInBatch : string :=
  "ON CONFLICT DO UPDATE command cannot affect row a second time".

(** [INSERT ... RETURNING *] of one row. *)
Definition insert (row : JS.Obj) (s : Store)
    : Reply (list JS.Obj) * gmap string JS.Obj :=
  match JS.get "id" row with
  | JS.VStr k =>
      match table s !! k with
      | Some _ => (Err "23505" duplicateKey, table s)
      | None => (Data [row], <[k := row]> (table s))
      end
  | _ => (Err "23502" nullId, table s)
  end.

(** [UPDATE ... SET columns WHERE id = key RETURNING *]; the rows that
    come back, none when no row has that id. *)
Definition update (key : string) (columns : JS.Obj) (s : Store)
    : Reply (list JS.Obj) * gmap string JS.Obj :=
  match table s !! key with
  | None => (Data [], table s)
  | Some row =>
      let row' := JS.spread row columns in
      match JS.get "id" row' with
      | JS.VStr k' =>
          if decide (k' = key) then (Data [row'], <[key := row']> (table s))
          else match table s !! k' with
               | Some _ => (Err "23505" duplicateKey, table s)
               | None => (Data [row'], <[k' := row']> (delete key (table s)))
               end
      | _ => (Err "23502" nullId, table s)
      end
  end.

(** [SELECT * WHERE id = key] *)
Definition select (key : string) (s : Store) : Reply (list JS.Obj) * gmap string JS.Obj :=
  (Data (option_list (table s !! key)), table s).

(** [DELETE WHERE id = key]; the answer is the number of rows removed. *)
Definition delete (key : string) (s : Store) : Reply nat * gmap string JS.Obj :=
  (Data (length (option_list (table s !! key))), base.delete key (table s)).

(** [INSERT ... ON CONFLICT (id) DO UPDATE], one statement for the batch:
    every row is written, or none. *)
Fixpoint upsertRows (rows : list JS.Obj) (seen : list string)
    (t : gmap string JS.Obj) : string * string + gmap string JS.Obj :=
  match rows with
  | [] => inr t
  | row :: rest =>
      match JS.get "id" row with
      | JS.VStr k =>
          if bool_decide (k ∈ seen) then inl ("21000", twiceInBatch)
          else
            let old := default [] (t !! k) in
            upsertRows rest (k :: seen) (<[k := JS.spread old row]> t)
      | _ => inl ("23502", nullId)
      end
  end.

Definition upsert (rows : list JS.Obj) (s : Store) : Reply unit * gmap string JS.Obj :=
  match upsertRows rows [] (table s) with
  | inr t => (Data tt, t)
  | inl (code, msg) => (Err code msg, table s)
  end.

(** [SELECT * FROM search_access_points(query)] *)
Definition search (query : string) (s : Store)
    : Reply (option (list JS.Obj)) * gmap string JS.Obj :=
  (Data (textSearch s query (table s)), table s).

(** [.single()] of PostgREST: exactly one row, or error PGRST116. *)
Definition single (r : Reply (list JS.Obj) * gmap string JS.Obj)
    : Reply JS.Obj * gmap string JS.Obj :=
  match r with
  | (Data [row], t) => (Data row, t)
  | (Data _, t) => (Err "PGRST116" noSingleRow, t)
  | (Err code msg, t) => (Err code msg, t)
  | (Exn msg, t) => (Exn msg, t)
  end.

End Postgres.

(** *** What the vector index does *)
Module PineconeService.

Definition badId : string := "record id must be a non-empty string".

(** The client checks its arguments before sending: an id is a string. *)
Fixpoint putAll (records : list VectorData) (v : gmap string VectorData)
    : option (gmap string VectorData) :=
  match records with
  | [] => Some v
  | r :: rest =>
      match vd_id r with
      | JS.VStr k => putAll rest (<[k := r]> v)
      | _ => None
      end
  end.

(** [index.upsert(records)]: same id overwrites. *)
Definition upsert (records : list VectorData) (i : Index)
    : Reply unit * gmap string VectorData :=
  match putAll records (vectors i) with
  | Some v => (Data tt, v)
  | None => (Exn badId, vectors i)
  end.

(** [index.deleteOne(id)]: removing an id that is not there is no error. *)
Definition deleteOne (id : JS.Value) (i : Index)
    : Reply unit * gmap string VectorData :=
  match id with
  | JS.VStr k => (Data tt, delete k (vectors i))
  | _ => (Exn badId, vectors i)
  end.

(** [index.query({ vector, topK, includeMetadata })]: the [matches] field
    of the response. *)
Definition query (vector : list Q) (topK : nat) (i : Index)
    : Reply (option (list JS.Obj)) * gmap string VectorData :=
  (Data (nearest i vector topK (vectors i)), vectors i).

End PineconeService.

(* ===================================================================== *)
(** ** pineconeOperations.ts *)
(* ===================================================================== *)

Module PineconeOperations.

Definition EMBEDDING_DIMENSION : nat := 1024.

Definition newline : string := String (ascii_of_nat 10) "".

(** [x | 0]: the integer reduced to a signed 32-bit one (ToInt32). *)
Definition toInt32 (x : Z) : Z := (x + 2 ^ 31) mod 2 ^ 32 - 2 ^ 31.

(** [hash = ((hash << 5) - hash) + char; hash |= 0;] *)
Definition hashStep (hash char : Z) : Z :=
  toInt32 ((toInt32 (Z.shiftl hash 5) - hash) + char).

(** [(hash % 2000 - 1000) / 1000]; [%] truncates towards zero. *)
Definition slotValue (hash : Z) : Q := (Z.rem hash 2000 - 1000) # 1000.

(** The body of [for (let i = 0; i < textToEmbed.length; i++)], from
    position [i] on. *)
Fixpoint hashLoop (codes : list Z) (i : nat) (hash : Z) (vector : list Q)
    : list Q :=
  match codes with
  | [] => vector
  | char :: rest =>
      let hash' := hashStep hash char in
      hashLoop rest (S i) hash'
        (<[(i mod EMBEDDING_DIMENSION)%nat := slotValue hash']> vector)
  end.

(** The hash-based fallback vector of a text. *)
Definition hashVector (textToEmbed : string) : list Q :=
  hashLoop (JS.charCodes textToEmbed) 0%nat 0
    (replicate EMBEDDING_DIMENSION 0%Q).

Definition excBind {A B} (m : JS.Exc A) (f : A -> JS.Exc B) : JS.Exc B :=
  match m with
  | JS.Throw msg => JS.Throw msg
  | JS.Ok a => f a
  end.

(** The text representation of an access point. *)
Definition textToEmbed (accessPoint : AccessPoint) : JS.Exc string :=
  let prop k := JS.toStr (JS.get k accessPoint) in
  excBind (JS.joinValue "capabilities" ", " (JS.get "capabilities" accessPoint))
    (fun capabilities =>
  excBind (JS.joinValue "tags" ", " (JS.get "tags" accessPoint))
    (fun tags =>
  JS.Ok (JS.join newline (filter (fun line => line <> "")
    [ "ID: " ++ prop "id";
      "Subnet: " ++ prop "subnetName" ++ " (" ++ prop "subnetID" ++ ")";
      "Description: " ++ prop "description";
      "Input: " ++ prop "input" ++ " (" ++ prop "inputType" ++ ")";
      "Output: " ++ prop "output" ++ " (" ++ prop "outputType" ++ ")";
      "Capabilities: " ++ capabilities;
      "Tags: " ++ tags;
      if JS.truthy (JS.get "promptExample" accessPoint)
      then "Example: " ++ prop "promptExample" else "" ])))).

(** [generateEmbedding].  The branch taken when [OPENAI_API_KEY] is set
    only prints a notice; the method then goes on to the hash-based path
    in either case. *)
Definition generateEmbedding (openaiKey : option string)
    (accessPoint : AccessPoint) : JS.Exc (list Q) :=
  excBind (textToEmbed accessPoint) (fun text =>
    match openaiKey with
    | Some _ => JS.Ok (hashVector text)
    | None => JS.Ok (hashVector text)
    end).

(** [a || b] *)
Definition orElse (a b : JS.Value) : JS.Value := if JS.truthy a then a else b.

Definition vectorDataOf (accessPoint : AccessPoint) (embedding : list Q)
    : VectorData :=
  {| vd_id := JS.get "id" accessPoint;
     vd_values := embedding;
     vd_metadata :=
       [ ("id", JS.get "id" accessPoint);
         ("subnetID", JS.get "subnetID" accessPoint);
         ("description", JS.get "description" accessPoint);
         ("fileUpload", JS.get "fileUpload" accessPoint);
         ("fileDownload", JS.get "fileDownload" accessPoint);
         ("promptExample", orElse (JS.get "promptExample" accessPoint) (JS.VStr ""));
         ("tags", orElse (JS.get "tags" accessPoint) (JS.VArr [])) ] |}.

Definition upsertAccessPoint (accessPoint : AccessPoint) : M (APIResponse unit) :=
  key ← processEnv;
  match generateEmbedding key accessPoint with
  | JS.Throw msg => mret (failWith ("Failed to upsert to Pinecone: " ++ msg))
  | JS.Ok embedding =>
      let vectorData := vectorDataOf accessPoint embedding in
      r ← indexCall (IndexUpsert [vectorData]) (PineconeService.upsert [vectorData]);
      match r with
      | Data _ => mret succeed
      | Err _ msg | Exn msg =>
          mret (failWith ("Failed to upsert to Pinecone: " ++ msg))
      end
  end.

(** Pinecone updates are done via upsert. *)
Definition updateAccessPoint (accessPoint : AccessPoint) : M (APIResponse unit) :=
  upsertAccessPoint accessPoint.

Definition queryAccessPoint (query : string) : AccessPoint :=
  [ ("id", JS.VStr "query"); ("subnetID", JS.VStr ""); ("subnetName", JS.VStr "");
    ("description", JS.VStr query); ("input", JS.VStr ""); ("output", JS.VStr "");
    ("inputType", JS.VStr "text"); ("outputType", JS.VStr "text");
    ("capabilities", JS.VArr []); ("tags", JS.VArr (JS.split query));
    ("promptExample", JS.VStr ""); ("fileUpload", JS.VBool false);
    ("fileDownload", JS.VBool false); ("subnetURL", JS.VStr "") ].

Definition searchSimilar (query : string) (topK : nat)
    : M (APIResponse (list JS.Obj)) :=
  key ← processEnv;
  match generateEmbedding key (queryAccessPoint query) with
  | JS.Throw msg => mret (failWith ("Failed to search Pinecone: " ++ msg))
  | JS.Ok queryEmbedding =>
      r ← indexCall (IndexQuery queryEmbedding topK)
            (PineconeService.query queryEmbedding topK);
      match r with
      | Data matches => mret (succeedWith (default [] matches))
      | Err _ msg | Exn msg =>
          mret (failWith ("Failed to search Pinecone: " ++ msg))
      end
  end.

Definition deleteAccessPoint (id : JS.Value) : M (APIResponse unit) :=
  r ← indexCall (IndexDelete id) (PineconeService.deleteOne id);
  match r with
  | Data _ => mret succeed
  | Err _ msg | Exn msg =>
      mret (failWith ("Failed to delete from Pinecone: " ++ msg))
  end.

(** [for (const accessPoint of accessPoints) vectorsData.push(...)] *)
Fixpoint buildVectors (openaiKey : option string) (accessPoints : list AccessPoint)
    : JS.Exc (list VectorData) :=
  match accessPoints with
  | [] => JS.Ok []
  | accessPoint :: rest =>
      excBind (generateEmbedding openaiKey accessPoint) (fun embedding =>
      excBind (buildVectors openaiKey rest) (fun more =>
      JS.Ok (vectorDataOf accessPoint embedding :: more)))
  end.

Definition chunkSize : nat := 100.

(** [a.slice(i, j)] *)
Definition slice {A} (i j : nat) (a : list A) : list A := take (j - i) (drop i a).

(** The values [i] takes in
    [for (let i = 0; i < vectorsData.length; i += chunkSize)]. *)
Definition chunkStarts (len : nat) : list nat :=
  map (fun j => (j * chunkSize)%nat) (seq 0 ((len + chunkSize - 1) / chunkSize)).

(** The chunk loop: one request per chunk, in order, until one throws. *)
Fixpoint upsertChunks (vectorsData : list VectorData) (starts : list nat)
    : M (Reply unit) :=
  match starts with
  | [] => mret (Data tt)
  | i :: later =>
      let chunk := slice i (i + chunkSize) vectorsData in
      r ← indexCall (IndexUpsert chunk) (PineconeService.upsert chunk);
      match r with
      | Data _ => upsertChunks vectorsData later
      | failure => mret failure
      end
  end.

Definition bulkUpsertAccessPoints (accessPoints : list AccessPoint)
    : M (APIResponse unit) :=
  key ← processEnv;
  match buildVectors key accessPoints with
  | JS.Throw msg => mret (failWith ("Failed to bulk upsert to Pinecone: " ++ msg))
  | JS.Ok vectorsData =>
      r ← upsertChunks vectorsData (chunkStarts (length vectorsData));
      match r with
      | Data _ => mret succeed
      | Err _ msg | Exn msg =>
          mret (failWith ("Failed to bulk upsert to Pinecone: " ++ msg))
      end
  end.

End PineconeOperations.

(* ===================================================================== *)
(** ** supabaseOperations.ts *)
(* ===================================================================== *)

Module SupabaseOperations.

(** [.replace(/([a-z])([A-Z])/g, '$1_$2')] *)
Fixpoint splitLowerUpper (s : string) : string :=
  match s with
  | String a ((String b r) as t) =>
      if JS.isLower a && JS.isUpper b
      then String a (String "_" (String b (splitLowerUpper r)))
      else String a (splitLowerUpper t)
  | _ => s
  end.

(** [.replace(/([A-Z])([A-Z][a-z])/g, '$1_$2')] *)
Fixpoint splitUpperRun (s : string) : string :=
  match s with
  | String a ((String b ((String c r) as u)) as t) =>
      if JS.isUpper a && JS.isUpper b && JS.isLower c
      then String a (String "_" (String b (String c (splitUpperRun r))))
      else String a (splitUpperRun t)
  | _ => s
  end.

(** [.replace(/^_/, '')] *)
Definition dropLeadingUnderscore (s : string) : string :=
  match s with
  | String c r => if Ascii.eqb c "_" then r else s
  | EmptyString => s
  end.

(** The key conversion inside [toSnakeCase]. *)
Definition snakeKey (key : string) : string :=
  dropLeadingUnderscore (JS.toLowerCase (splitUpperRun (splitLowerUpper key))).

(** The key conversion inside [toCamelCase]:
    [key.replace(/_([a-z])/g, (g) => g[1].toUpperCase())] *)
Fixpoint camelKey (key : string) : string :=
  match key with
  | String a ((String b r) as t) =>
      if Ascii.eqb a "_" && JS.isLower b
      then String (JS.upperChar b) (camelKey r)
      else String a (camelKey t)
  | _ => key
  end.

(** [toSnakeCase(obj)]; [None] is a null or undefined argument. *)
Definition toSnakeCase (obj : option JS.Obj) : JS.Obj :=
  match obj with
  | None => []
  | Some o =>
      fold_left (fun newObj kv =>
        match snd kv with
        | JS.VNull | JS.VUndefined =>
            JS.set (JS.toLowerCase (fst kv)) (snd kv) newObj
        | v => JS.set (snakeKey (fst kv)) v newObj
        end) o []
  end.

(** [toCamelCase(obj)] *)
Definition toCamelCase (obj : JS.Obj) : JS.Obj :=
  fold_left (fun newObj kv => JS.set (camelKey (fst kv)) (snd kv) newObj) obj [].

(** [.eq('id', id)]: the filter compares the column with the text of [id]. *)
Definition eqId (id : JS.Value) : string := JS.toStr id.

Definition createAccessPoint (accessPoint : AccessPoint)
    : M (APIResponse AccessPoint) :=
  created_at ← now;
  updated_at ← now;
  let dataToInsert :=
    JS.spread (toSnakeCase (Some accessPoint))
      [("created_at", JS.VStr created_at); ("updated_at", JS.VStr updated_at)] in
  r ← storeCall (StoreInsert dataToInsert)
        (fun s => Postgres.single (Postgres.insert dataToInsert s));
  match r with
  | Data row => mret (succeedWith (toCamelCase row))
  | Err _ msg | Exn msg =>
      mret (failWith ("Failed to create access point: " ++ msg))
  end.

Definition updateAccessPoint (id : JS.Value) (updates : JS.Obj)
    : M (APIResponse AccessPoint) :=
  updated_at ← now;
  let dataToUpdate :=
    JS.spread (toSnakeCase (Some updates)) [("updated_at", JS.VStr updated_at)] in
  r ← storeCall (StoreUpdate id dataToUpdate)
        (fun s => Postgres.single (Postgres.update (eqId id) dataToUpdate s));
  match r with
  | Data row => mret (succeedWith (toCamelCase row))
  | Err _ msg | Exn msg =>
      mret (failWith ("Failed to update access point: " ++ msg))
  end.

Definition notFound (id : JS.Value) : string :=
  "Access point with id " ++ JS.toStr id ++ " not found.".

Definition getAccessPoint (id : JS.Value) : M (APIResponse AccessPoint) :=
  r ← storeCall (StoreSelect id)
        (fun s => Postgres.single (Postgres.select (eqId id) s));
  match r with
  | Data row => mret (succeedWith (toCamelCase row))
  | Err code msg =>
      if String.eqb code "PGRST116" then mret (failWith (notFound id))
      else mret (failWith ("Failed to get access point: " ++ msg))
  | Exn msg => mret (failWith ("Failed to get access point: " ++ msg))
  end.

Definition deleteAccessPoint (id : JS.Value) : M (APIResponse unit) :=
  r ← storeCall (StoreDelete id) (Postgres.delete (eqId id));
  match r with
  | Data _ => mret succeed
  | Err _ msg | Exn msg =>
      mret (failWith ("Failed to delete access point: " ++ msg))
  end.

Definition searchAccessPoints (query : string)
    : M (APIResponse (list AccessPoint)) :=
  r ← storeCall (StoreSearch query) (Postgres.search query);
  match r with
  | Data rows => mret (succeedWith (map toCamelCase (default [] rows)))
  | Err _ msg | Exn msg =>
      mret (failWith ("Failed to search access points: " ++ msg))
  end.

(** [accessPoints.map(ap => ({ ...toSnakeCase(ap), created_at, updated_at }))] *)
Fixpoint stampRows (accessPoints : list AccessPoint) : M (list JS.Obj) :=
  match accessPoints with
  | [] => mret []
  | ap :: rest =>
      created_at ← now;
      updated_at ← now;
      rows ← stampRows rest;
      mret (JS.spread (toSnakeCase (Some ap))
              [("created_at", JS.VStr created_at);
               ("updated_at", JS.VStr updated_at)] :: rows)
  end.

(** [haystack.includes(needle)] *)
Fixpoint includes (needle haystack : string) : bool :=
  String.prefix needle haystack
  || match haystack with
     | EmptyString => false
     | String _ r => includes needle r
     end.

Definition bulkInsertAccessPoints (accessPoints : list AccessPoint)
    : M (APIResponse unit) :=
  dataToInsert ← stampRows accessPoints;
  r ← storeCall (StoreUpsert dataToInsert) (Postgres.upsert dataToInsert);
  match r with
  | Data _ => mret succeed
  | Err code msg =>
      if String.eqb code "42501" && includes "row-level security policy" msg
      then mret (failWith
        "Row-level security policy violation. Please ensure your API key has the necessary permissions.")
      else mret (failWith ("Failed to bulk insert access points: " ++ msg))
  | Exn msg => mret (failWith ("Failed to bulk insert access points: " ++ msg))
  end.

End SupabaseOperations.

(* ===================================================================== *)
(** ** databaseOperations.ts *)
(* ===================================================================== *)

Module DatabaseOperations.

(** The private [toCamelCase] of this class has the text of
    [SupabaseOperations.toCamelCase]. *)
Definition toCamelCase := SupabaseOperations.toCamelCase.

Definition notFound (id : JS.Value) : string :=
  "Access point with id " ++ JS.toStr id ++ " not found.".

(** [await this.pool.connect()] *)
Definition connect : M (Reply unit) :=
  storeCall StoreConnect (fun s => (Data tt, table s)).

(** A query parameter [$1]: null and undefined are SQL NULL, which equals
    no id. *)
Definition matching {A} (id : JS.Value)
    (statement : string -> Store -> Reply A * gmap string JS.Obj) (none : A)
    (s : Store) : Reply A * gmap string JS.Obj :=
  match id with
  | JS.VUndefined | JS.VNull => (Data none, table s)
  | _ => statement (JS.toStr id) s
  end.

Definition getAccessPoint (id : JS.Value) : M (APIResponse AccessPoint) :=
  client ← connect;
  match client with
  | Data _ =>
      result ← storeCall (StoreSelect id) (matching id Postgres.select []);
      match result with
      | Data [] => mret (failWith (notFound id))
      | Data (row :: _) => mret (succeedWith (toCamelCase row))
      | Err _ msg | Exn msg =>
          mret (failWith ("Failed to get access point: " ++ msg))
      end
  | Err _ msg | Exn msg =>
      mret (failWith ("Failed to get access point: " ++ msg))
  end.

Definition deleteAccessPoint (id : JS.Value) : M (APIResponse unit) :=
  client ← connect;
  match client with
  | Data _ =>
      result ← storeCall (StoreDelete id) (matching id Postgres.delete 0%nat);
      match result with
      | Data rowCount =>
          if (rowCount =? 0)%nat then mret (failWith (notFound id))
          else mret succeed
      | Err _ msg | Exn msg =>
          mret (failWith ("Failed to delete access point: " ++ msg))
      end
  | Err _ msg | Exn msg =>
      mret (failWith ("Failed to delete access point: " ++ msg))
  end.


(** The private [toSnakeCase] of this class has the text of
    [SupabaseOperations.toSnakeCase]. *)
Definition toSnakeCase := SupabaseOperations.toSnakeCase.

Definition tableName : string := "access_points".

Definition newline : string := String (ascii_of_nat 10) "".



(** [keys.map((key, index) => `${key} = $${index + 1}`)] *)
Definition setClauses (keys : list string) : list string :=
  imap (fun index key => key ++ " = $" ++ pretty (index + 1)%nat) keys.

(** [buildUpdateQuery(data, id)]: the statement and its parameters, the id
    last. *)
Definition buildUpdateQuery (data : JS.Obj) (id : JS.Value) : string * list JS.Value :=
  let keys := map fst data in
  let values := map snd data in
  let setClause := JS.join ", " (setClauses keys) in
  (newline ++ "      UPDATE " ++ tableName
   ++ newline ++ "      SET " ++ setClause
   ++ newline ++ "      WHERE id = $" ++ pretty (length keys + 1)%nat
   ++ newline ++ "      RETURNING *"
   ++ newline ++ "    ",
   (values ++ [id])%list).

(** The database is modelled on rows, so a request records the row the
    statement carries; the statement text is built as the source builds it. *)
Definition updateAccessPoint (id : JS.Value) (updates : JS.Obj)
    : M (APIResponse AccessPoint) :=
  client ← connect;
  match client with
  | Data _ =>
      updated_at ← now;
      let dataToUpdate :=
        JS.spread (toSnakeCase (Some updates)) [("updated_at", JS.VStr updated_at)] in
      let '(query, values) := buildUpdateQuery dataToUpdate id in
      result ← storeCall (StoreUpdate id dataToUpdate)
                 (matching id (fun key => Postgres.update key dataToUpdate) []);
      match result with
      | Data [] => mret (failWith (notFound id))
      | Data (row :: _) => mret (succeedWith (toCamelCase row))
      | Err _ msg | Exn msg =>
          mret (failWith ("Failed to update access point: " ++ msg))
      end
  | Err _ msg | Exn msg =>
      mret (failWith ("Failed to update access point: " ++ msg))
  end.

End DatabaseOperations.

(* ===================================================================== *)
(** ** accesspoint.ts *)
(* ===================================================================== *)

Module AccessPoints.

(** [accessPointsData]: the records the sync is seeded with. *)
Definition accessPointsData : list AccessPoint :=
  [ [ ("id", JS.VStr "runpod-management");
      ("subnetID", JS.VStr "3");
      ("subnetName", JS.VStr "runpod");
      ("description", JS.VStr "This is for creating and managing RunPod instances");
      ("input", JS.VStr "Only prompt");
      ("output", JS.VStr "Pod details");
      ("inputType", JS.VStr "text");
      ("outputType", JS.VStr "json");
      ("capabilities", JS.VArr ["manage-pod"; "create-pod"]);
      ("tags", JS.VArr ["runpod"; "pod"; "management"]);
      ("promptExample", JS.VStr "Create a new pod name: 'RunPod Tensorflow' imageName: 'runpod/pytorch' ports: 8888/http volume: /workspace");
      ("fileUpload", JS.VBool false);
      ("fileDownload", JS.VBool false);
      ("subnetURL", JS.VStr "https://runpodservice-c0n1.stackos.io/natural-request") ];
    [ ("id", JS.VStr "image-execution");
      ("subnetID", JS.VStr "19");
      ("subnetName", JS.VStr "runpod");
      ("description", JS.VStr "This is for creating and managing image instances");
      ("input", JS.VStr "Only prompt");
      ("output", JS.VStr "Pod details");
      ("inputType", JS.VStr "text");
      ("outputType", JS.VStr "json");
      ("capabilities", JS.VArr ["manage-pod"; "create-pod"]);
      ("tags", JS.VArr ["runpod"; "pod"; "management"]);
      ("promptExample", JS.VStr "Create a new pod name: 'RunPod Tensorflow' imageName: 'runpod/pytorch' ports: 8888/http volume: /workspace");
      ("fileUpload", JS.VBool false);
      ("fileDownload", JS.VBool false);
      ("subnetURL", JS.VStr "https://runpodservice-c0n1.stackos.io/natural-request") ];
    [ ("id", JS.VStr "audio-accesspoint");
      ("subnetID", JS.VStr "20");
      ("subnetName", JS.VStr "runpod");
      ("description", JS.VStr "This is for audio transcription and summarization");
      ("input", JS.VStr "Audio file");
      ("output", JS.VStr "Transcription and summary");
      ("inputType", JS.VStr "file");
      ("outputType", JS.VStr "text");
      ("capabilities", JS.VArr ["manage-pod"; "create-pod"]);
      ("tags", JS.VArr ["runpod"; "pod"; "management"]);
      ("promptExample", JS.VStr "Create a new pod name: 'RunPod Tensorflow' imageName: 'runpod/pytorch' ports: 8888/http volume: /workspace");
      ("fileUpload", JS.VBool false);
      ("fileDownload", JS.VBool false);
      ("subnetURL", JS.VStr "https://runpodservice-c0n1.stackos.io/natural-request") ];
    [ ("id", JS.VStr "video-accesspoint");
      ("subnetID", JS.VStr "9");
      ("subnetName", JS.VStr "runpod");
      ("description", JS.VStr "This is for audio transcription and summarization");
      ("input", JS.VStr "Audio file");
      ("output", JS.VStr "Transcription and summary");
      ("inputType", JS.VStr "file");
      ("outputType", JS.VStr "text");
      ("capabilities", JS.VArr ["manage-pod"; "create-pod"]);
      ("tags", JS.VArr ["runpod"; "pod"; "management"]);
      ("promptExample", JS.VStr "Create a new pod name: 'RunPod Tensorflow' imageName: 'runpod/pytorch' ports: 8888/http volume: /workspace");
      ("fileUpload", JS.VBool false);
      ("fileDownload", JS.VBool false);
      ("subnetURL", JS.VStr "https://runpodservice-c0n1.stackos.io/natural-request") ];
    [ ("id", JS.VStr "creation-openai");
      ("subnetID", JS.VStr "23");
      ("subnetName", JS.VStr "runpod");
      ("description", JS.VStr "This is for creating and managing image instances");
      ("input", JS.VStr "Only prompt");
      ("output", JS.VStr "Pod details");
      ("inputType", JS.VStr "text");
      ("outputType", JS.VStr "json");
      ("capabilities", JS.VArr ["manage-pod"; "create-pod"]);
      ("tags", JS.VArr ["runpod"; "pod"; "management"]);
      ("promptExample", JS.VStr "Create a new pod name: 'RunPod Tensorflow' imageName: 'runpod/pytorch' ports: 8888/http volume: /workspace");
      ("fileUpload", JS.VBool false);
      ("fileDownload", JS.VBool false);
      ("subnetURL", JS.VStr "https://runpodservice-c0n1.stackos.io/natural-request") ];
    [ ("id", JS.VStr "subnet-accesspoint");
      ("subnetID", JS.VStr "24");
      ("subnetName", JS.VStr "runpod");
      ("description", JS.VStr "This is for creating and managing image instances");
      ("input", JS.VStr "Only prompt");
      ("output", JS.VStr "Pod details");
      ("inputType", JS.VStr "text");
      ("outputType", JS.VStr "json");
      ("capabilities", JS.VArr ["manage-pod"; "create-pod"]);
      ("tags", JS.VArr ["runpod"; "pod"; "management"]);
      ("promptExample", JS.VStr "Create a new pod name: 'RunPod Tensorflow' imageName: 'runpod/pytorch' ports: 8888/http volume: /workspace");
      ("fileUpload", JS.VBool false);
      ("fileDownload", JS.VBool false);
      ("subnetURL", JS.VStr "https://runpodservice-c0n1.stackos.io/natural-request") ];
    [ ("id", JS.VStr "3dauto-accesspoint");
      ("subnetID", JS.VStr "4");
      ("subnetName", JS.VStr "runpod");
      ("description", JS.VStr "This is for creating and managing 3d image instances");
      ("input", JS.VStr "Only prompt");
      ("output", JS.VStr "Pod details");
      ("inputType", JS.VStr "text");
      ("outputType", JS.VStr "json");
      ("capabilities", JS.VArr ["manage-pod"; "create-pod"]);
      ("tags", JS.VArr ["runpod"; "pod"; "management"]);
      ("promptExample", JS.VStr "Create a new pod name: 'RunPod Tensorflow' imageName: 'runpod/pytorch' ports: 8888/http volume: /workspace");
      ("fileUpload", JS.VBool false);
      ("fileDownload", JS.VBool false);
      ("subnetURL", JS.VStr "https://runpodservice-c0n1.stackos.io/natural-request") ] ].

(** [value === text], for a string [text]. *)
Definition strictEqString (value : JS.Value) (text : string) : bool :=
  match value with
  | JS.VStr s => String.eqb s text
  | _ => false
  end.

(** [value.includes(item)]: membership in an array, containment in a
    string, a [TypeError] on anything else. *)
Definition includes (prop : string) (value : JS.Value) (item : string) : JS.Exc bool :=
  match value with
  | JS.VArr items => JS.Ok (bool_decide (item ∈ items))
  | JS.VStr s => JS.Ok (SupabaseOperations.includes item s)
  | JS.VUndefined =>
      JS.Throw "Cannot read properties of undefined (reading 'includes')"
  | JS.VNull => JS.Throw "Cannot read properties of null (reading 'includes')"
  | JS.VBool _ => JS.Throw ("ap." ++ prop ++ ".includes is not a function")
  end.

(** [array.filter(test)] for a test that may throw. *)
Fixpoint filterExc {A} (test : A -> JS.Exc bool) (items : list A) : JS.Exc (list A) :=
  match items with
  | [] => JS.Ok []
  | item :: rest =>
      match test item with
      | JS.Throw msg => JS.Throw msg
      | JS.Ok keep =>
          match filterExc test rest with
          | JS.Throw msg => JS.Throw msg
          | JS.Ok kept => JS.Ok (if keep then item :: kept else kept)
          end
      end
  end.

(** [getAccessPointById]: the first record with the id, or undefined. *)
Definition getAccessPointById (id : string) : option AccessPoint :=
  List.find (fun ap => strictEqString (JS.get "id" ap) id) accessPointsData.

Definition getAccessPointsBySubnet (subnetName : string) : list AccessPoint :=
  List.filter (fun ap => strictEqString (JS.get "subnetName" ap) subnetName)
    accessPointsData.

Definition getAccessPointsByCapability (capability : string) : JS.Exc (list AccessPoint) :=
  filterExc (fun ap => includes "capabilities" (JS.get "capabilities" ap) capability)
    accessPointsData.

Definition getAccessPointsByTag (tag : string) : JS.Exc (list AccessPoint) :=
  filterExc (fun ap => includes "tags" (JS.get "tags" ap) tag) accessPointsData.

End AccessPoints.


(* ===================================================================== *)
(** ** dataSyncManager.ts *)
(* ===================================================================== *)

(** The adapter methods catch every exception themselves and answer with an
    [APIResponse], so the [catch] clauses of the manager's methods are never
    entered and are left out. *)
Module DataSyncManager.

(** A settled promise, as [Promise.allSettled] reports it. *)
Inductive Settled (A : Type) :=
| Fulfilled (value : A)
| RejectedWith (reason : string).
Arguments Fulfilled {A} value.
Arguments RejectedWith {A} reason.

(** [Promise.allSettled([a, b])] for two adapter calls.  The first call
    reaches its backend first; the two backends share no state. *)
Definition allSettled {A B} (a : M A) (b : M B) : M (Settled A * Settled B) :=
  x ← a; y ← b; mret (Fulfilled x, Fulfilled y).

Definition fulfilledSuccess {A} (r : Settled (APIResponse A)) : bool :=
  match r with
  | Fulfilled value => success value
  | RejectedWith _ => false
  end.

Definition createAccessPoint (accessPoint : AccessPoint)
    : M (APIResponse AccessPoint) :=
  supabaseResult ← SupabaseOperations.createAccessPoint accessPoint;
  if negb (success supabaseResult) then mret supabaseResult
  else
    pineconeResult ← PineconeOperations.upsertAccessPoint accessPoint;
    if negb (success pineconeResult) then
      _ ← SupabaseOperations.deleteAccessPoint (JS.get "id" accessPoint);
      mret (failWith "Failed to sync to Pinecone, rolled back Supabase")
    else mret supabaseResult.

(** [pineconeOps.updateAccessPoint(supabaseResult.data!)] *)
Definition reindex (fullAccessPoint : option AccessPoint) : M (APIResponse unit) :=
  match fullAccessPoint with
  | Some full => PineconeOperations.updateAccessPoint full
  | None =>
      mret (failWith
        "Failed to upsert to Pinecone: Cannot read properties of undefined (reading 'id')")
  end.

Definition updateAccessPoint (id : JS.Value) (updates : JS.Obj)
    : M (APIResponse AccessPoint) :=
  supabaseResult ← SupabaseOperations.updateAccessPoint id updates;
  if negb (success supabaseResult) then mret supabaseResult
  else
    pineconeResult ← reindex (data supabaseResult);
    mret supabaseResult.

Definition deleteAccessPoint (id : JS.Value) : M (APIResponse unit) :=
  '(supabaseResult, pineconeResult) ←
    allSettled (SupabaseOperations.deleteAccessPoint id)
               (PineconeOperations.deleteAccessPoint id);
  let supabaseSuccess := fulfilledSuccess supabaseResult in
  let pineconeSuccess := fulfilledSuccess pineconeResult in
  if negb supabaseSuccess && negb pineconeSuccess
  then mret (failWith "Failed to delete from both databases")
  else mret succeed.

Definition getAccessPoint (id : JS.Value) : M (APIResponse AccessPoint) :=
  SupabaseOperations.getAccessPoint id.

(** [for (const id of ids) { ... accessPoints.push(apResult.data) }] *)
Fixpoint fetchEach (ids : list JS.Value) (accessPoints : list AccessPoint)
    : M (list AccessPoint) :=
  match ids with
  | [] => mret accessPoints
  | id :: rest =>
      apResult ← SupabaseOperations.getAccessPoint id;
      match success apResult, data apResult with
      | true, Some ap => fetchEach rest (accessPoints ++ [ap])%list
      | _, _ => fetchEach rest accessPoints
      end
  end.

Definition defaultTopK : nat := 10.

Definition searchAccessPoints (query : string) (topK : nat)
    : M (APIResponse (list AccessPoint)) :=
  pineconeResult ← PineconeOperations.searchSimilar query topK;
  if negb (success pineconeResult)
  then SupabaseOperations.searchAccessPoints query
  else
    let ids := map (JS.get "id") (default [] (data pineconeResult)) in
    accessPoints ← fetchEach ids [];
    mret (succeedWith accessPoints).

Definition bulkSyncAccessPoints (accessPoints : list AccessPoint)
    : M (APIResponse unit) :=
  supabaseResult ← SupabaseOperations.bulkInsertAccessPoints accessPoints;
  if negb (success supabaseResult) then
    mret (failWith ("Failed to bulk sync to Supabase: "
                    ++ default "undefined" (error supabaseResult)))
  else
    pineconeResult ← PineconeOperations.bulkUpsertAccessPoints accessPoints;
    if negb (success pineconeResult) then
      retryResult ← PineconeOperations.bulkUpsertAccessPoints accessPoints;
      if negb (success retryResult) then
        mret (failWith
          "Failed to sync to Pinecone after retry. Supabase sync was successful.")
      else mret succeed
    else mret succeed.


(** [run()]: sync the seed records; the outcome is only printed. *)
Definition run : M unit :=
  result ← bulkSyncAccessPoints AccessPoints.accessPointsData;
  mret tt.

End DataSyncManager.

(* ===================================================================== *)
(** ** Sample data *)
(* ===================================================================== *)

(** The record of the specification's end-to-end scenario. *)
Definition demoPoint : AccessPoint :=
  [ ("id", JS.VStr "x1"); ("subnetID", JS.VStr "1"); ("subnetName", JS.VStr "demo");
    ("description", JS.VStr "test endpoint"); ("input", JS.VStr "");
    ("output", JS.VStr ""); ("inputType", JS.VStr "text");
    ("outputType", JS.VStr "json"); ("capabilities", JS.VArr ["create-pod"]);
    ("tags", JS.VArr ["demo"]); ("promptExample", JS.VStr "");
    ("fileUpload", JS.VBool false); ("fileDownload", JS.VBool false);
    ("subnetURL", JS.VStr "") ].

(** Both backends empty and answering every request. *)
Definition quietStore : Store := mkStore ∅ (fun _ _ => None) [] [].
Definition quietIndex : Index := mkIndex ∅ (fun _ _ _ => None) [] [].
Definition quietWorld : World := mkWorld quietStore quietIndex [] None.

(** The same world with the given faults ahead. *)
Definition troubled (storeAhead indexAhead : list Fault) : World :=
  mkWorld (mkStore ∅ (fun _ _ => None) storeAhead [])
          (mkIndex ∅ (fun _ _ _ => None) indexAhead []) [] None.

(** The world after the sample record has been created in the store. *)
Definition storedDemo : World :=
  (SupabaseOperations.createAccessPoint demoPoint quietWorld).2.

(** The same world with the index refusing its next request. *)
Definition indexDown (w : World) : World :=
  mkWorld (store w)
    (mkIndex (vectors (index w)) (nearest (index w))
       [Thrown "index unavailable"] (indexLog (index w)))
    (clock w) (openaiKey w).

(* ===================================================================== *)
(** ** The embedding as the specification words it *)
(* ===================================================================== *)

Module Reference.

Import PineconeOperations.

(** [hash = hash*31 + charCode], wrapped to 32-bit signed. *)
Definition rollingHash (hash charCode : Z) : Z := toInt32 (hash * 31 + charCode).

(** [hash mod 2000 / 1000 - 1], a value in [[-1, 1)]. *)
Definition scatterValue (hash : Z) : Q := ((hash mod 2000) # 1000) - 1.

(** For each character position [i], write the value into slot [i mod D]. *)
Fixpoint scatter (codes : list Z) (i : nat) (hash : Z) (vector : list Q)
    : list Q :=
  match codes with
  | [] => vector
  | charCode :: rest =>
      let hash' := rollingHash hash charCode in
      scatter rest (S i) hash'
        (<[(i mod EMBEDDING_DIMENSION)%nat := scatterValue hash']> vector)
  end.

Definition embed (text : string) : list Q :=
  scatter (JS.charCodes text) 0%nat 0 (replicate EMBEDDING_DIMENSION 0%Q).

(** The ids the index returned, re-fetched one by one from the store in
    ranking order; an id the store does not resolve is skipped. *)
Fixpoint refetch (ids : list JS.Value) (w : World) : list AccessPoint * World :=
  match ids with
  | [] => ([], w)
  | id :: rest =>
      let got := SupabaseOperations.getAccessPoint id w in
      let more := refetch rest got.2 in
      match success got.1, data got.1 with
      | true, Some accessPoint => (accessPoint :: more.1, more.2)
      | _, _ => more
      end
  end.

End Reference.

(** A world whose store holds the sample record and whose index ranks an id
    the store no longer has before the sample record's id. *)
Definition driftedWorld : World :=
  mkWorld (store storedDemo)
    (mkIndex ∅ (fun _ _ _ => Some [[("id", JS.VStr "gone")]; [("id", JS.VStr "x1")]]) [] [])
    [] None.

(* ===================================================================== *)
(** ** Vocabulary of the statements *)
(* ===================================================================== *)

(** An object that conforms to [interface AccessPoint]: its properties are
    among the interface's, each once. *)
Definition conforms (accessPoint : JS.Obj) : Prop :=
  NoDup accessPoint.*1 /\ Forall (fun key => key ∈ accessPointFields) accessPoint.*1.

#[export] Instance conforms_dec accessPoint : Decision (conforms accessPoint).
Proof. unfold conforms. apply _. Defined.

(** The backend executes the next request. *)
Definition served (faults : list Fault) : Prop :=
  match faults with
  | [] | Served :: _ => True
  | _ => False
  end.

#[export] Instance served_dec faults : Decision (served faults).
Proof. destruct faults as [|[] ?]; simpl; apply _. Defined.

(** [keepsIndex m]: the method leaves the vector index as it found it, the
    log of requests included.  [keepsStore m]: the same for the store. *)
Definition keepsIndex {A} (m : M A) : Prop := forall w, index (m w).2 = index w.
Definition keepsStore {A} (m : M A) : Prop := forall w, store (m w).2 = store w.

(** The row a create sends: the record under snake_case names, stamped. *)
Definition stamped (accessPoint : JS.Obj) (created_at updated_at : string) : JS.Obj :=
  JS.spread (SupabaseOperations.toSnakeCase (Some accessPoint))
    [("created_at", JS.VStr created_at); ("updated_at", JS.VStr updated_at)].

(** The columns an update sends. *)
Definition stampedUpdate (updates : JS.Obj) (updated_at : string) : JS.Obj :=
  JS.spread (SupabaseOperations.toSnakeCase (Some updates))
    [("updated_at", JS.VStr updated_at)].

(** Whether a name is sent to the [id] column exactly when it is [id]. *)
Definition keepsIdKey (name : string) : bool :=
  Bool.eqb (String.eqb (SupabaseOperations.snakeKey name) "id") (String.eqb name "id")
  && Bool.eqb (String.eqb (JS.toLowerCase name) "id") (String.eqb name "id").

(** Whether a field name survives the trip to snake_case and back. *)
Definition roundTrips (name : string) : bool :=
  String.eqb (SupabaseOperations.camelKey (SupabaseOperations.snakeKey name)) name.

(** A plain camelCase name: letters only, the first one lower-case, and no
    two capitals in a row. *)
Definition isLetter (c : ascii) : bool := JS.isLower c || JS.isUpper c.

Fixpoint noCapitalRun (s : string) : bool :=
  match s with
  | EmptyString => true
  | String a t =>
      isLetter a
      && match t with
         | String b _ => negb (JS.isUpper a && JS.isUpper b)
         | EmptyString => true
         end
      && noCapitalRun t
  end.

Definition startsLower (s : string) : bool :=
  match s with
  | EmptyString => true
  | String a _ => JS.isLower a
  end.

Definition plainCamel (name : string) : bool := startsLower name && noCapitalRun name.

(** The name with an underscore put before every capital. *)
Fixpoint underscored (s : string) : string :=
  match s with
  | EmptyString => EmptyString
  | String a t =>
      if JS.isUpper a then String "_" (String a (underscored t))
      else String a (underscored t)
  end.

(** No capital letter [A-Z] occurs in the string. *)
Fixpoint noCapital (s : string) : bool :=
  match s with
  | EmptyString => true
  | String a t => negb (JS.isUpper a) && noCapital t
  end.

(** No two capitals stand side by side. *)
Fixpoint noAdjacentCapitals (s : string) : bool :=
  match s with
  | String a ((String b _) as t) => negb (JS.isUpper a && JS.isUpper b) && noAdjacentCapitals t
  | _ => true
  end.

(** A vector record whose id is a string. *)
Definition hasStringId (v : VectorData) : Prop := exists id, vd_id v = JS.VStr id.

(** The column names a record of the interface can be sent under: the
    snake_case and the lower-case form of each property name, and the two
    timestamps. *)
Definition sentColumns : list string :=
  (map SupabaseOperations.snakeKey accessPointFields
   ++ map JS.toLowerCase accessPointFields
   ++ ["created_at"; "updated_at"])%list.

(** No other property of the interface is sent under the column of [field]. *)
Definition columnIsOwn (field : string) : bool :=
  forallb (fun other =>
    String.eqb other field
    || (negb (String.eqb (SupabaseOperations.snakeKey other) (SupabaseOperations.snakeKey field))
        && negb (String.eqb (JS.toLowerCase other) (SupabaseOperations.snakeKey field))))
    accessPointFields.

(** No other column is read back under the name the column of [field] is
    read back under. *)
Definition readBackIsOwn (field : string) : bool :=
  forallb (fun column =>
    String.eqb column (SupabaseOperations.snakeKey field)
    || negb (String.eqb (SupabaseOperations.camelKey column)
               (SupabaseOperations.camelKey (SupabaseOperations.snakeKey field))))
    sentColumns.

(** The properties a caller supplies: all of the interface but the two
    timestamps. *)
Definition callerFields : list string :=
  filter (fun name => name <> "createdAt" /\ name <> "updatedAt") accessPointFields.

(** The conversion of one property inside [toSnakeCase]. *)
Definition columnOf (kv : string * JS.Value) : string :=
  match kv.2 with
  | JS.VNull | JS.VUndefined => JS.toLowerCase kv.1
  | _ => SupabaseOperations.snakeKey kv.1
  end.

(** A record the index adapter can take: a string id, and arrays under
    [capabilities] and [tags]. *)
Definition indexable (accessPoint : JS.Obj) : Prop :=
  (exists k, JS.get "id" accessPoint = JS.VStr k)
  /\ (exists items, JS.get "capabilities" accessPoint = JS.VArr items)
  /\ (exists items, JS.get "tags" accessPoint = JS.VArr items).

(** The check of [indexable] and [conforms] on a given record. *)
Definition wellFormedRecord (accessPoint : JS.Obj) : bool :=
  bool_decide (conforms accessPoint)
  && match JS.get "id" accessPoint, JS.get "capabilities" accessPoint,
           JS.get "tags" accessPoint with
     | JS.VStr _, JS.VArr _, JS.VArr _ => true
     | _, _, _ => false
     end.


Section KeyCase.

Import SupabaseOperations.


Lemma round_trip_characterised name :
  name ∈ accessPointFields ->
  camelKey (snakeKey name) = name <-> name <> "subnetID" /\ name <> "subnetURL".
Proof.
  intros Hin.
  assert (Hb : forallb (fun n => Bool.eqb (roundTrips n)
                 (negb (String.eqb n "subnetID") && negb (String.eqb n "subnetURL")))
                 accessPointFields = true) by (vm_compute; reflexivity).
  rewrite forallb_forall in Hb. apply list_elem_of_In in Hin.
  specialize (Hb name Hin). apply Bool.eqb_prop in Hb. unfold roundTrips in Hb.
  rewrite <- (String.eqb_eq (camelKey (snakeKey name)) name), Hb.
  rewrite andb_true_iff, !negb_true_iff, !String.eqb_neq. reflexivity.
Qed.

(** C2 (fails on the code): the translation to snake_case and back is not
    lossless on the schema's field names.  The two acronym-bearing names
    come back changed, [subnetID] as [subnetId] and [subnetURL] as
    [subnetUrl]; every other name of the schema comes back as it was. *)
Theorem acronym_fields_do_not_round_trip :
  camelKey (snakeKey "subnetID") = "subnetId"
  /\ camelKey (snakeKey "subnetURL") = "subnetUrl"
  /\ Forall (fun name =>
              camelKey (snakeKey name) = name
              <-> name <> "subnetID" /\ name <> "subnetURL")
       accessPointFields.
Proof.
  split; [reflexivity|]. split; [reflexivity|].
  apply Forall_forall. intros name Hin. by apply round_trip_characterised.
Qed.

(** What the store adapter hands back for a record it was given: the
    object has lost [subnetID] and [subnetURL]. *)
Lemma round_trip_loses_subnetID :
  JS.get "subnetID" demoPoint = JS.VStr "1"
  /\ JS.get "subnetID" (toCamelCase (toSnakeCase (Some demoPoint))) = JS.VUndefined
  /\ JS.get "subnetId" (toCamelCase (toSnakeCase (Some demoPoint))) = JS.VStr "1".
Proof. by vm_compute. Qed.

End KeyCase.

(* ===================================================================== *)
(** ** The fallback embedding *)
(* ===================================================================== *)

Section Embedding.

Import PineconeOperations.

Lemma toInt32_absorb (a b : Z) : toInt32 (toInt32 a + b) = toInt32 (a + b).
Proof.
  unfold toInt32. f_equal.
  replace ((a + 2 ^ 31) mod 2 ^ 32 - 2 ^ 31 + b + 2 ^ 31)
    with ((a + 2 ^ 31) mod 2 ^ 32 + b) by ring.
  rewrite Zplus_mod_idemp_l. f_equal. ring.
Qed.

Lemma toInt32_range (x : Z) : - 2 ^ 31 <= toInt32 x < 2 ^ 31.
Proof.
  unfold toInt32.
  pose proof (Z.mod_pos_bound (x + 2 ^ 31) (2 ^ 32) ltac:(lia)). lia.
Qed.

(** The shift-and-subtract of the source is the multiplication by 31 of
    the specification. *)
Lemma hashStep_is_rollingHash (hash char : Z) :
  hashStep hash char = Reference.rollingHash hash char.
Proof.
  unfold hashStep, Reference.rollingHash.
  rewrite Z.shiftl_mul_pow2 by lia.
  replace (toInt32 (hash * 2 ^ 5) - hash + char)
    with (toInt32 (hash * 2 ^ 5) + (char - hash)) by ring.
  rewrite toInt32_absorb. f_equal. lia.
Qed.

(** What the source stores in a slot lies strictly between -3 and 1. *)
Lemma slotValue_range (hash : Z) : (-3 < slotValue hash)%Q /\ (slotValue hash < 1)%Q.
Proof.
  unfold slotValue, Qlt; simpl.
  assert (Z.abs (Z.rem hash 2000) < 2000) by (apply Z.rem_bound_abs; lia).
  lia.
Qed.

(** What the specification describes lies in [[-1, 1)]. *)
Lemma scatterValue_range (hash : Z) :
  (-1 <= Reference.scatterValue hash)%Q /\ (Reference.scatterValue hash < 1)%Q.
Proof.
  unfold Reference.scatterValue, Qle, Qlt, Qminus, Qplus, Qopp; simpl.
  pose proof (Z.mod_pos_bound hash 2000 ltac:(lia)). lia.
Qed.

(** On a hash that is not negative the two agree. *)
Lemma slotValue_nonneg (hash : Z) :
  0 <= hash -> (slotValue hash == Reference.scatterValue hash)%Q.
Proof.
  intros Hh. unfold slotValue, Reference.scatterValue, Qeq, Qminus, Qplus, Qopp; simpl.
  rewrite Z.rem_mod_nonneg by lia. lia.
Qed.

Lemma hashLoop_length codes : forall i hash vector,
  length (hashLoop codes i hash vector) = length vector.
Proof.
  induction codes as [|char rest IH]; intros i hash vector; simpl; [done|].
  by rewrite IH, length_insert.
Qed.

Lemma hashVector_length (text : string) :
  length (hashVector text) = EMBEDDING_DIMENSION.
Proof. unfold hashVector. by rewrite hashLoop_length, length_replicate. Qed.

Lemma textToEmbed_total (accessPoint : AccessPoint) (caps tags : list string) :
  JS.get "capabilities" accessPoint = JS.VArr caps ->
  JS.get "tags" accessPoint = JS.VArr tags ->
  exists text, textToEmbed accessPoint = JS.Ok text.
Proof. intros Hc Ht. unfold textToEmbed. rewrite Hc, Ht. simpl. eauto. Qed.

Lemma generateEmbedding_env (key1 key2 : option string) (accessPoint : AccessPoint) :
  generateEmbedding key1 accessPoint = generateEmbedding key2 accessPoint.
Proof.
  unfold generateEmbedding, excBind.
  destruct (textToEmbed accessPoint); [done|]. by destruct key1, key2.
Qed.

Lemma generateEmbedding_length key accessPoint vector :
  generateEmbedding key accessPoint = JS.Ok vector ->
  length vector = EMBEDDING_DIMENSION.
Proof.
  unfold generateEmbedding, excBind.
  destruct (textToEmbed accessPoint) as [msg|text]; [discriminate|].
  destruct key; intros [= <-]; apply hashVector_length.
Qed.

(** C9: the fallback embedding is reproducible and of fixed dimension.
    Every text, the empty one included, gives a vector of exactly 1024
    components; a record whose [capabilities] and [tags] are arrays always
    gets a vector, the same one on every call and whatever the process
    settings, and it has 1024 components. *)
Theorem embedding_reproducible_fixed_dimension :
  EMBEDDING_DIMENSION = 1024%nat
  /\ (forall text, length (hashVector text) = 1024%nat)
  /\ hashVector "" = replicate 1024 0%Q
  /\ (forall (accessPoint : AccessPoint) caps tags key1 key2,
        JS.get "capabilities" accessPoint = JS.VArr caps ->
        JS.get "tags" accessPoint = JS.VArr tags ->
        exists vector,
          generateEmbedding key1 accessPoint = JS.Ok vector
          /\ generateEmbedding key2 accessPoint = JS.Ok vector
          /\ length vector = 1024%nat).
Proof.
  split; [reflexivity|]. split; [apply hashVector_length|].
  split; [reflexivity|].
  intros accessPoint caps tags key1 key2 Hc Ht.
  destruct (textToEmbed_total accessPoint caps tags Hc Ht) as [text Htext].
  exists (hashVector text). unfold generateEmbedding. rewrite Htext. simpl.
  split; [by destruct key1|]. split; [by destruct key2|]. apply hashVector_length.
Qed.

Lemma embedding_reproducible_fixed_dimension_witness :
  exists vector,
    generateEmbedding None demoPoint = JS.Ok vector
    /\ generateEmbedding (Some "sk-test") demoPoint = JS.Ok vector
    /\ length vector = 1024%nat.
Proof.
  destruct embedding_reproducible_fixed_dimension as (_ & _ & _ & H).
  apply (H demoPoint ["create-pod"] ["demo"]); reflexivity.
Defined.

(** C5 (fails on the code): on the record of the end-to-end scenario the
    sixth character leaves a negative hash, and the source writes -2.446
    into slot 5, below the interval [[-1, 1)] in which the specification
    (and the source's own comment) places every slot; the embedding as the
    specification words it has -0.446 there. *)
Theorem embedding_leaves_the_unit_interval :
  fold_left hashStep (JS.charCodes "ID: x1") 0 = -2140477446
  /\ exists vector,
    generateEmbedding None demoPoint = JS.Ok vector
    /\ vector !! 5%nat = Some (-2446 # 1000)
    /\ (-2446 # 1000 < -1)%Q
    /\ (exists text, textToEmbed demoPoint = JS.Ok text
          /\ Reference.embed text !! 5%nat = Some (Reference.scatterValue (-2140477446))
          /\ (Reference.scatterValue (-2140477446) == -446 # 1000)%Q).
Proof.
  split; [by vm_compute|].
  eexists. split; [reflexivity|]. split; [by vm_compute|]. split; [reflexivity|].
  eexists. split; [reflexivity|]. split; [by vm_compute|]. reflexivity.
Qed.

End Embedding.

(* ===================================================================== *)
(** ** Objects *)
(* ===================================================================== *)

Section Objects.

Lemma obj_get_set_eq key v o : JS.get key (JS.set key v o) = v.
Proof.
  induction o as [|[k w] r IH]; simpl.
  - by rewrite String.eqb_refl.
  - destruct (String.eqb k key) eqn:E; simpl; rewrite E; [done | apply IH].
Qed.

Lemma obj_get_set_ne key key' v o :
  key' <> key -> JS.get key (JS.set key' v o) = JS.get key o.
Proof.
  intros Hne. induction o as [|[k w] r IH]; simpl.
  - by apply String.eqb_neq in Hne as ->.
  - destruct (String.eqb k key') eqn:E; simpl.
    + apply String.eqb_eq in E as ->. by apply String.eqb_neq in Hne as ->.
    + by rewrite IH.
Qed.

(** Building an object key by key with converted names: a name that only
    its own key converts to keeps its value. *)
Lemma obj_get_converted (convert : string * JS.Value -> string) key (o : JS.Obj) :
  NoDup o.*1 ->
  (forall kv, kv ∈ o -> convert kv = key <-> kv.1 = key) ->
  forall acc,
    JS.get key (fold_left (fun newObj kv => JS.set (convert kv) kv.2 newObj) o acc)
    = if bool_decide (key ∈ o.*1) then JS.get key o else JS.get key acc.
Proof.
  induction o as [|[k v] r IH]; intros Hnd Hconv acc; [done|].
  rewrite fmap_cons in *. apply NoDup_cons in Hnd as [Hk Hnd].
  cbn [fold_left JS.get fst snd] in *.
  rewrite IH; [|done|intros kv Hkv; apply Hconv; by right].
  destruct (String.eqb_spec k key) as [->|Hne].
  - rewrite (bool_decide_eq_false_2 _ Hk),
      (bool_decide_eq_true_2 (key ∈ key :: r.*1)) by left.
    replace (convert (key, v)) with key
      by (symmetry; apply (Hconv (key, v)); [left|done]).
    apply obj_get_set_eq.
  - assert (convert (k, v) <> key) by (rewrite (Hconv (k, v)); [done|left]).
    destruct (decide (key ∈ r.*1)) as [Hin|Hout].
    + rewrite !bool_decide_eq_true_2; [done| by right | done].
    + rewrite !bool_decide_eq_false_2; [by rewrite obj_get_set_ne| |done].
      intros [?|?]%elem_of_cons; congruence.
Qed.

Lemma fold_left_pointwise {S T} (f g : S -> T -> S) (l : list T) :
  (forall acc x, f acc x = g acc x) ->
  forall acc, fold_left f l acc = fold_left g l acc.
Proof.
  intros Hfg. induction l as [|x l IH]; intros acc; [done|].
  cbn [fold_left]. by rewrite Hfg, IH.
Qed.

Lemma obj_get_absent key (o : JS.Obj) : key ∉ o.*1 -> JS.get key o = JS.VUndefined.
Proof.
  induction o as [|[k v] r IH]; [done|].
  rewrite fmap_cons. cbn [JS.get fst].
  intros Hout. apply not_elem_of_cons in Hout as [Hne Hout].
  destruct (String.eqb_spec k key); [congruence | by apply IH].
Qed.

End Objects.


(* ===================================================================== *)
(** ** Which backend a method touches *)
(* ===================================================================== *)

Lemma bind_run {A B} (m : M A) (f : A -> M B) (w : World) :
  (m ≫= f) w = f (m w).1 (m w).2.
Proof. unfold mbind, M_bind. by destruct (m w). Qed.

Lemma ret_run {A} (a : A) (w : World) : (mret a : M A) w = (a, w).
Proof. reflexivity. Qed.


Section Frames.

Context {A B : Type}.

Lemma keepsIndex_ret (a : A) : keepsIndex (mret a).
Proof. by intros w. Qed.

Lemma keepsIndex_bind (m : M A) (f : A -> M B) :
  keepsIndex m -> (forall a, keepsIndex (f a)) -> keepsIndex (m ≫= f).
Proof. intros Hm Hf w. by rewrite bind_run, Hf, Hm. Qed.

Lemma keepsIndex_now : keepsIndex now.
Proof. intros w. unfold now. by destruct (clock w). Qed.

Lemma keepsIndex_storeCall req (serve : Store -> Reply A * gmap string JS.Obj) :
  keepsIndex (storeCall req serve).
Proof.
  intros w. unfold storeCall.
  destruct (storeFaults (store w)) as [|[] ?]; try destruct (serve _); done.
Qed.

Lemma keepsStore_ret (a : A) : keepsStore (mret a).
Proof. by intros w. Qed.

Lemma keepsStore_bind (m : M A) (f : A -> M B) :
  keepsStore m -> (forall a, keepsStore (f a)) -> keepsStore (m ≫= f).
Proof. intros Hm Hf w. by rewrite bind_run, Hf, Hm. Qed.

Lemma keepsStore_processEnv : keepsStore processEnv.
Proof. by intros w. Qed.

Lemma keepsStore_indexCall req (serve : Index -> Reply A * gmap string VectorData) :
  keepsStore (indexCall req serve).
Proof.
  intros w. unfold indexCall.
  destruct (indexFaults (index w)) as [|[] ?]; try destruct (serve _); done.
Qed.

End Frames.

(** Take a method apart along its binds and case distinctions. *)
Ltac frame :=
  repeat first
    [ assumption
    | apply keepsIndex_ret | apply keepsIndex_now | apply keepsIndex_storeCall
    | apply keepsStore_ret | apply keepsStore_processEnv | apply keepsStore_indexCall
    | apply keepsIndex_bind | apply keepsStore_bind
    | match goal with
      | |- forall _, _ => intros ?
      | |- keepsIndex (match ?x with _ => _ end) => destruct x
      | |- keepsStore (match ?x with _ => _ end) => destruct x
      | |- keepsIndex (if ?x then _ else _) => destruct x
      | |- keepsStore (if ?x then _ else _) => destruct x
      end ].

Section AdapterFrames.

Lemma supabase_create_keepsIndex ap : keepsIndex (SupabaseOperations.createAccessPoint ap).
Proof. unfold SupabaseOperations.createAccessPoint. frame. Qed.

Lemma supabase_update_keepsIndex id updates :
  keepsIndex (SupabaseOperations.updateAccessPoint id updates).
Proof. unfold SupabaseOperations.updateAccessPoint. frame. Qed.

Lemma supabase_get_keepsIndex id : keepsIndex (SupabaseOperations.getAccessPoint id).
Proof. unfold SupabaseOperations.getAccessPoint. frame. Qed.

Lemma supabase_delete_keepsIndex id : keepsIndex (SupabaseOperations.deleteAccessPoint id).
Proof. unfold SupabaseOperations.deleteAccessPoint. frame. Qed.

Lemma supabase_search_keepsIndex query :
  keepsIndex (SupabaseOperations.searchAccessPoints query).
Proof. unfold SupabaseOperations.searchAccessPoints. frame. Qed.

Lemma supabase_stampRows_keepsIndex aps : keepsIndex (SupabaseOperations.stampRows aps).
Proof. induction aps; simpl; frame. Qed.

Lemma supabase_bulkInsert_keepsIndex aps :
  keepsIndex (SupabaseOperations.bulkInsertAccessPoints aps).
Proof.
  unfold SupabaseOperations.bulkInsertAccessPoints.
  apply keepsIndex_bind; [apply supabase_stampRows_keepsIndex|]. frame.
Qed.

Lemma pinecone_upsert_keepsStore ap : keepsStore (PineconeOperations.upsertAccessPoint ap).
Proof. unfold PineconeOperations.upsertAccessPoint. frame. Qed.

Lemma pinecone_delete_keepsStore id : keepsStore (PineconeOperations.deleteAccessPoint id).
Proof. unfold PineconeOperations.deleteAccessPoint. frame. Qed.

Lemma pinecone_search_keepsStore query topK :
  keepsStore (PineconeOperations.searchSimilar query topK).
Proof. unfold PineconeOperations.searchSimilar. frame. Qed.

Lemma pinecone_upsertChunks_keepsStore vs starts :
  keepsStore (PineconeOperations.upsertChunks vs starts).
Proof.
  induction starts as [|i later IH]; simpl; frame.
Qed.

Lemma pinecone_bulkUpsert_keepsStore aps :
  keepsStore (PineconeOperations.bulkUpsertAccessPoints aps).
Proof.
  unfold PineconeOperations.bulkUpsertAccessPoints.
  apply keepsStore_bind; [frame|]. intros key.
  destruct (PineconeOperations.buildVectors key aps); [frame|].
  apply keepsStore_bind; [apply pinecone_upsertChunks_keepsStore | frame].
Qed.

End AdapterFrames.

(* ===================================================================== *)
(** ** What an adapter call does to its backend *)
(* ===================================================================== *)


Section Calls.

Lemma now_keepsStore : keepsStore now.
Proof. intros w. unfold now. by destruct (clock w). Qed.

Lemma storeCall_log {A} req (serve : Store -> Reply A * gmap string JS.Obj) w :
  storeLog (store (storeCall req serve w).2) = (storeLog (store w) ++ [req])%list.
Proof.
  unfold storeCall.
  destruct (storeFaults (store w)) as [|[] ?]; try destruct (serve _); done.
Qed.

Lemma storeCall_served {A} req (serve : Store -> Reply A * gmap string JS.Obj) w :
  served (storeFaults (store w)) ->
  (storeCall req serve w).1 = (serve (store w)).1
  /\ table (store (storeCall req serve w).2) = (serve (store w)).2
  /\ storeFaults (store (storeCall req serve w).2) = tail (storeFaults (store w)).
Proof.
  unfold storeCall.
  destruct (storeFaults (store w)) as [|[] ?]; try destruct (serve _); done.
Qed.

Lemma storeCall_refused {A} req (serve : Store -> Reply A * gmap string JS.Obj) w :
  ~ served (storeFaults (store w)) ->
  table (store (storeCall req serve w).2) = table (store w)
  /\ ((exists code msg, (storeCall req serve w).1 = Err code msg)
      \/ (exists msg, (storeCall req serve w).1 = Exn msg)).
Proof.
  unfold storeCall.
  destruct (storeFaults (store w)) as [|[] ?]; simpl; try done; eauto.
Qed.

Lemma indexCall_log {A} req (serve : Index -> Reply A * gmap string VectorData) w :
  indexLog (index (indexCall req serve w).2) = (indexLog (index w) ++ [req])%list.
Proof.
  unfold indexCall.
  destruct (indexFaults (index w)) as [|[] ?]; try destruct (serve _); done.
Qed.

Lemma indexCall_served {A} req (serve : Index -> Reply A * gmap string VectorData) w :
  served (indexFaults (index w)) ->
  (indexCall req serve w).1 = (serve (index w)).1
  /\ vectors (index (indexCall req serve w).2) = (serve (index w)).2.
Proof.
  unfold indexCall.
  destruct (indexFaults (index w)) as [|[] ?]; try destruct (serve _); done.
Qed.

(** A request to the index is answered from the index alone. *)
Lemma indexCall_local {A} req (serve : Index -> Reply A * gmap string VectorData) w1 w2 :
  index w1 = index w2 ->
  (indexCall req serve w1).1 = (indexCall req serve w2).1
  /\ index (indexCall req serve w1).2 = index (indexCall req serve w2).2.
Proof.
  unfold indexCall. intros ->.
  destruct (indexFaults (index w2)) as [|[] ?]; try destruct (serve _); done.
Qed.

End Calls.

Section StoreAdapter.

Import SupabaseOperations.

Lemma delete_run id w :
  deleteAccessPoint id w =
    let call := storeCall (StoreDelete id) (Postgres.delete (eqId id)) w in
    (match call.1 with
     | Data _ => succeed
     | Err _ msg | Exn msg => failWith ("Failed to delete access point: " ++ msg)
     end, call.2).
Proof.
  unfold deleteAccessPoint. rewrite bind_run.
  by destruct (storeCall _ _ w).1.
Qed.

Lemma delete_log id w :
  storeLog (store (deleteAccessPoint id w).2)
  = (storeLog (store w) ++ [StoreDelete id])%list.
Proof. rewrite delete_run. apply storeCall_log. Qed.

(** A delete that reports success has removed the row, if there was one. *)
Lemma delete_success id w :
  success (deleteAccessPoint id w).1 = true ->
  (deleteAccessPoint id w).1 = succeed
  /\ table (store (deleteAccessPoint id w).2) = delete (eqId id) (table (store w)).
Proof.
  rewrite delete_run. cbn zeta.
  destruct (decide (served (storeFaults (store w)))) as [Hs|Hs].
  - destruct (storeCall_served (StoreDelete id) (Postgres.delete (eqId id)) w Hs)
      as (Hr & Ht & _).
    cbn [fst snd]. rewrite Hr, Ht. done.
  - destruct (storeCall_refused (StoreDelete id) (Postgres.delete (eqId id)) w Hs)
      as (_ & [(c & m & Hr) | (m & Hr)]); cbn [fst snd]; rewrite Hr; done.
Qed.

(** Whether or not a row has the id, a delete that reaches the database
    reports success. *)
Lemma delete_served id w :
  served (storeFaults (store w)) -> (deleteAccessPoint id w).1 = succeed.
Proof.
  intros Hs. rewrite delete_run. cbn zeta. cbn [fst].
  by destruct (storeCall_served (StoreDelete id) (Postgres.delete (eqId id)) w Hs)
    as (-> & _).
Qed.

Lemma get_run id w :
  getAccessPoint id w =
    let call := storeCall (StoreSelect id)
                  (fun s => Postgres.single (Postgres.select (eqId id) s)) w in
    (match call.1 with
     | Data row => succeedWith (toCamelCase row)
     | Err code msg =>
         if String.eqb code "PGRST116" then failWith (notFound id)
         else failWith ("Failed to get access point: " ++ msg)
     | Exn msg => failWith ("Failed to get access point: " ++ msg)
     end, call.2).
Proof.
  unfold getAccessPoint. rewrite bind_run.
  destruct (storeCall _ _ w).1 as [|code ?|]; try done.
  by destruct (String.eqb code "PGRST116").
Qed.

(** Reading an id no row has never succeeds; when the database answers,
    the result is the not-found failure. *)
Lemma get_absent id w :
  table (store w) !! eqId id = None ->
  success (getAccessPoint id w).1 = false
  /\ (served (storeFaults (store w)) ->
        (getAccessPoint id w).1 = failWith (notFound id)).
Proof.
  intros Hnone. rewrite get_run. cbn zeta. cbn [fst].
  destruct (decide (served (storeFaults (store w)))) as [Hs|Hs].
  - destruct (storeCall_served (StoreSelect id)
                (fun s => Postgres.single (Postgres.select (eqId id) s)) w Hs)
      as (-> & _).
    unfold Postgres.select. rewrite Hnone. done.
  - split; [|done].
    destruct (storeCall_refused (StoreSelect id)
                (fun s => Postgres.single (Postgres.select (eqId id) s)) w Hs)
      as (_ & [(c & m & ->) | (m & ->)]); [|done].
    by destruct (String.eqb c "PGRST116").
Qed.

(** Reading an id some row has, when the database answers, gives that row
    under camelCase names and changes nothing but the log. *)
Lemma get_present id w row :
  table (store w) !! eqId id = Some row ->
  served (storeFaults (store w)) ->
  (getAccessPoint id w).1 = succeedWith (toCamelCase row).
Proof.
  intros Hrow Hs. rewrite get_run. cbn zeta. cbn [fst].
  destruct (storeCall_served (StoreSelect id)
              (fun s => Postgres.single (Postgres.select (eqId id) s)) w Hs)
    as (-> & _).
  unfold Postgres.select. by rewrite Hrow.
Qed.

Lemma get_table id w :
  table (store (getAccessPoint id w).2) = table (store w).
Proof.
  rewrite get_run. cbn zeta. cbn [snd].
  destruct (decide (served (storeFaults (store w)))) as [Hs|Hs].
  - destruct (storeCall_served (StoreSelect id)
                (fun s => Postgres.single (Postgres.select (eqId id) s)) w Hs)
      as (_ & -> & _).
    unfold Postgres.select, Postgres.single.
    by destruct (option_list _) as [|? []].
  - by destruct (storeCall_refused (StoreSelect id)
                (fun s => Postgres.single (Postgres.select (eqId id) s)) w Hs)
      as (-> & _).
Qed.

End StoreAdapter.

Section StoreWrites.

Import SupabaseOperations.


Lemma stamped_id accessPoint created_at updated_at :
  JS.get "id" (stamped accessPoint created_at updated_at)
  = JS.get "id" (toSnakeCase (Some accessPoint)).
Proof.
  unfold stamped, JS.spread. cbn [fold_left fst snd].
  rewrite !obj_get_set_ne; [done | by intros [=] ..].
Qed.

Lemma create_run accessPoint w :
  createAccessPoint accessPoint w =
    let created_at := now w in
    let updated_at := now created_at.2 in
    let row := stamped accessPoint created_at.1 updated_at.1 in
    let call := storeCall (StoreInsert row)
                  (fun s => Postgres.single (Postgres.insert row s)) updated_at.2 in
    (match call.1 with
     | Data row => succeedWith (toCamelCase row)
     | Err _ msg | Exn msg => failWith ("Failed to create access point: " ++ msg)
     end, call.2).
Proof.
  unfold createAccessPoint. rewrite !bind_run. cbn zeta.
  fold (stamped accessPoint (now w).1 (now (now w).2).1).
  by destruct (storeCall _ _ _).1.
Qed.

(** A create that reports success has added one row under an id that was
    free, the id the record carries in its [id] column. *)
Lemma create_success accessPoint w :
  success (createAccessPoint accessPoint w).1 = true ->
  exists k row,
    JS.get "id" (toSnakeCase (Some accessPoint)) = JS.VStr k
    /\ table (store w) !! k = None
    /\ table (store (createAccessPoint accessPoint w).2) = <[k := row]> (table (store w))
    /\ (createAccessPoint accessPoint w).1 = succeedWith (toCamelCase row).
Proof.
  rewrite create_run. cbn zeta. cbn [fst snd].
  set (row := stamped _ _ _).
  set (w2 := (now (now w).2).2).
  assert (Hstore : store w2 = store w) by (unfold w2; by rewrite !now_keepsStore).
  destruct (decide (served (storeFaults (store w2)))) as [Hs|Hs].
  - destruct (storeCall_served (StoreInsert row)
                (fun s => Postgres.single (Postgres.insert row s)) w2 Hs)
      as (-> & -> & _).
    unfold Postgres.insert. rewrite Hstore.
    rewrite <- (stamped_id accessPoint (now w).1 (now (now w).2).1). fold row.
    destruct (JS.get "id" row) as [| | |k|]; try done.
    destruct (table (store w) !! k) eqn:Hk; [done|].
    intros _. exists k, row. done.
  - destruct (storeCall_refused (StoreInsert row)
                (fun s => Postgres.single (Postgres.insert row s)) w2 Hs)
      as (_ & [(c & m & ->) | (m & ->)]); done.
Qed.

Lemma update_run id updates w :
  updateAccessPoint id updates w =
    let updated_at := now w in
    let columns := stampedUpdate updates updated_at.1 in
    let call := storeCall (StoreUpdate id columns)
                  (fun s => Postgres.single (Postgres.update (eqId id) columns s))
                  updated_at.2 in
    (match call.1 with
     | Data row => succeedWith (toCamelCase row)
     | Err _ msg | Exn msg => failWith ("Failed to update access point: " ++ msg)
     end, call.2).
Proof.
  unfold updateAccessPoint. rewrite !bind_run. cbn zeta.
  fold (stampedUpdate updates (now w).1).
  by destruct (storeCall _ _ _).1.
Qed.

(** An update that reports success found a row with the id, and returns
    that row with the supplied columns written over it; the store now
    holds the merged row. *)
Lemma update_success id updates w :
  success (updateAccessPoint id updates w).1 = true ->
  exists old k,
    table (store w) !! eqId id = Some old
    /\ let merged := JS.spread old (stampedUpdate updates (now w).1) in
       (updateAccessPoint id updates w).1 = succeedWith (toCamelCase merged)
       /\ JS.get "id" merged = JS.VStr k
       /\ table (store (updateAccessPoint id updates w).2) !! k = Some merged.
Proof.
  rewrite update_run. cbn zeta. cbn [fst snd].
  set (columns := stampedUpdate _ _).
  set (w1 := (now w).2).
  assert (Hstore : store w1 = store w) by (unfold w1; by rewrite now_keepsStore).
  destruct (decide (served (storeFaults (store w1)))) as [Hs|Hs].
  - destruct (storeCall_served (StoreUpdate id columns)
                (fun s => Postgres.single (Postgres.update (eqId id) columns s)) w1 Hs)
      as (-> & -> & _).
    unfold Postgres.update. rewrite Hstore.
    destruct (table (store w) !! eqId id) as [old|] eqn:Hold; [|done].
    destruct (JS.get "id" (JS.spread old columns)) as [| | |k|] eqn:Hid; try done.
    destruct (decide (k = eqId id)) as [->|Hne].
    + intros _. exists old, (eqId id). cbn. rewrite lookup_insert_eq. done.
    + destruct (table (store w) !! k); [done|].
      intros _. exists old, k. cbn. rewrite lookup_insert_eq. done.
  - destruct (storeCall_refused (StoreUpdate id columns)
                (fun s => Postgres.single (Postgres.update (eqId id) columns s)) w1 Hs)
      as (_ & [(c & m & ->) | (m & ->)]); done.
Qed.


(** For a record that conforms to the interface, the [id] column of the
    row sent to the store is the record's [id]. *)
Lemma fields_keep_id : forallb keepsIdKey accessPointFields = true.
Proof. by vm_compute. Qed.

Lemma toSnakeCase_id accessPoint :
  conforms accessPoint ->
  JS.get "id" (toSnakeCase (Some accessPoint)) = JS.get "id" accessPoint.
Proof.
  intros [Hnd Hfields]. unfold toSnakeCase.
  set (convert := fun kv : string * JS.Value =>
         match kv.2 with
         | JS.VNull | JS.VUndefined => JS.toLowerCase kv.1
         | _ => snakeKey kv.1
         end).
  rewrite (fold_left_pointwise _ (fun newObj kv => JS.set (convert kv) kv.2 newObj)).
  2: { intros acc [k v]. unfold convert. by destruct v. }
  rewrite obj_get_converted; [|done|].
  - case_bool_decide as Hin; [done|]. symmetry. by apply obj_get_absent.
  - intros [k v] Hkv.
    assert (Hk : k ∈ accessPointFields).
    { rewrite Forall_forall in Hfields. apply Hfields.
      apply list_elem_of_fmap. by exists (k, v). }
    pose proof fields_keep_id as Hall. rewrite forallb_forall in Hall.
    apply list_elem_of_In, Hall in Hk. unfold keepsIdKey in Hk.
    apply andb_true_iff in Hk as [H1 H2].
    apply Bool.eqb_prop in H1, H2. cbn [fst].
    rewrite <- (String.eqb_eq k "id"), <- (String.eqb_eq (convert (k, v)) "id").
    unfold convert. cbn [fst snd]. destruct v; by rewrite ?H1, ?H2.
Qed.

End StoreWrites.

Section IndexAdapter.

Import PineconeOperations.

Lemma index_delete_run id w :
  deleteAccessPoint id w =
    let call := indexCall (IndexDelete id) (PineconeService.deleteOne id) w in
    (match call.1 with
     | Data _ => succeed
     | Err _ msg | Exn msg => failWith ("Failed to delete from Pinecone: " ++ msg)
     end, call.2).
Proof.
  unfold deleteAccessPoint. rewrite bind_run. by destruct (indexCall _ _ w).1.
Qed.

Lemma index_delete_log id w :
  indexLog (index (deleteAccessPoint id w).2)
  = (indexLog (index w) ++ [IndexDelete id])%list.
Proof. rewrite index_delete_run. apply indexCall_log. Qed.

(** The index answers a delete from its own state alone. *)
Lemma index_delete_local id w1 w2 :
  index w1 = index w2 ->
  (deleteAccessPoint id w1).1 = (deleteAccessPoint id w2).1
  /\ index (deleteAccessPoint id w1).2 = index (deleteAccessPoint id w2).2.
Proof.
  intros Hi. rewrite !index_delete_run. cbn zeta. cbn [fst snd].
  destruct (indexCall_local (IndexDelete id) (PineconeService.deleteOne id) w1 w2 Hi)
    as [-> ->]. done.
Qed.

(** Removing an id the index does not hold is no error. *)
Lemma index_delete_served k w :
  served (indexFaults (index w)) ->
  (deleteAccessPoint (JS.VStr k) w).1 = succeed.
Proof.
  intros Hs. rewrite index_delete_run. cbn zeta. cbn [fst].
  by destruct (indexCall_served (IndexDelete (JS.VStr k))
                 (PineconeService.deleteOne (JS.VStr k)) w Hs) as (-> & _).
Qed.

Lemma upsert_run accessPoint w :
  upsertAccessPoint accessPoint w =
    match generateEmbedding (openaiKey w) accessPoint with
    | JS.Throw msg => (failWith ("Failed to upsert to Pinecone: " ++ msg), w)
    | JS.Ok embedding =>
        let vectorData := vectorDataOf accessPoint embedding in
        let call := indexCall (IndexUpsert [vectorData])
                      (PineconeService.upsert [vectorData]) w in
        (match call.1 with
         | Data _ => succeed
         | Err _ msg | Exn msg => failWith ("Failed to upsert to Pinecone: " ++ msg)
         end, call.2)
    end.
Proof.
  unfold upsertAccessPoint. rewrite bind_run. cbn [processEnv fst snd].
  destruct (generateEmbedding _ _); [done|]. rewrite bind_run.
  by destruct (indexCall _ _ w).1.
Qed.

End IndexAdapter.

(* ===================================================================== *)
(** ** The coordinator: create, update, delete *)
(* ===================================================================== *)

Section Coordinator.

Lemma manager_create_run accessPoint w :
  DataSyncManager.createAccessPoint accessPoint w =
    let created := SupabaseOperations.createAccessPoint accessPoint w in
    if success created.1 then
      let indexed := PineconeOperations.upsertAccessPoint accessPoint created.2 in
      if success indexed.1 then (created.1, indexed.2)
      else (failWith "Failed to sync to Pinecone, rolled back Supabase",
            (SupabaseOperations.deleteAccessPoint (JS.get "id" accessPoint) indexed.2).2)
    else created.
Proof.
  unfold DataSyncManager.createAccessPoint. rewrite bind_run. cbn zeta.
  destruct (SupabaseOperations.createAccessPoint accessPoint w) as [r1 w1].
  cbn [fst snd]. destruct (success r1); cbn [negb]; [|done].
  rewrite bind_run.
  destruct (PineconeOperations.upsertAccessPoint accessPoint w1) as [r2 w2].
  cbn [fst snd]. destruct (success r2); cbn [negb]; [done|].
  by rewrite bind_run.
Qed.

(** C1: create.  If the store write fails, the coordinator returns that
    failure and the index is left as it was, no request sent to it.  If
    the store write succeeds and the index upsert fails, the coordinator
    sends the store a delete for the record's id and returns a failure;
    when that delete succeeds, reading the id from the store afterwards
    never succeeds and gives the not-found failure whenever the store
    answers, and for a record that conforms to the interface the table is
    back to what it was before the create. *)
Theorem create_compensates_index_failure (accessPoint : AccessPoint) (w : World) :
  let id := JS.get "id" accessPoint in
  let created := SupabaseOperations.createAccessPoint accessPoint w in
  let indexed := PineconeOperations.upsertAccessPoint accessPoint created.2 in
  let undone := SupabaseOperations.deleteAccessPoint id indexed.2 in
  let final := DataSyncManager.createAccessPoint accessPoint w in
  (success created.1 = false -> final = created /\ index final.2 = index w)
  /\ (success created.1 = true -> success indexed.1 = false ->
        final = (failWith "Failed to sync to Pinecone, rolled back Supabase", undone.2)
        /\ storeLog (store final.2) = (storeLog (store created.2) ++ [StoreDelete id])%list
        /\ (success undone.1 = true ->
              (conforms accessPoint -> table (store final.2) = table (store w))
              /\ forall later, table (store later) = table (store final.2) ->
                   success (DataSyncManager.getAccessPoint id later).1 = false
                   /\ (served (storeFaults (store later)) ->
                         (DataSyncManager.getAccessPoint id later).1
                         = failWith (SupabaseOperations.notFound id)))).
Proof.
  cbn zeta. rewrite manager_create_run. cbn zeta. split.
  - intros Hfail. rewrite Hfail. split; [done|]. apply supabase_create_keepsIndex.
  - intros Hok Hidx. rewrite Hok, Hidx. split; [done|]. cbn [snd].
    set (w1 := (SupabaseOperations.createAccessPoint accessPoint w).2) in *.
    set (w2 := (PineconeOperations.upsertAccessPoint accessPoint w1).2) in *.
    assert (Hstore : store w2 = store w1) by apply pinecone_upsert_keepsStore.
    split; [by rewrite delete_log, Hstore|].
    intros Hdel. apply delete_success in Hdel as [_ Htable].
    rewrite Htable, Hstore. split.
    + intros Hconf.
      destruct (create_success accessPoint w Hok) as (k & row & Hid & Hfree & Hnew & _).
      fold w1 in Hnew. rewrite Hnew.
      rewrite toSnakeCase_id in Hid by done.
      unfold SupabaseOperations.eqId. rewrite Hid. cbn [JS.toStr].
      by apply delete_insert_id.
    + intros later Hlater. unfold DataSyncManager.getAccessPoint.
      apply get_absent. rewrite Hlater. apply lookup_delete_eq.
Qed.

Lemma create_compensates_index_failure_witness :
  (let w := troubled [Thrown "connection reset"] [] in
   let final := DataSyncManager.createAccessPoint demoPoint w in
   final = SupabaseOperations.createAccessPoint demoPoint w
   /\ index final.2 = index w)
  /\ (let w := troubled [] [Thrown "index unavailable"] in
      let final := DataSyncManager.createAccessPoint demoPoint w in
      table (store final.2) = table (store w)
      /\ (DataSyncManager.getAccessPoint (JS.VStr "x1") final.2).1
         = failWith "Access point with id x1 not found.").
Proof.
  split.
  - apply (create_compensates_index_failure demoPoint
             (troubled [Thrown "connection reset"] [])).
    reflexivity.
  - destruct (create_compensates_index_failure demoPoint
                (troubled [] [Thrown "index unavailable"])) as [_ H].
    destruct H as (_ & _ & H); [reflexivity | reflexivity |].
    destruct H as [Htable Hget]; [reflexivity|].
    split.
    + apply Htable. apply (bool_decide_unpack (conforms demoPoint)). by vm_compute.
    + apply (Hget (DataSyncManager.createAccessPoint demoPoint
                     (troubled [] [Thrown "index unavailable"])).2);
        [reflexivity | exact I].
Defined.

(** C1 as the specification words it fails when the compensating delete
    is refused.  The store serves the insert and then loses the connection;
    the index refuses the upsert.  The coordinator answers that it rolled
    the store back, and a read of the id that the store then answers still
    finds the row. *)
Lemma create_rollback_can_leave_the_row :
  let w := troubled [Served; Thrown "connection reset"] [Thrown "index unavailable"] in
  let created := SupabaseOperations.createAccessPoint demoPoint w in
  let indexed := PineconeOperations.upsertAccessPoint demoPoint created.2 in
  let final := DataSyncManager.createAccessPoint demoPoint w in
  let read := DataSyncManager.getAccessPoint (JS.VStr "x1") final.2 in
  success created.1 = true
  /\ success indexed.1 = false
  /\ final.1 = failWith "Failed to sync to Pinecone, rolled back Supabase"
  /\ storeFaults (store final.2) = []
  /\ success read.1 = true
  /\ read.1 <> failWith (SupabaseOperations.notFound (JS.VStr "x1")).
Proof.
  cbn zeta.
  assert (Hread : success (DataSyncManager.getAccessPoint (JS.VStr "x1")
                    (DataSyncManager.createAccessPoint demoPoint
                       (troubled [Served; Thrown "connection reset"]
                                 [Thrown "index unavailable"])).2).1 = true)
    by (vm_compute; reflexivity).
  split; [vm_compute; reflexivity|]. split; [vm_compute; reflexivity|].
  split; [vm_compute; reflexivity|]. split; [vm_compute; reflexivity|].
  split; [exact Hread|].
  intros Hnone. rewrite Hnone in Hread. discriminate Hread.
Qed.

End Coordinator.

Section CoordinatorDelete.

Lemma manager_delete_run id w :
  DataSyncManager.deleteAccessPoint id w =
    let stored := SupabaseOperations.deleteAccessPoint id w in
    let indexed := PineconeOperations.deleteAccessPoint id stored.2 in
    (if success stored.1 || success indexed.1 then succeed
     else failWith "Failed to delete from both databases", indexed.2).
Proof.
  unfold DataSyncManager.deleteAccessPoint, DataSyncManager.allSettled.
  rewrite !bind_run. cbn zeta.
  destruct (SupabaseOperations.deleteAccessPoint id w) as [r1 w1]. cbn [fst snd].
  destruct (PineconeOperations.deleteAccessPoint id w1) as [r2 w2]. cbn [fst snd].
  unfold DataSyncManager.fulfilledSuccess, mret, M_ret. cbn [fst snd].
  by destruct (success r1), (success r2).
Qed.

(** A request to the store and a request to the index do not see each
    other: sent in either order they get the same answers and leave the
    same world. *)
Lemma calls_commute {A B} req (serve : Store -> Reply A * gmap string JS.Obj)
    req' (serve' : Index -> Reply B * gmap string VectorData) w :
  let a := storeCall req serve w in
  let b := indexCall req' serve' a.2 in
  let b' := indexCall req' serve' w in
  let a' := storeCall req serve b'.2 in
  a.1 = a'.1 /\ b.1 = b'.1 /\ b.2 = a'.2.
Proof.
  destruct w as [s i c key]. unfold storeCall, indexCall.
  cbn [store index].
  destruct (serve s) as [r t] eqn:Es, (serve' i) as [r' v] eqn:Ei.
  destruct (storeFaults s) as [|[] ?] eqn:Fs, (indexFaults i) as [|[] ?] eqn:Fi;
    cbn; rewrite ?Fs, ?Fi, ?Es, ?Ei; cbn; rewrite ?Fs, ?Fi, ?Es, ?Ei; done.
Qed.

Lemma delete_order_irrelevant id w :
  let stored := SupabaseOperations.deleteAccessPoint id w in
  let indexed := PineconeOperations.deleteAccessPoint id stored.2 in
  let indexed' := PineconeOperations.deleteAccessPoint id w in
  let stored' := SupabaseOperations.deleteAccessPoint id indexed'.2 in
  stored.1 = stored'.1 /\ indexed.1 = indexed'.1 /\ indexed.2 = stored'.2.
Proof.
  cbn zeta. rewrite !delete_run, !index_delete_run. cbn zeta. cbn [fst snd].
  destruct (calls_commute (StoreDelete id) (Postgres.delete (SupabaseOperations.eqId id))
              (IndexDelete id) (PineconeService.deleteOne id) w) as (-> & -> & ->).
  done.
Qed.

(** The coordinator's answer in terms of the two adapters' answers, each
    adapter run from the same starting world. *)
Lemma delete_answer id w :
  let stored := SupabaseOperations.deleteAccessPoint id w in
  let indexed := PineconeOperations.deleteAccessPoint id w in
  let final := DataSyncManager.deleteAccessPoint id w in
  (store final.2 = store stored.2 /\ index final.2 = index indexed.2)
  /\ final.1 = if success stored.1 || success indexed.1 then succeed
               else failWith "Failed to delete from both databases".
Proof.
  cbn zeta. rewrite manager_delete_run. cbn zeta. cbn [fst snd].
  set (stored := SupabaseOperations.deleteAccessPoint id w).
  assert (Hidx : index stored.2 = index w) by apply supabase_delete_keepsIndex.
  destruct (index_delete_local id stored.2 w Hidx) as [Hr Hi].
  by rewrite Hr, Hi, pinecone_delete_keepsStore.
Qed.

(** C3: delete.  Both deletions are sent, each to its own backend and
    neither depending on the other's outcome; the coordinator reports
    failure exactly when the store delete and the index delete both
    fail, and success when at least one of them succeeds. *)
Theorem delete_fails_exactly_when_both_fail (id : JS.Value) (w : World) :
  let stored := SupabaseOperations.deleteAccessPoint id w in
  let indexed := PineconeOperations.deleteAccessPoint id w in
  let final := DataSyncManager.deleteAccessPoint id w in
  store final.2 = store stored.2
  /\ index final.2 = index indexed.2
  /\ storeLog (store final.2) = (storeLog (store w) ++ [StoreDelete id])%list
  /\ indexLog (index final.2) = (indexLog (index w) ++ [IndexDelete id])%list
  /\ (success final.1 = false <-> success stored.1 = false /\ success indexed.1 = false)
  /\ (success final.1 = true <-> success stored.1 = true \/ success indexed.1 = true)
  /\ final.1 = if success stored.1 || success indexed.1 then succeed
               else failWith "Failed to delete from both databases".
Proof.
  cbn zeta.
  destruct (delete_answer id w) as [[Hs Hi] Hr].
  rewrite Hs, Hi, Hr.
  split; [done|]. split; [done|].
  split; [apply delete_log|]. split; [apply index_delete_log|].
  destruct (success (SupabaseOperations.deleteAccessPoint id w).1),
           (success (PineconeOperations.deleteAccessPoint id w).1);
    cbn; intuition congruence.
Qed.

(** C10: delete of an id that was never created.  Neither adapter treats
    the absence as a failure: the store adapter and the index adapter both
    report success when their backend answers.  Whenever the index-side
    delete succeeds, the coordinator's answer is the bare success
    envelope, the same for an absent id as for one that is present. *)
Theorem delete_of_absent_id_reports_success (id : JS.Value) (w : World) :
  table (store w) !! SupabaseOperations.eqId id = None ->
  (served (storeFaults (store w)) ->
     (SupabaseOperations.deleteAccessPoint id w).1 = succeed
     /\ table (store (SupabaseOperations.deleteAccessPoint id w).2) = table (store w))
  /\ (forall k, id = JS.VStr k -> vectors (index w) !! k = None ->
        served (indexFaults (index w)) ->
        (PineconeOperations.deleteAccessPoint id w).1 = succeed)
  /\ (success (PineconeOperations.deleteAccessPoint id w).1 = true ->
        (DataSyncManager.deleteAccessPoint id w).1 = succeed
        /\ forall w', success (PineconeOperations.deleteAccessPoint id w').1 = true ->
             (DataSyncManager.deleteAccessPoint id w').1
             = (DataSyncManager.deleteAccessPoint id w).1).
Proof.
  intros Habsent. split; [|split].
  - intros Hs. split; [by apply delete_served|].
    assert (Hok : success (SupabaseOperations.deleteAccessPoint id w).1 = true)
      by (by rewrite delete_served).
    apply delete_success in Hok as [_ ->]. by apply delete_id.
  - intros k -> _ Hs. by apply index_delete_served.
  - assert (Hany : forall w', success (PineconeOperations.deleteAccessPoint id w').1 = true ->
              (DataSyncManager.deleteAccessPoint id w').1 = succeed).
    { intros w' Hok.
      destruct (delete_answer id w') as [_ ->].
      rewrite Hok. by rewrite orb_true_r. }
    intros Hok. split; [by apply Hany|].
    intros w' Hok'. by rewrite !Hany.
Qed.


Lemma delete_of_absent_id_reports_success_witness :
  let id := JS.VStr "never-created" in
  (SupabaseOperations.deleteAccessPoint id quietWorld).1 = succeed
  /\ (PineconeOperations.deleteAccessPoint id quietWorld).1 = succeed
  /\ (DataSyncManager.deleteAccessPoint id quietWorld).1 = succeed.
Proof.
  destruct (delete_of_absent_id_reports_success (JS.VStr "never-created") quietWorld)
    as (Hstore & Hindex & Hboth); [reflexivity|].
  split; [apply Hstore; exact I|].
  split; [apply (Hindex "never-created"); [reflexivity | reflexivity | exact I]|].
  destruct Hboth as [Hanswer _]; [reflexivity | exact Hanswer].
Defined.

End CoordinatorDelete.

Section CoordinatorUpdate.

Lemma manager_update_run id updates w :
  DataSyncManager.updateAccessPoint id updates w =
    let stored := SupabaseOperations.updateAccessPoint id updates w in
    if success stored.1
    then (stored.1, (DataSyncManager.reindex (data stored.1) stored.2).2)
    else stored.
Proof.
  unfold DataSyncManager.updateAccessPoint. rewrite bind_run. cbn zeta.
  destruct (SupabaseOperations.updateAccessPoint id updates w) as [r1 w1].
  cbn [fst snd]. destruct (success r1); cbn [negb]; [|done].
  by rewrite bind_run.
Qed.

(** C4: update.  If the store update fails, the coordinator returns that
    failure and the index is left as it was.  If it succeeds, the store
    has returned the row it now holds, the old row with the supplied
    columns written over it; the coordinator upserts the index with that
    full record, not with the partial input, and returns the store's
    result whether or not the index upsert succeeds, the store keeping
    the new values. *)
Theorem update_reindexes_merged_record (id : JS.Value) (updates : JS.Obj) (w : World) :
  let stored := SupabaseOperations.updateAccessPoint id updates w in
  let final := DataSyncManager.updateAccessPoint id updates w in
  (success stored.1 = false -> final = stored /\ index final.2 = index w)
  /\ (success stored.1 = true ->
        exists old full,
          table (store w) !! SupabaseOperations.eqId id = Some old
          /\ full = SupabaseOperations.toCamelCase
                      (JS.spread old (stampedUpdate updates (now w).1))
          /\ data stored.1 = Some full
          /\ final = (stored.1, (PineconeOperations.updateAccessPoint full stored.2).2)
          /\ store final.2 = store stored.2
          /\ forall key embedding,
               PineconeOperations.generateEmbedding key full = JS.Ok embedding ->
               indexLog (index final.2)
               = (indexLog (index w)
                  ++ [IndexUpsert [PineconeOperations.vectorDataOf full embedding]])%list).
Proof.
  cbn zeta. rewrite manager_update_run. cbn zeta. split.
  - intros Hfail. rewrite Hfail. split; [done|]. apply supabase_update_keepsIndex.
  - intros Hok. rewrite Hok.
    destruct (update_success id updates w Hok) as (old & k & Hold & Hres & _ & _).
    set (full := SupabaseOperations.toCamelCase _) in Hres.
    exists old, full. rewrite Hres. cbn [data succeedWith DataSyncManager.reindex snd].
    split; [done|]. split; [done|]. split; [done|]. split; [done|].
    set (w1 := (SupabaseOperations.updateAccessPoint id updates w).2).
    split; [apply pinecone_upsert_keepsStore|].
    intros key embedding Hemb.
    unfold PineconeOperations.updateAccessPoint. rewrite upsert_run.
    rewrite (generateEmbedding_env (openaiKey w1) key), Hemb. cbn zeta. cbn [snd].
    rewrite indexCall_log. unfold w1. by rewrite supabase_update_keepsIndex.
Qed.

Lemma update_reindexes_merged_record_witness :
  (let w := quietWorld in
   let updates := [("description", JS.VStr "new")] in
   DataSyncManager.updateAccessPoint (JS.VStr "x1") updates w
   = SupabaseOperations.updateAccessPoint (JS.VStr "x1") updates w)
  /\ (let w := indexDown storedDemo in
      let updates := [("description", JS.VStr "new")] in
      let stored := SupabaseOperations.updateAccessPoint (JS.VStr "x1") updates w in
      let final := DataSyncManager.updateAccessPoint (JS.VStr "x1") updates w in
      exists old full,
        table (store w) !! "x1" = Some old
        /\ full = SupabaseOperations.toCamelCase
                    (JS.spread old (stampedUpdate updates (now w).1))
        /\ data stored.1 = Some full
        /\ final = (stored.1, (PineconeOperations.updateAccessPoint full stored.2).2)
        /\ store final.2 = store stored.2).
Proof.
  split.
  - apply (update_reindexes_merged_record (JS.VStr "x1") [("description", JS.VStr "new")]
             quietWorld). vm_compute. reflexivity.
  - cbn zeta.
    destruct (update_reindexes_merged_record (JS.VStr "x1") [("description", JS.VStr "new")]
                (indexDown storedDemo)) as [_ H].
    destruct H as (old & full & Hold & Hfull & Hdata & Hfinal & Hstore & _);
      [vm_compute; reflexivity|].
    exists old, full. repeat split; assumption.
Defined.

End CoordinatorUpdate.

(* ===================================================================== *)
(** ** The coordinator: bulk sync and search *)
(* ===================================================================== *)

Section CoordinatorBulk.

Lemma manager_bulkSync_run accessPoints w :
  DataSyncManager.bulkSyncAccessPoints accessPoints w =
    let stored := SupabaseOperations.bulkInsertAccessPoints accessPoints w in
    if success stored.1 then
      let first := PineconeOperations.bulkUpsertAccessPoints accessPoints stored.2 in
      if success first.1 then (succeed, first.2)
      else
        let second := PineconeOperations.bulkUpsertAccessPoints accessPoints first.2 in
        (if success second.1 then succeed
         else failWith
           "Failed to sync to Pinecone after retry. Supabase sync was successful.",
         second.2)
    else (failWith ("Failed to bulk sync to Supabase: "
                    ++ default "undefined" (error stored.1)), stored.2).
Proof.
  unfold DataSyncManager.bulkSyncAccessPoints. rewrite bind_run. cbn zeta.
  destruct (SupabaseOperations.bulkInsertAccessPoints accessPoints w) as [r1 w1].
  cbn [fst snd]. destruct (success r1); cbn [negb]; [|done].
  rewrite bind_run.
  destruct (PineconeOperations.bulkUpsertAccessPoints accessPoints w1) as [r2 w2].
  cbn [fst snd]. destruct (success r2); cbn [negb]; [done|].
  rewrite bind_run.
  destruct (PineconeOperations.bulkUpsertAccessPoints accessPoints w2) as [r3 w3].
  cbn [fst snd]. by destruct (success r3).
Qed.

(** C6: bulk sync.  If the store batch write fails, the operation fails and
    the index is left as it was.  If it succeeds and the first bulk upsert
    to the index succeeds, the operation succeeds after that one attempt.
    If the first bulk upsert fails, exactly one more is made, from the
    world the first one left; the operation succeeds if that retry does and
    fails, naming the store as synced, if it does not.  The index attempts
    leave the store as the batch write left it. *)
Theorem bulkSync_retries_index_once (accessPoints : list AccessPoint) (w : World) :
  let stored := SupabaseOperations.bulkInsertAccessPoints accessPoints w in
  let first := PineconeOperations.bulkUpsertAccessPoints accessPoints stored.2 in
  let second := PineconeOperations.bulkUpsertAccessPoints accessPoints first.2 in
  let final := DataSyncManager.bulkSyncAccessPoints accessPoints w in
  (success stored.1 = false ->
     success final.1 = false /\ final.2 = stored.2 /\ index final.2 = index w)
  /\ (success stored.1 = true -> success first.1 = true ->
        final = (succeed, first.2) /\ store final.2 = store stored.2)
  /\ (success stored.1 = true -> success first.1 = false ->
        final.2 = second.2
        /\ store final.2 = store stored.2
        /\ (success second.1 = true -> final.1 = succeed)
        /\ (success second.1 = false ->
              final.1 = failWith
                "Failed to sync to Pinecone after retry. Supabase sync was successful.")).
Proof.
  cbn zeta. rewrite manager_bulkSync_run. cbn zeta. split; [|split].
  - intros ->. cbn [fst snd]. split; [done|]. split; [done|].
    apply supabase_bulkInsert_keepsIndex.
  - intros -> ->. split; [done|]. cbn [snd]. apply pinecone_bulkUpsert_keepsStore.
  - intros -> ->. cbn [fst snd]. split; [done|].
    split; [by rewrite !pinecone_bulkUpsert_keepsStore|].
    split; intros ->; done.
Qed.

Lemma bulkSync_retries_index_once_witness :
  (let w := troubled [Rejected "42501" "permission denied"] [] in
   let final := DataSyncManager.bulkSyncAccessPoints [demoPoint] w in
   success final.1 = false
   /\ final.2 = (SupabaseOperations.bulkInsertAccessPoints [demoPoint] w).2
   /\ index final.2 = index w)
  /\ (let w := quietWorld in
      let final := DataSyncManager.bulkSyncAccessPoints [demoPoint] w in
      final.1 = succeed /\ length (indexLog (index final.2)) = 1%nat)
  /\ (let w := troubled [] [Thrown "timeout"] in
      let final := DataSyncManager.bulkSyncAccessPoints [demoPoint] w in
      final.1 = succeed /\ length (indexLog (index final.2)) = 2%nat)
  /\ (let w := troubled [] [Thrown "timeout"; Thrown "timeout"] in
      let final := DataSyncManager.bulkSyncAccessPoints [demoPoint] w in
      final.1 = failWith
        "Failed to sync to Pinecone after retry. Supabase sync was successful."
      /\ length (indexLog (index final.2)) = 2%nat
      /\ is_Some (table (store final.2) !! "x1")).
Proof.
  split; [|split; [|split]]; cbn zeta.
  - apply (bulkSync_retries_index_once [demoPoint]
             (troubled [Rejected "42501" "permission denied"] [])).
    vm_compute. reflexivity.
  - destruct (bulkSync_retries_index_once [demoPoint] quietWorld) as (_ & H & _).
    destruct H as [-> _]; [vm_compute; reflexivity ..|].
    split; [reflexivity | vm_compute; reflexivity].
  - destruct (bulkSync_retries_index_once [demoPoint] (troubled [] [Thrown "timeout"]))
      as (_ & _ & H).
    destruct H as (Hw & _ & Hok & _); [vm_compute; reflexivity ..|].
    split; [apply Hok | rewrite Hw]; vm_compute; reflexivity.
  - destruct (bulkSync_retries_index_once [demoPoint]
                (troubled [] [Thrown "timeout"; Thrown "timeout"])) as (_ & _ & H).
    destruct H as (Hw & _ & _ & Hfail); [vm_compute; reflexivity ..|].
    split; [apply Hfail; vm_compute; reflexivity|].
    rewrite Hw. split; [vm_compute; reflexivity|].
    vm_compute. eexists. reflexivity.
Defined.

End CoordinatorBulk.

Section CoordinatorSearch.

Lemma search_similar_success query topK w :
  success (PineconeOperations.searchSimilar query topK w).1 = true ->
  exists matches, data (PineconeOperations.searchSimilar query topK w).1 = Some matches.
Proof.
  unfold PineconeOperations.searchSimilar. rewrite bind_run.
  cbn [processEnv fst snd].
  destruct (PineconeOperations.generateEmbedding _ _); [done|].
  rewrite bind_run. destruct (indexCall _ _ w).1; [|done..].
  intros _. by eexists.
Qed.

(** The loop that pushes onto [accessPoints] builds the list that
    [Reference.refetch] describes. *)
Lemma fetchEach_refetch ids : forall accessPoints w,
  DataSyncManager.fetchEach ids accessPoints w
  = ((accessPoints ++ (Reference.refetch ids w).1)%list, (Reference.refetch ids w).2).
Proof.
  induction ids as [|id rest IH]; intros accessPoints w.
  - cbn. by rewrite app_nil_r.
  - cbn [DataSyncManager.fetchEach Reference.refetch]. rewrite bind_run.
    destruct (SupabaseOperations.getAccessPoint id w) as [r w1]. cbn [fst snd].
    destruct (success r), (data r); rewrite IH; cbn [fst snd]; try done.
    by rewrite <- app_assoc.
Qed.

Lemma refetch_log ids : forall w,
  storeLog (store (Reference.refetch ids w).2)
  = (storeLog (store w) ++ map StoreSelect ids)%list.
Proof.
  induction ids as [|id rest IH]; intros w.
  - cbn. by rewrite app_nil_r.
  - cbn [Reference.refetch map].
    assert (Hlog : storeLog (store (SupabaseOperations.getAccessPoint id w).2)
                   = (storeLog (store w) ++ [StoreSelect id])%list)
      by (rewrite get_run; apply storeCall_log).
    destruct (success (SupabaseOperations.getAccessPoint id w).1),
             (data (SupabaseOperations.getAccessPoint id w).1);
      cbn [snd]; rewrite IH, Hlog, <- app_assoc; done.
Qed.

Lemma get_quiet id w :
  storeFaults (store w) = [] ->
  storeFaults (store (SupabaseOperations.getAccessPoint id w).2) = []
  /\ (SupabaseOperations.getAccessPoint id w).1
     = match table (store w) !! SupabaseOperations.eqId id with
       | Some row => succeedWith (SupabaseOperations.toCamelCase row)
       | None => failWith (SupabaseOperations.notFound id)
       end.
Proof.
  intros Hq.
  assert (Hs : served (storeFaults (store w))) by (by rewrite Hq).
  split.
  - rewrite get_run. cbn zeta. cbn [snd].
    destruct (storeCall_served (StoreSelect id)
                (fun s => Postgres.single
                            (Postgres.select (SupabaseOperations.eqId id) s)) w Hs)
      as (_ & _ & ->). by rewrite Hq.
  - destruct (table (store w) !! SupabaseOperations.eqId id) as [row|] eqn:Hrow.
    + by apply get_present.
    + by apply get_absent.
Qed.

(** With the store answering every request, the re-fetch keeps, in order,
    exactly the ids that have a row. *)
Lemma refetch_quiet ids : forall w,
  storeFaults (store w) = [] ->
  (Reference.refetch ids w).1
  = omap (fun id => SupabaseOperations.toCamelCase
                      <$> table (store w) !! SupabaseOperations.eqId id) ids.
Proof.
  induction ids as [|id rest IH]; intros w Hq; [done|].
  cbn [Reference.refetch omap list_omap].
  destruct (get_quiet id w Hq) as [Hq' Hres].
  pose proof (IH _ Hq') as Hrest. rewrite get_table in Hrest.
  rewrite Hres.
  destruct (table (store w) !! SupabaseOperations.eqId id); cbn; by rewrite Hrest.
Qed.

Lemma manager_search_run query topK w :
  DataSyncManager.searchAccessPoints query topK w =
    let ranked := PineconeOperations.searchSimilar query topK w in
    if success ranked.1 then
      let ids := map (JS.get "id") (default [] (data ranked.1)) in
      (succeedWith (Reference.refetch ids ranked.2).1, (Reference.refetch ids ranked.2).2)
    else SupabaseOperations.searchAccessPoints query ranked.2.
Proof.
  unfold DataSyncManager.searchAccessPoints. rewrite bind_run. cbn zeta.
  destruct (PineconeOperations.searchSimilar query topK w) as [r w1].
  cbn [fst snd]. destruct (success r); cbn [negb]; [|done].
  by rewrite bind_run, fetchEach_refetch.
Qed.

(** C8: search.  If the index query fails, the coordinator's result is the
    store's text search, run on a store the failed query has not touched.
    If the index query succeeds, the coordinator reads each returned id
    from the store, one request per id in the index's ranking order,
    keeps the records the store resolves in that order, skips the others
    without a word, and reports success; with the store answering every
    request the records kept are exactly those of the ids that have a
    row. *)
Theorem search_refetches_ranked_ids (query : string) (topK : nat) (w : World) :
  let ranked := PineconeOperations.searchSimilar query topK w in
  let final := DataSyncManager.searchAccessPoints query topK w in
  store ranked.2 = store w
  /\ (success ranked.1 = false ->
        final = SupabaseOperations.searchAccessPoints query ranked.2)
  /\ (success ranked.1 = true ->
        exists matches,
          data ranked.1 = Some matches
          /\ let ids := map (JS.get "id") matches in
             final = (succeedWith (Reference.refetch ids ranked.2).1,
                      (Reference.refetch ids ranked.2).2)
             /\ success final.1 = true
             /\ storeLog (store final.2) = (storeLog (store w) ++ map StoreSelect ids)%list
             /\ (storeFaults (store w) = [] ->
                   data final.1
                   = Some (omap (fun id => SupabaseOperations.toCamelCase
                                   <$> table (store w) !! SupabaseOperations.eqId id) ids))).
Proof.
  cbn zeta. rewrite manager_search_run. cbn zeta.
  assert (Hstore : store (PineconeOperations.searchSimilar query topK w).2 = store w)
    by apply pinecone_search_keepsStore.
  split; [done|]. split.
  - by intros ->.
  - intros Hok. rewrite Hok.
    destruct (search_similar_success query topK w Hok) as [matches Hm].
    exists matches. rewrite Hm. cbn [default]. cbn zeta.
    split; [done|]. split; [done|]. split; [done|]. cbn [fst snd].
    split; [by rewrite refetch_log, Hstore|].
    intros Hq. cbn [data succeedWith].
    by rewrite refetch_quiet, Hstore by (by rewrite Hstore).
Qed.

Lemma search_refetches_ranked_ids_witness :
  (let w := indexDown storedDemo in
   DataSyncManager.searchAccessPoints "demo" 10 w
   = SupabaseOperations.searchAccessPoints "demo"
       (PineconeOperations.searchSimilar "demo" 10 w).2)
  /\ (let w := driftedWorld in
      let final := DataSyncManager.searchAccessPoints "demo" 10 w in
      success final.1 = true
      /\ fmap (M := option) (map (JS.get "id")) (data final.1) = Some [JS.VStr "x1"]
      /\ storeLog (store final.2)
         = (storeLog (store w) ++ [StoreSelect (JS.VStr "gone"); StoreSelect (JS.VStr "x1")])%list).
Proof.
  split; cbn zeta.
  - apply (search_refetches_ranked_ids "demo" 10 (indexDown storedDemo)).
    vm_compute. reflexivity.
  - destruct (search_refetches_ranked_ids "demo" 10 driftedWorld) as (_ & _ & H).
    destruct H as (matches & Hm & _ & Hok & Hlog & Hdata); [vm_compute; reflexivity|].
    split; [exact Hok|].
    assert (matches = [[("id", JS.VStr "gone")]; [("id", JS.VStr "x1")]]) as ->.
    { assert (Hc : data (PineconeOperations.searchSimilar "demo" 10 driftedWorld).1
                   = Some [[("id", JS.VStr "gone")]; [("id", JS.VStr "x1")]])
        by (vm_compute; reflexivity).
      rewrite Hc in Hm. by injection Hm as <-. }
    split; [|exact Hlog].
    rewrite Hdata by (vm_compute; reflexivity). vm_compute. reflexivity.
Defined.

End CoordinatorSearch.

(* ===================================================================== *)
(** ** Deleting an id the store does not hold *)
(* ===================================================================== *)

Section StoreDelete.

Lemma database_delete_run id w :
  DatabaseOperations.deleteAccessPoint id w =
    let client := DatabaseOperations.connect w in
    match client.1 with
    | Data _ =>
        let result := storeCall (StoreDelete id)
                        (DatabaseOperations.matching id Postgres.delete 0%nat) client.2 in
        (match result.1 with
         | Data rowCount =>
             if (rowCount =? 0)%nat then failWith (DatabaseOperations.notFound id)
             else succeed
         | Err _ msg | Exn msg => failWith ("Failed to delete access point: " ++ msg)
         end, result.2)
    | Err _ msg | Exn msg =>
        (failWith ("Failed to delete access point: " ++ msg), client.2)
    end.
Proof.
  unfold DatabaseOperations.deleteAccessPoint. rewrite bind_run. cbn zeta.
  destruct (DatabaseOperations.connect w).1; [|done..].
  rewrite bind_run. destruct (storeCall _ _ _).1 as [n| |]; [|done..].
  by destruct (n =? 0)%nat.
Qed.

(** [DatabaseOperations]: with the database answering, deleting an id no
    row has is the not-found failure, and the table is unchanged. *)
Lemma database_delete_absent id w :
  storeFaults (store w) = [] ->
  table (store w) !! JS.toStr id = None ->
  (DatabaseOperations.deleteAccessPoint id w).1 = failWith (DatabaseOperations.notFound id)
  /\ table (store (DatabaseOperations.deleteAccessPoint id w).2) = table (store w).
Proof.
  intros Hq Habsent. rewrite database_delete_run.
  unfold DatabaseOperations.connect, storeCall. rewrite Hq.
  cbn [fst snd store withStore storeFaults table].
  unfold DatabaseOperations.matching, Postgres.delete.
  cbn [table]. rewrite Habsent.
  destruct id; cbn; rewrite ?delete_id by done; done.
Qed.

(** [DatabaseOperations]: with the database answering, deleting an id
    that has a row succeeds and removes the row. *)
Lemma database_delete_present id k row w :
  id = JS.VStr k ->
  storeFaults (store w) = [] ->
  table (store w) !! k = Some row ->
  (DatabaseOperations.deleteAccessPoint id w).1 = succeed
  /\ table (store (DatabaseOperations.deleteAccessPoint id w).2) = delete k (table (store w))
  /\ storeFaults (store (DatabaseOperations.deleteAccessPoint id w).2) = [].
Proof.
  intros -> Hq Hrow. rewrite database_delete_run.
  unfold DatabaseOperations.connect, storeCall. rewrite Hq.
  cbn [fst snd store withStore storeFaults table].
  unfold DatabaseOperations.matching, Postgres.delete.
  cbn [table JS.toStr]. rewrite Hrow. done.
Qed.

(** C7 (fails on the code): deleting an id no row has.  The store adapter
    the coordinator uses, [SupabaseOperations], reports success on an
    empty table, and reports success again when the same id is deleted a
    second time; only the sibling adapter [DatabaseOperations] answers
    with the not-found failure in both situations. *)
Theorem supabase_delete_of_absent_id_succeeds :
  let id := JS.VStr "x1" in
  let once := SupabaseOperations.deleteAccessPoint id storedDemo in
  let twice := SupabaseOperations.deleteAccessPoint id once.2 in
  let once' := DatabaseOperations.deleteAccessPoint id storedDemo in
  let twice' := DatabaseOperations.deleteAccessPoint id once'.2 in
  (SupabaseOperations.deleteAccessPoint id quietWorld).1 = succeed
  /\ once.1 = succeed
  /\ table (store once.2) !! "x1" = None
  /\ twice.1 = succeed
  /\ (DatabaseOperations.deleteAccessPoint id quietWorld).1
     = failWith "Access point with id x1 not found."
  /\ once'.1 = succeed
  /\ twice'.1 = failWith "Access point with id x1 not found.".
Proof. cbn zeta. repeat split; vm_compute; reflexivity. Qed.

(** The sibling adapter on any store: the second of two deletes of the
    same id is the not-found failure. *)
Lemma database_delete_twice k row w :
  storeFaults (store w) = [] ->
  table (store w) !! k = Some row ->
  let once := DatabaseOperations.deleteAccessPoint (JS.VStr k) w in
  let twice := DatabaseOperations.deleteAccessPoint (JS.VStr k) once.2 in
  once.1 = succeed
  /\ twice.1 = failWith (DatabaseOperations.notFound (JS.VStr k)).
Proof.
  intros Hq Hrow. cbn zeta.
  destruct (database_delete_present (JS.VStr k) k row w eq_refl Hq Hrow)
    as (Hres & Htable & Hq').
  split; [done|].
  apply database_delete_absent; [done|].
  cbn [JS.toStr]. rewrite Htable. apply lookup_delete_eq.
Qed.

End StoreDelete.

(* ===================================================================== *)
(** ** Field names: the general round trip *)
(* ===================================================================== *)

Section KeyCaseGeneral.

Import SupabaseOperations.

Lemma lower_of_upper (c : ascii) :
  JS.isUpper c = true ->
  JS.isLower (JS.lowerChar c) = true /\ JS.upperChar (JS.lowerChar c) = c
  /\ Ascii.eqb (JS.lowerChar c) "_" = false.
Proof. destruct c as [[] [] [] [] [] [] [] []]; vm_compute; intuition congruence. Qed.

Lemma lowerChar_not_upper (c : ascii) : JS.isUpper (JS.lowerChar c) = false.
Proof. destruct c as [[] [] [] [] [] [] [] []]; vm_compute; reflexivity. Qed.

Lemma lower_letter (c : ascii) :
  JS.isLower c = true ->
  JS.isUpper c = false /\ JS.lowerChar c = c /\ Ascii.eqb c "_" = false.
Proof. destruct c as [[] [] [] [] [] [] [] []]; vm_compute; intuition congruence. Qed.

Lemma underscore_not_upper : JS.isUpper "_" = false.
Proof. reflexivity. Qed.

Lemma splitLowerUpper_step a b r :
  splitLowerUpper (String a (String b r))
  = if JS.isLower a && JS.isUpper b
    then String a (String "_" (String b (splitLowerUpper r)))
    else String a (splitLowerUpper (String b r)).
Proof. reflexivity. Qed.

Lemma splitUpperRun_step a b c r :
  splitUpperRun (String a (String b (String c r)))
  = if JS.isUpper a && JS.isUpper b && JS.isLower c
    then String a (String "_" (String b (String c (splitUpperRun r))))
    else String a (splitUpperRun (String b (String c r))).
Proof. reflexivity. Qed.

Lemma camelKey_step a b r :
  camelKey (String a (String b r))
  = if Ascii.eqb a "_" && JS.isLower b
    then String (JS.upperChar b) (camelKey r)
    else String a (camelKey (String b r)).
Proof. reflexivity. Qed.

(** On a plain name the first substitution puts an underscore before every
    capital. *)
Lemma splitLowerUpper_plain n : forall s,
  (String.length s <= n)%nat ->
  startsLower s = true -> noCapitalRun s = true ->
  splitLowerUpper s = underscored s.
Proof.
  induction n as [|n IH]; intros s Hlen Hstart Hrun.
  - destruct s; [done | cbn in Hlen; lia].
  - destruct s as [|a t]; [done|].
    cbn [startsLower] in Hstart. destruct (lower_letter a Hstart) as (Hau & _ & _).
    cbn [underscored]. rewrite Hau.
    destruct t as [|b r]; [done|].
    cbn [noCapitalRun] in Hrun. rewrite Hau in Hrun.
    apply andb_true_iff in Hrun as [_ Hrun].
    rewrite splitLowerUpper_step, Hstart. cbn [andb].
    cbn [String.length] in Hlen.
    destruct (JS.isUpper b) eqn:Hb.
    + cbn [underscored]. rewrite Hb. do 3 f_equal.
      apply andb_true_iff in Hrun as [Hrun Hr]. apply andb_true_iff in Hrun as [_ Hnext].
      apply IH; [lia | | done].
      destruct r as [|c r']; [done|]. cbn [startsLower].
      cbn [noCapitalRun] in Hr. apply andb_true_iff in Hr as [Hr _].
      apply andb_true_iff in Hr as [Hletter _]. unfold isLetter in Hletter.
      cbn [andb] in Hnext.
      destruct (JS.isUpper c); [done|]. by rewrite orb_false_r in Hletter.
    + f_equal. apply IH; [cbn [String.length]; lia | | ].
      * cbn [startsLower]. cbn [noCapitalRun] in Hrun.
        apply andb_true_iff in Hrun as [Hrun _]. apply andb_true_iff in Hrun as [Hletter _].
        unfold isLetter in Hletter. by rewrite Hb, orb_false_r in Hletter.
      * cbn [noCapitalRun]. rewrite Hb. exact Hrun.
Qed.

Lemma underscored_noAdjacentCapitals s : noAdjacentCapitals (underscored s) = true.
Proof.
  induction s as [|a t IH]; [done|].
  cbn [underscored]. destruct (JS.isUpper a) eqn:Ha.
  - cbn [noAdjacentCapitals]. rewrite underscore_not_upper. cbn [andb negb].
    destruct (underscored t) as [|b r] eqn:Hu; [done|].
    cbn [underscored] in *.
    assert (JS.isUpper b = false) as Hb.
    { destruct t as [|c t']; [done|]. cbn [underscored] in Hu.
      destruct (JS.isUpper c) eqn:Hc; injection Hu as <- _; [apply underscore_not_upper | done]. }
    rewrite Hb, andb_false_r. cbn [negb andb]. exact IH.
  - destruct (underscored t) as [|b r] eqn:Hu; [done|].
    cbn [noAdjacentCapitals]. rewrite Ha. cbn [andb negb]. exact IH.
Qed.

(** The second substitution only fires on two capitals side by side. *)
Lemma splitUpperRun_id s : noAdjacentCapitals s = true -> splitUpperRun s = s.
Proof.
  induction s as [|a t IH]; [done|].
  destruct t as [|b u]; [done|].
  cbn [noAdjacentCapitals]. intros [Hab Ht]%andb_true_iff.
  destruct u as [|c r].
  - done.
  - rewrite splitUpperRun_step.
    apply negb_true_iff in Hab. rewrite Hab. cbn [andb].
    f_equal. by apply IH.
Qed.

Lemma toLowerCase_noCapital s : noCapital (JS.toLowerCase s) = true.
Proof.
  induction s as [|a t IH]; [done|].
  cbn [JS.toLowerCase noCapital]. by rewrite lowerChar_not_upper, IH.
Qed.

Lemma dropLeadingUnderscore_noCapital s :
  noCapital s = true -> noCapital (dropLeadingUnderscore s) = true.
Proof.
  destruct s as [|a t]; [done|]. cbn [dropLeadingUnderscore noCapital].
  intros [Ha Ht]%andb_true_iff. destruct (Ascii.eqb a "_"); [done|].
  cbn [noCapital]. by rewrite Ha, Ht.
Qed.

(** Reading back the lower-cased, underscored form of a name of letters
    gives the name. *)
Lemma camelKey_underscored s :
  noCapitalRun s = true -> camelKey (JS.toLowerCase (underscored s)) = s.
Proof.
  induction s as [|a t IH]; [done|].
  cbn [noCapitalRun]. intros [Hhead Ht]%andb_true_iff.
  apply andb_true_iff in Hhead as [Hletter _].
  specialize (IH Ht). cbn [underscored].
  destruct (JS.isUpper a) eqn:Ha.
  - destruct (lower_of_upper a Ha) as (Hlow & Hup & _).
    cbn [JS.toLowerCase]. rewrite camelKey_step.
    change (JS.lowerChar "_") with "_"%char.
    change (Ascii.eqb "_" "_") with true. cbn [andb].
    by rewrite Hlow, Hup, IH.
  - unfold isLetter in Hletter. rewrite Ha, orb_false_r in Hletter.
    destruct (lower_letter a Hletter) as (_ & Hsame & Hnot).
    cbn [JS.toLowerCase]. rewrite Hsame.
    destruct (JS.toLowerCase (underscored t)) as [|b r] eqn:Hrest.
    + by rewrite <- IH.
    + rewrite camelKey_step, Hnot. cbn [andb]. by rewrite IH.
Qed.

(** X1: for every plain camelCase name (letters only, lower-case first
    letter, no two capitals in a row) the column name is the name with each
    capital replaced by an underscore and its lower-case letter, and reading
    that column name back gives the name again. *)
Theorem plain_camel_names_round_trip (name : string) :
  plainCamel name = true ->
  snakeKey name = JS.toLowerCase (underscored name)
  /\ camelKey (snakeKey name) = name.
Proof.
  intros [Hstart Hrun]%andb_true_iff.
  assert (Hsnake : snakeKey name = JS.toLowerCase (underscored name)).
  { unfold snakeKey.
    rewrite (splitLowerUpper_plain (String.length name)) by done.
    rewrite splitUpperRun_id by apply underscored_noAdjacentCapitals.
    destruct name as [|a t]; [done|].
    cbn [startsLower] in Hstart. destruct (lower_letter a Hstart) as (Hau & Hsame & Hnot).
    cbn [underscored]. rewrite Hau. cbn [JS.toLowerCase dropLeadingUnderscore].
    by rewrite Hsame, Hnot. }
  split; [done|]. rewrite Hsnake. by apply camelKey_underscored.
Qed.

Lemma plain_camel_names_round_trip_witness :
  SupabaseOperations.snakeKey "promptExample" = "prompt_example"
  /\ SupabaseOperations.camelKey (SupabaseOperations.snakeKey "promptExample")
     = "promptExample".
Proof. apply (plain_camel_names_round_trip "promptExample"). reflexivity. Defined.

(** X2: a column name never contains a capital letter, whatever the
    property name it is made from. *)
Theorem snakeKey_has_no_capital (key : string) : noCapital (snakeKey key) = true.
Proof.
  unfold snakeKey. apply dropLeadingUnderscore_noCapital, toLowerCase_noCapital.
Qed.

End KeyCaseGeneral.

(* ===================================================================== *)
(** ** The fallback embedding: slots, bounds, records without arrays *)
(* ===================================================================== *)

Section EmbeddingMore.

Import PineconeOperations.

Lemma charCodes_length text : length (JS.charCodes text) = String.length text.
Proof. induction text as [|c r IH]; [done|]. cbn. by rewrite IH. Qed.

(** While the positions stay below the dimension, every position writes its
    own slot and no other. *)
Lemma hashLoop_lookup codes : forall i hash vector j,
  (i + length codes <= EMBEDDING_DIMENSION)%nat ->
  length vector = EMBEDDING_DIMENSION ->
  hashLoop codes i hash vector !! j
  = if decide (i <= j < i + length codes)%nat
    then Some (slotValue (fold_left hashStep (take (S (j - i)) codes) hash))
    else vector !! j.
Proof.
  induction codes as [|char rest IH]; intros i hash vector j Hfit Hlen.
  - cbn [hashLoop length]. case_decide; [lia | done].
  - cbn [hashLoop length] in *.
    rewrite Nat.mod_small by lia.
    rewrite IH by (rewrite ?length_insert; lia).
    destruct (decide (j = i)) as [->|Hne].
    + rewrite decide_False by lia. rewrite decide_True by lia.
      rewrite list_lookup_insert_eq by lia.
      replace (i - i)%nat with 0%nat by lia. done.
    + rewrite list_lookup_insert_ne by done.
      destruct (decide (S i <= j < S i + length rest)%nat) as [Hin|Hout].
      * rewrite decide_True by lia.
        replace (j - i)%nat with (S (j - S i)) by lia. done.
      * rewrite decide_False by lia. done.
Qed.

(** X3: a text of at most 1024 characters fills the leading slots, one per
    character: slot [j] holds the value made from the hash of the first
    [j + 1] characters, and every slot past the end of the text stays 0. *)
Theorem short_text_fills_leading_slots (text : string) (j : nat) :
  (String.length text <= EMBEDDING_DIMENSION)%nat ->
  (j < EMBEDDING_DIMENSION)%nat ->
  hashVector text !! j
  = if decide (j < String.length text)%nat
    then Some (slotValue (fold_left hashStep (take (S j) (JS.charCodes text)) 0))
    else Some 0%Q.
Proof.
  intros Hshort Hj. unfold hashVector.
  rewrite hashLoop_lookup by (rewrite ?charCodes_length, ?length_replicate; lia).
  rewrite charCodes_length, Nat.sub_0_r.
  destruct (decide (j < String.length text)%nat).
  - by rewrite decide_True by lia.
  - rewrite decide_False by lia. by apply lookup_replicate_2.
Qed.

Lemma short_text_fills_leading_slots_witness :
  hashVector "ID" !! 1%nat
  = Some (slotValue (fold_left hashStep [73; 68] 0))
  /\ hashVector "ID" !! 2%nat = Some 0%Q.
Proof.
  split.
  - apply (short_text_fills_leading_slots "ID" 1);
      unfold EMBEDDING_DIMENSION; cbn [String.length]; lia.
  - apply (short_text_fills_leading_slots "ID" 2);
      unfold EMBEDDING_DIMENSION; cbn [String.length]; lia.
Defined.

Lemma hashLoop_bounded codes : forall i hash vector,
  Forall (fun q => (-3 < q)%Q /\ (q < 1)%Q) vector ->
  Forall (fun q => (-3 < q)%Q /\ (q < 1)%Q) (hashLoop codes i hash vector).
Proof.
  induction codes as [|char rest IH]; intros i hash vector Hv; [done|].
  cbn [hashLoop]. apply IH, Forall_insert; [done | apply slotValue_range].
Qed.

(** X4: every component of a fallback vector lies strictly between -3 and
    1, whatever the text. *)
Theorem embedding_components_bounded (text : string) :
  Forall (fun q => (-3 < q)%Q /\ (q < 1)%Q) (hashVector text).
Proof.
  unfold hashVector. apply hashLoop_bounded, Forall_replicate. done.
Qed.

Lemma textToEmbed_throws accessPoint :
  (forall items, JS.get "capabilities" accessPoint <> JS.VArr items)
  \/ (forall items, JS.get "tags" accessPoint <> JS.VArr items) ->
  exists msg, textToEmbed accessPoint = JS.Throw msg.
Proof.
  unfold textToEmbed, excBind, JS.joinValue.
  intros [Hc|Ht].
  - destruct (JS.get "capabilities" accessPoint) as [| | | |items]; eauto.
    by destruct (Hc items).
  - destruct (JS.get "capabilities" accessPoint) as [| | | |items]; eauto.
    destruct (JS.get "tags" accessPoint) as [| | | |items']; eauto.
    by destruct (Ht items').
Qed.

(** X5: a record whose [capabilities] or [tags] is not an array cannot be
    indexed: the upsert reports failure without sending anything, and the
    world is exactly as before. *)
Theorem upsert_needs_arrays (accessPoint : AccessPoint) (w : World) :
  (forall items, JS.get "capabilities" accessPoint <> JS.VArr items)
  \/ (forall items, JS.get "tags" accessPoint <> JS.VArr items) ->
  success (upsertAccessPoint accessPoint w).1 = false
  /\ (upsertAccessPoint accessPoint w).2 = w.
Proof.
  intros Hbad. destruct (textToEmbed_throws accessPoint Hbad) as [msg Hmsg].
  rewrite upsert_run. unfold generateEmbedding, excBind. by rewrite Hmsg.
Qed.

Lemma upsert_needs_arrays_witness :
  let untagged := [("id", JS.VStr "x2"); ("capabilities", JS.VArr [])] in
  success (upsertAccessPoint untagged quietWorld).1 = false
  /\ (upsertAccessPoint untagged quietWorld).2 = quietWorld.
Proof.
  apply (upsert_needs_arrays [("id", JS.VStr "x2"); ("capabilities", JS.VArr [])] quietWorld).
  right. intros items. vm_compute. discriminate.
Defined.

End EmbeddingMore.

(* ===================================================================== *)
(** ** Bulk upsert: the chunks *)
(* ===================================================================== *)

Section Chunks.

Import PineconeOperations.

Lemma slice_chunk {A} (i : nat) (l : list A) :
  slice i (i + chunkSize) l = take chunkSize (drop i l).
Proof. unfold slice. f_equal. lia. Qed.

(** The first [k] chunks, put end to end, are the first [k * 100] items. *)
Lemma chunks_prefix {A} (k : nat) : forall l : list A,
  concat (map (fun j => take chunkSize (drop (j * chunkSize) l)) (seq 0 k))
  = take (k * chunkSize) l.
Proof.
  induction k as [|k IH]; intros l; [done|].
  cbn [seq map concat]. rewrite <- seq_shift, map_map.
  change (S k * chunkSize)%nat with (chunkSize + k * chunkSize)%nat.
  rewrite <- take_take_drop, <- IH. f_equal.
  f_equal. apply map_ext. intros j. by rewrite drop_drop.
Qed.

Lemma chunks_concat {A} (k : nat) (l : list A) :
  (length l <= k * chunkSize)%nat ->
  concat (map (fun j => take chunkSize (drop (j * chunkSize) l)) (seq 0 k)) = l.
Proof. intros Hlen. rewrite chunks_prefix. by apply take_ge. Qed.

Lemma chunk_count_covers (len : nat) :
  (len <= (len + chunkSize - 1) / chunkSize * chunkSize)%nat.
Proof.
  unfold chunkSize.
  pose proof (Nat.div_mod_eq (len + 100 - 1) 100).
  pose proof (Nat.mod_upper_bound (len + 100 - 1) 100). lia.
Qed.

Lemma chunk_start_inside (len j : nat) :
  (j < (len + chunkSize - 1) / chunkSize)%nat -> (j * chunkSize < len)%nat.
Proof.
  unfold chunkSize. intros Hj.
  pose proof (Nat.div_mod_eq (len + 100 - 1) 100).
  pose proof (Nat.mod_upper_bound (len + 100 - 1) 100). nia.
Qed.

Lemma chunkStarts_chunks {A} (l : list A) (starts : list nat) :
  map (fun i => slice i (i + chunkSize) l) starts
  = map (fun i => take chunkSize (drop i l)) starts.
Proof. apply map_ext. intros i. apply slice_chunk. Qed.

(** X6: the chunks of a bulk upsert.  Put end to end they are the whole
    list of vectors in its order, and every chunk holds at least one and at
    most 100 of them, so no empty batch is ever sent. *)
Theorem chunks_partition_the_batch {A} (vectorsData : list A) :
  let chunks := map (fun i => slice i (i + chunkSize) vectorsData)
                    (chunkStarts (length vectorsData)) in
  concat chunks = vectorsData
  /\ Forall (fun chunk => (1 <= length chunk <= 100)%nat) chunks
  /\ length chunks = ((length vectorsData + 99) / 100)%nat.
Proof.
  cbn zeta. unfold chunkStarts. rewrite map_map. split; [|split].
  - erewrite map_ext; [apply chunks_concat, chunk_count_covers|].
    intros j. cbn beta. apply slice_chunk.
  - apply Forall_map, Forall_forall. intros j Hj%elem_of_seq. cbn beta.
    rewrite slice_chunk, length_take, length_drop.
    pose proof (chunk_start_inside (length vectorsData) j ltac:(lia)).
    unfold chunkSize in *. lia.
  - rewrite length_map, length_seq. unfold chunkSize. f_equal. lia.
Qed.

Lemma buildVectors_throws key before bad after msg :
  Forall (fun ap => exists v, generateEmbedding key ap = JS.Ok v) before ->
  generateEmbedding key bad = JS.Throw msg ->
  buildVectors key (before ++ bad :: after) = JS.Throw msg.
Proof.
  intros Hbefore Hbad. induction Hbefore as [|ap rest [v Hv] _ IH].
  - cbn [app buildVectors]. by rewrite Hbad.
  - cbn [app buildVectors]. rewrite Hv. cbn [excBind]. by rewrite IH.
Qed.

(** X7: a bulk upsert computes every embedding before it sends anything.
    If one record of the batch has no array under [capabilities] or
    [tags], the call fails with nothing sent, however many good records
    come before it; and an empty batch succeeds with nothing sent. *)
Theorem bulk_upsert_sends_nothing_on_bad_record
    (before after : list AccessPoint) (bad : AccessPoint) (w : World) :
  Forall (fun ap => exists v, generateEmbedding (openaiKey w) ap = JS.Ok v) before ->
  ((forall items, JS.get "capabilities" bad <> JS.VArr items)
   \/ (forall items, JS.get "tags" bad <> JS.VArr items)) ->
  success (bulkUpsertAccessPoints (before ++ bad :: after) w).1 = false
  /\ (bulkUpsertAccessPoints (before ++ bad :: after) w).2 = w
  /\ bulkUpsertAccessPoints [] w = (succeed, w).
Proof.
  intros Hbefore Hbad.
  destruct (textToEmbed_throws bad Hbad) as [msg Hmsg].
  assert (Hthrow : generateEmbedding (openaiKey w) bad = JS.Throw msg)
    by (unfold generateEmbedding; by rewrite Hmsg).
  unfold bulkUpsertAccessPoints. rewrite !bind_run. cbn [processEnv fst snd].
  rewrite (buildVectors_throws _ _ _ _ msg Hbefore Hthrow). done.
Qed.

Lemma bulk_upsert_sends_nothing_on_bad_record_witness :
  let untagged := [("id", JS.VStr "x2"); ("capabilities", JS.VArr [])] in
  success (bulkUpsertAccessPoints ([demoPoint] ++ untagged :: []) quietWorld).1 = false
  /\ (bulkUpsertAccessPoints ([demoPoint] ++ untagged :: []) quietWorld).2 = quietWorld
  /\ bulkUpsertAccessPoints [] quietWorld = (succeed, quietWorld).
Proof.
  apply (bulk_upsert_sends_nothing_on_bad_record [demoPoint] []
           [("id", JS.VStr "x2"); ("capabilities", JS.VArr [])] quietWorld).
  - constructor; [|constructor]. eexists. vm_compute. reflexivity.
  - right. intros items. vm_compute. discriminate.
Defined.

End Chunks.

Section ChunkFailure.

Import PineconeOperations.

Lemma putAll_app (a b : list VectorData) : forall v,
  PineconeService.putAll (a ++ b) v
  = match PineconeService.putAll a v with
    | Some v' => PineconeService.putAll b v'
    | None => None
    end.
Proof.
  induction a as [|r a IH]; intros v; [done|].
  cbn [app PineconeService.putAll]. by destruct (vd_id r).
Qed.

Lemma putAll_string_ids (records : list VectorData) : forall v,
  Forall hasStringId records -> is_Some (PineconeService.putAll records v).
Proof.
  induction records as [|r rest IH]; intros v Hids; [by eexists|].
  apply Forall_cons in Hids as [[id Hid] Hrest].
  cbn [PineconeService.putAll]. rewrite Hid. by apply IH.
Qed.

Lemma slice_string_ids i j (vectorsData : list VectorData) :
  Forall hasStringId vectorsData -> Forall hasStringId (slice i j vectorsData).
Proof. intros H. unfold slice. by apply Forall_take, Forall_drop. Qed.

Lemma upsertChunks_step vectorsData i later w :
  upsertChunks vectorsData (i :: later) w =
    let chunk := slice i (i + chunkSize) vectorsData in
    let call := indexCall (IndexUpsert chunk) (PineconeService.upsert chunk) w in
    match call.1 with
    | Data _ => upsertChunks vectorsData later call.2
    | failure => (failure, call.2)
    end.
Proof.
  cbn [upsertChunks]. rewrite bind_run. cbn zeta.
  by destruct (indexCall _ _ w).1.
Qed.

(** The chunk loop against an index that serves [k] requests and then
    throws: the first [k] chunks are written, the next request fails, and
    no chunk after it is sent. *)
Lemma upsertChunks_stops vectorsData starts : forall k w msg ahead,
  Forall hasStringId vectorsData ->
  indexFaults (index w) = (replicate k Served ++ Thrown msg :: ahead)%list ->
  (k < length starts)%nat ->
  let chunkAt i := slice i (i + chunkSize) vectorsData in
  let done := upsertChunks vectorsData starts w in
  done.1 = Exn msg
  /\ indexFaults (index done.2) = ahead
  /\ indexLog (index done.2)
     = (indexLog (index w) ++ map (fun i => IndexUpsert (chunkAt i)) (take (S k) starts))%list
  /\ PineconeService.putAll (concat (map chunkAt (take k starts))) (vectors (index w))
     = Some (vectors (index done.2)).
Proof.
  induction starts as [|i later IH]; intros k w msg ahead Hids Hfaults Hk;
    [cbn in Hk; lia|].
  cbn zeta. rewrite upsertChunks_step. cbn zeta.
  set (chunk := slice i (i + chunkSize) vectorsData).
  destruct k as [|k].
  - cbn [replicate app] in Hfaults.
    unfold indexCall. rewrite Hfaults. cbn [fst snd index withIndex indexFaults indexLog vectors].
    cbn [take map concat PineconeService.putAll]. rewrite take_0. done.
  - cbn [replicate app] in Hfaults.
    destruct (putAll_string_ids chunk (vectors (index w)) (slice_string_ids _ _ _ Hids))
      as [v' Hput].
    assert (Hcall : indexCall (IndexUpsert chunk) (PineconeService.upsert chunk) w
                    = (Data tt, withIndex (mkIndex v' (nearest (index w))
                                             (replicate k Served ++ Thrown msg :: ahead)
                                             (indexLog (index w) ++ [IndexUpsert chunk])) w)).
    { unfold indexCall, PineconeService.upsert. by rewrite Hfaults, Hput. }
    rewrite Hcall. cbn [fst snd].
    cbn [length] in Hk.
    set (w1 := withIndex _ w) in *.
    destruct (IH k w1 msg ahead Hids eq_refl ltac:(lia)) as (Hr & Hf & Hl & Hp).
    cbn zeta in *. rewrite Hr, Hf, Hl.
    split; [done|]. split; [done|].
    unfold w1 in Hp |- *. cbn [index withIndex indexLog vectors] in *.
    split; [by rewrite <- app_assoc|].
    cbn [take map concat]. fold chunk. by rewrite putAll_app, Hput.
Qed.

Lemma buildVectors_ids key accessPoints : forall vectorsData,
  buildVectors key accessPoints = JS.Ok vectorsData ->
  map vd_id vectorsData = map (JS.get "id") accessPoints.
Proof.
  induction accessPoints as [|ap rest IH]; intros vectorsData.
  - by intros [= <-].
  - cbn [buildVectors]. destruct (generateEmbedding key ap) as [|e]; [done|].
    cbn [excBind]. destruct (buildVectors key rest) as [|more]; [done|].
    cbn [excBind]. intros [= <-]. cbn [map vd_id vectorDataOf]. by rewrite (IH more).
Qed.

(** X8: a bulk upsert that meets a failing request part-way.  With records
    that all have a string id and an embedding, and an index that serves
    [k] requests and then throws, [k] less than the number of chunks: the
    call reports the index's message as a failure, exactly [k + 1] requests
    have been sent, and the records of the first [k] chunks stay written;
    nothing undoes them. *)
Theorem bulk_upsert_keeps_chunks_before_failure
    (accessPoints : list AccessPoint) (vectorsData : list VectorData)
    (k : nat) (msg : string) (ahead : list Fault) (w : World) :
  buildVectors (openaiKey w) accessPoints = JS.Ok vectorsData ->
  Forall (fun ap => exists id, JS.get "id" ap = JS.VStr id) accessPoints ->
  indexFaults (index w) = (replicate k Served ++ Thrown msg :: ahead)%list ->
  (k * 100 < length accessPoints)%nat ->
  let done := bulkUpsertAccessPoints accessPoints w in
  done.1 = failWith ("Failed to bulk upsert to Pinecone: " ++ msg)
  /\ length (indexLog (index done.2)) = (length (indexLog (index w)) + S k)%nat
  /\ PineconeService.putAll (take (k * 100) vectorsData) (vectors (index w))
     = Some (vectors (index done.2)).
Proof.
  intros Hbuild Hids Hfaults Hk. cbn zeta.
  assert (Hlen : length vectorsData = length accessPoints).
  { apply buildVectors_ids in Hbuild.
    by rewrite <- (length_map vd_id), Hbuild, length_map. }
  assert (Hstr : Forall hasStringId vectorsData).
  { apply buildVectors_ids in Hbuild. apply Forall_forall. intros v Hv.
    apply list_elem_of_lookup in Hv as [n Hn].
    assert (Hn' : map vd_id vectorsData !! n = Some (vd_id v))
      by (by rewrite list_lookup_fmap, Hn).
    rewrite Hbuild, list_lookup_fmap in Hn'.
    destruct (accessPoints !! n) as [ap|] eqn:Hap; [|done].
    injection Hn' as Hn'. rewrite Forall_forall in Hids.
    destruct (Hids ap) as [id Hid]; [by eapply list_elem_of_lookup_2|].
    exists id. congruence. }
  assert (Hkk : (k < length (chunkStarts (length vectorsData)))%nat).
  { unfold chunkStarts. rewrite length_map, length_seq.
    unfold chunkSize. apply Nat.div_le_lower_bound; lia. }
  destruct (upsertChunks_stops vectorsData (chunkStarts (length vectorsData))
              k w msg ahead Hstr Hfaults Hkk) as (Hr & _ & Hl & Hp).
  cbn zeta in *.
  unfold bulkUpsertAccessPoints. rewrite !bind_run. cbn [processEnv fst snd].
  rewrite Hbuild, bind_run, Hr. unfold mret, M_ret. cbn [fst snd].
  split; [done|]. split.
  - rewrite Hl, length_app, length_map, length_take. lia.
  - rewrite <- Hp. f_equal.
    rewrite chunkStarts_chunks. unfold chunkStarts.
    rewrite firstn_map, take_seq, Nat.min_l by (unfold chunkStarts in Hkk; rewrite length_map, length_seq in Hkk; lia).
    rewrite map_map. symmetry. apply (chunks_prefix k vectorsData).
Qed.

End ChunkFailure.

Section ChunkFailureWitness.

Import PineconeOperations.

Lemma bulk_upsert_keeps_chunks_before_failure_witness :
  let batch := replicate 101 demoPoint in
  let w := troubled [] [Served; Thrown "timeout"] in
  let done := bulkUpsertAccessPoints batch w in
  done.1 = failWith "Failed to bulk upsert to Pinecone: timeout"
  /\ length (indexLog (index done.2)) = 2%nat
  /\ is_Some (vectors (index done.2) !! "x1").
Proof.
  cbn zeta.
  set (vectorsData := match buildVectors None (replicate 101 demoPoint) with
                      | JS.Ok vs => vs
                      | JS.Throw _ => []
                      end).
  destruct (bulk_upsert_keeps_chunks_before_failure (replicate 101 demoPoint)
              vectorsData 1 "timeout" [] (troubled [] [Served; Thrown "timeout"]))
    as (Hr & Hl & Hp).
  - vm_compute. reflexivity.
  - apply Forall_replicate. exists "x1". reflexivity.
  - reflexivity.
  - rewrite length_replicate. lia.
  - split; [exact Hr|]. split; [exact Hl|].
    assert (Hx : forall v, PineconeService.putAll (take (1 * 100) vectorsData) ∅ = Some v ->
                           is_Some (v !! "x1")).
    { intros v. vm_compute. intros [= <-]. eexists. reflexivity. }
    apply Hx. exact Hp.
Defined.

End ChunkFailureWitness.

(* ===================================================================== *)
(** ** The store adapter: what a caller reads back *)
(* ===================================================================== *)

Section StoreRoundTrips.

Import SupabaseOperations.

(** X9: create, then read.  After a create that reports success for a
    record that conforms to the interface, a read of the record's id that
    the store answers returns exactly the envelope the create returned. *)
Theorem get_after_create_returns_created (accessPoint : AccessPoint) (w : World) :
  conforms accessPoint ->
  let created := createAccessPoint accessPoint w in
  success created.1 = true ->
  served (storeFaults (store created.2)) ->
  (getAccessPoint (JS.get "id" accessPoint) created.2).1 = created.1.
Proof.
  intros Hconf. cbn zeta. intros Hok Hs.
  destruct (create_success accessPoint w Hok) as (k & row & Hid & _ & Htable & Hres).
  rewrite toSnakeCase_id in Hid by done.
  rewrite Hres. apply get_present; [|done].
  rewrite Htable. unfold eqId. rewrite Hid. cbn [JS.toStr]. apply lookup_insert_eq.
Qed.

Lemma get_after_create_returns_created_witness :
  let created := createAccessPoint demoPoint quietWorld in
  (getAccessPoint (JS.VStr "x1") created.2).1 = created.1.
Proof.
  apply (get_after_create_returns_created demoPoint quietWorld).
  - apply (bool_decide_unpack (conforms demoPoint)). vm_compute. reflexivity.
  - vm_compute. reflexivity.
  - exact I.
Defined.

(** X10: create of an id that is taken.  When the store answers and a row
    with the record's id exists, the create fails with the database's
    duplicate-key message and the table is unchanged: an existing record is
    never overwritten by a create. *)
Theorem create_of_taken_id_fails (accessPoint : AccessPoint) (k : string)
    (existing : JS.Obj) (w : World) :
  conforms accessPoint ->
  JS.get "id" accessPoint = JS.VStr k ->
  table (store w) !! k = Some existing ->
  served (storeFaults (store w)) ->
  (createAccessPoint accessPoint w).1
  = failWith ("Failed to create access point: " ++ Postgres.duplicateKey)
  /\ table (store (createAccessPoint accessPoint w).2) = table (store w).
Proof.
  intros Hconf Hid Hrow Hs. rewrite create_run. cbn zeta. cbn [fst snd].
  set (row := stamped _ _ _).
  set (w2 := (now (now w).2).2).
  assert (Hstore : store w2 = store w) by (unfold w2; by rewrite !now_keepsStore).
  rewrite <- Hstore in Hs.
  destruct (storeCall_served (StoreInsert row)
              (fun s => Postgres.single (Postgres.insert row s)) w2 Hs) as (-> & -> & _).
  unfold Postgres.insert. rewrite Hstore.
  assert (Hrowid : JS.get "id" row = JS.VStr k)
    by (unfold row; by rewrite stamped_id, toSnakeCase_id).
  by rewrite Hrowid, Hrow.
Qed.

Lemma create_of_taken_id_fails_witness :
  (createAccessPoint demoPoint storedDemo).1
  = failWith ("Failed to create access point: " ++ Postgres.duplicateKey)
  /\ table (store (createAccessPoint demoPoint storedDemo).2) = table (store storedDemo).
Proof.
  assert (Hrow : is_Some (table (store storedDemo) !! "x1"))
    by (vm_compute; eexists; reflexivity).
  destruct Hrow as [existing Hrow].
  apply (create_of_taken_id_fails demoPoint "x1" existing storedDemo).
  - apply (bool_decide_unpack (conforms demoPoint)). vm_compute. reflexivity.
  - reflexivity.
  - exact Hrow.
  - exact I.
Defined.

(** X11: update of an id no row has.  When the store answers, the update
    fails with the message of a missing single row, the table is unchanged
    and the index is not touched; unlike a delete, an update does tell the
    caller that the id is absent. *)
Theorem update_of_absent_id_fails (id : JS.Value) (updates : JS.Obj) (w : World) :
  table (store w) !! eqId id = None ->
  served (storeFaults (store w)) ->
  let updated := updateAccessPoint id updates w in
  updated.1 = failWith ("Failed to update access point: " ++ Postgres.noSingleRow)
  /\ table (store updated.2) = table (store w)
  /\ DataSyncManager.updateAccessPoint id updates w = updated.
Proof.
  intros Habsent Hs. cbn zeta.
  assert (Hres : (updateAccessPoint id updates w).1
                 = failWith ("Failed to update access point: " ++ Postgres.noSingleRow)
                 /\ table (store (updateAccessPoint id updates w).2) = table (store w)).
  { rewrite update_run. cbn zeta. cbn [fst snd].
    set (columns := stampedUpdate _ _).
    set (w1 := (now w).2).
    assert (Hstore : store w1 = store w) by (unfold w1; by rewrite now_keepsStore).
    rewrite <- Hstore in Hs.
    destruct (storeCall_served (StoreUpdate id columns)
                (fun s => Postgres.single (Postgres.update (eqId id) columns s)) w1 Hs)
      as (-> & -> & _).
    unfold Postgres.update. by rewrite Hstore, Habsent. }
  destruct Hres as [Hres Htable]. split; [done|]. split; [done|].
  rewrite manager_update_run. cbn zeta. by rewrite Hres.
Qed.

Lemma update_of_absent_id_fails_witness :
  let updated := updateAccessPoint (JS.VStr "x9") [("description", JS.VStr "new")] quietWorld in
  updated.1 = failWith ("Failed to update access point: " ++ Postgres.noSingleRow)
  /\ table (store updated.2) = table (store quietWorld)
  /\ DataSyncManager.updateAccessPoint (JS.VStr "x9") [("description", JS.VStr "new")] quietWorld
     = updated.
Proof.
  apply (update_of_absent_id_fails (JS.VStr "x9") [("description", JS.VStr "new")] quietWorld).
  - reflexivity.
  - exact I.
Defined.

End StoreRoundTrips.

(* ===================================================================== *)
(** ** The coordinator: what create leaves behind *)
(* ===================================================================== *)

Section CreateOutcomes.

Lemma indexCall_refused {A} req (serve : Index -> Reply A * gmap string VectorData) w :
  ~ served (indexFaults (index w)) ->
  vectors (index (indexCall req serve w).2) = vectors (index w)
  /\ exists msg, (indexCall req serve w).1 = Exn msg.
Proof.
  unfold indexCall.
  destruct (indexFaults (index w)) as [|[] ?]; simpl; try done; eauto.
Qed.

(** An upsert that reports success has written the record's vector under
    the record's id, which is a string. *)
Lemma upsert_success accessPoint w :
  success (PineconeOperations.upsertAccessPoint accessPoint w).1 = true ->
  exists embedding k,
    PineconeOperations.generateEmbedding (openaiKey w) accessPoint = JS.Ok embedding
    /\ JS.get "id" accessPoint = JS.VStr k
    /\ vectors (index (PineconeOperations.upsertAccessPoint accessPoint w).2)
       = <[k := PineconeOperations.vectorDataOf accessPoint embedding]> (vectors (index w)).
Proof.
  rewrite upsert_run.
  destruct (PineconeOperations.generateEmbedding (openaiKey w) accessPoint)
    as [msg|embedding]; [done|].
  cbn zeta. cbn [fst snd].
  set (vd := PineconeOperations.vectorDataOf accessPoint embedding).
  destruct (decide (served (indexFaults (index w)))) as [Hs|Hs].
  - destruct (indexCall_served (IndexUpsert [vd]) (PineconeService.upsert [vd]) w Hs)
      as (-> & ->).
    unfold PineconeService.upsert. cbn [PineconeService.putAll].
    change (vd_id vd) with (JS.get "id" accessPoint).
    destruct (JS.get "id" accessPoint) as [| | |k|]; try done.
    intros _. by exists embedding, k.
  - destruct (indexCall_refused (IndexUpsert [vd]) (PineconeService.upsert [vd]) w Hs)
      as (_ & msg & ->). done.
Qed.

(** A delete that reports failure has left the table as it was. *)
Lemma delete_failure id w :
  success (SupabaseOperations.deleteAccessPoint id w).1 = false ->
  table (store (SupabaseOperations.deleteAccessPoint id w).2) = table (store w).
Proof.
  rewrite delete_run. cbn zeta. cbn [fst snd].
  destruct (decide (served (storeFaults (store w)))) as [Hs|Hs].
  - by destruct (storeCall_served (StoreDelete id)
                   (Postgres.delete (SupabaseOperations.eqId id)) w Hs) as (-> & _).
  - by destruct (storeCall_refused (StoreDelete id)
                   (Postgres.delete (SupabaseOperations.eqId id)) w Hs) as (-> & _).
Qed.

(** X12: a create that succeeds on both sides.  The coordinator returns the
    store's envelope; the store holds the row the envelope was read from
    and the index holds, under the same id, a vector of 1024 components
    made from the record the caller passed. *)
Theorem create_writes_store_and_index (accessPoint : AccessPoint) (w : World) :
  conforms accessPoint ->
  let created := SupabaseOperations.createAccessPoint accessPoint w in
  let indexed := PineconeOperations.upsertAccessPoint accessPoint created.2 in
  let final := DataSyncManager.createAccessPoint accessPoint w in
  success created.1 = true -> success indexed.1 = true ->
  final.1 = created.1
  /\ exists k row vector,
       JS.get "id" accessPoint = JS.VStr k
       /\ table (store final.2) !! k = Some row
       /\ data final.1 = Some (SupabaseOperations.toCamelCase row)
       /\ vectors (index final.2) !! k = Some vector
       /\ vd_id vector = JS.VStr k
       /\ length (vd_values vector) = 1024%nat.
Proof.
  intros Hconf. cbn zeta. intros Hok Hidx.
  rewrite manager_create_run. cbn zeta. rewrite Hok, Hidx. cbn [fst snd].
  split; [done|].
  destruct (create_success accessPoint w Hok) as (k & row & Hid & _ & Htable & Hres).
  rewrite toSnakeCase_id in Hid by done.
  destruct (upsert_success accessPoint _ Hidx) as (embedding & k' & Hemb & Hid' & Hvec).
  assert (k' = k) as -> by congruence.
  exists k, row, (PineconeOperations.vectorDataOf accessPoint embedding).
  split; [done|].
  split; [by rewrite pinecone_upsert_keepsStore, Htable, lookup_insert_eq|].
  split; [by rewrite Hres|].
  split; [by rewrite Hvec, lookup_insert_eq|].
  split; [done|].
  cbn [vd_values PineconeOperations.vectorDataOf].
  by apply generateEmbedding_length in Hemb.
Qed.

Lemma create_writes_store_and_index_witness :
  let final := DataSyncManager.createAccessPoint demoPoint quietWorld in
  final.1 = (SupabaseOperations.createAccessPoint demoPoint quietWorld).1
  /\ exists k row vector,
       JS.get "id" demoPoint = JS.VStr k
       /\ table (store final.2) !! k = Some row
       /\ data final.1 = Some (SupabaseOperations.toCamelCase row)
       /\ vectors (index final.2) !! k = Some vector
       /\ vd_id vector = JS.VStr k
       /\ length (vd_values vector) = 1024%nat.
Proof.
  apply (create_writes_store_and_index demoPoint quietWorld).
  - apply (bool_decide_unpack (conforms demoPoint)). vm_compute. reflexivity.
  - vm_compute. reflexivity.
  - vm_compute. reflexivity.
Defined.

(** X13: a create whose compensation fails too.  If the store write
    succeeds, the index upsert fails and the compensating delete fails as
    well, the coordinator still answers that it rolled the store back,
    while the row it created is still in the table. *)
Theorem failed_rollback_leaves_orphan_row (accessPoint : AccessPoint) (w : World) :
  conforms accessPoint ->
  let id := JS.get "id" accessPoint in
  let created := SupabaseOperations.createAccessPoint accessPoint w in
  let indexed := PineconeOperations.upsertAccessPoint accessPoint created.2 in
  let undone := SupabaseOperations.deleteAccessPoint id indexed.2 in
  let final := DataSyncManager.createAccessPoint accessPoint w in
  success created.1 = true -> success indexed.1 = false -> success undone.1 = false ->
  final.1 = failWith "Failed to sync to Pinecone, rolled back Supabase"
  /\ exists k, id = JS.VStr k
       /\ table (store w) !! k = None
       /\ is_Some (table (store final.2) !! k).
Proof.
  intros Hconf. cbn zeta. intros Hok Hidx Hdel.
  rewrite manager_create_run. cbn zeta. rewrite Hok, Hidx. cbn [fst snd].
  split; [done|].
  destruct (create_success accessPoint w Hok) as (k & row & Hid & Hfree & Htable & _).
  rewrite toSnakeCase_id in Hid by done.
  exists k. split; [done|]. split; [done|].
  rewrite (delete_failure _ _ Hdel), pinecone_upsert_keepsStore, Htable, lookup_insert_eq.
  by eexists.
Qed.

Lemma failed_rollback_leaves_orphan_row_witness :
  let w := troubled [Served; Thrown "connection reset"] [Thrown "index unavailable"] in
  let final := DataSyncManager.createAccessPoint demoPoint w in
  final.1 = failWith "Failed to sync to Pinecone, rolled back Supabase"
  /\ exists k, JS.get "id" demoPoint = JS.VStr k
       /\ table (store w) !! k = None
       /\ is_Some (table (store final.2) !! k).
Proof.
  apply (failed_rollback_leaves_orphan_row demoPoint
           (troubled [Served; Thrown "connection reset"] [Thrown "index unavailable"])).
  - apply (bool_decide_unpack (conforms demoPoint)). vm_compute. reflexivity.
  - vm_compute. reflexivity.
  - vm_compute. reflexivity.
  - vm_compute. reflexivity.
Defined.

End CreateOutcomes.

(* ===================================================================== *)
(** ** The coordinator: a record's life, both backends answering *)
(* ===================================================================== *)

Section Lifecycle.

Lemma create_quiet accessPoint k w :
  conforms accessPoint ->
  JS.get "id" accessPoint = JS.VStr k ->
  storeFaults (store w) = [] ->
  table (store w) !! k = None ->
  let created := SupabaseOperations.createAccessPoint accessPoint w in
  success created.1 = true
  /\ storeFaults (store created.2) = []
  /\ exists row, table (store created.2) = <[k := row]> (table (store w)).
Proof.
  intros Hconf Hid Hq Hfree. cbn zeta.
  rewrite create_run. cbn zeta. cbn [fst snd].
  set (row := stamped _ _ _).
  set (w2 := (now (now w).2).2).
  assert (Hstore : store w2 = store w) by (unfold w2; by rewrite !now_keepsStore).
  assert (Hs : served (storeFaults (store w2))) by (by rewrite Hstore, Hq).
  destruct (storeCall_served (StoreInsert row)
              (fun s => Postgres.single (Postgres.insert row s)) w2 Hs) as (-> & -> & ->).
  unfold Postgres.insert. rewrite Hstore, Hq.
  assert (Hrowid : JS.get "id" row = JS.VStr k)
    by (unfold row; by rewrite stamped_id, toSnakeCase_id).
  rewrite Hrowid, Hfree. cbn. split; [done|]. split; [done|]. by eexists.
Qed.

Lemma upsert_quiet accessPoint k caps tags w :
  JS.get "id" accessPoint = JS.VStr k ->
  JS.get "capabilities" accessPoint = JS.VArr caps ->
  JS.get "tags" accessPoint = JS.VArr tags ->
  indexFaults (index w) = [] ->
  let indexed := PineconeOperations.upsertAccessPoint accessPoint w in
  indexed.1 = succeed
  /\ indexFaults (index indexed.2) = []
  /\ exists vector, vectors (index indexed.2) = <[k := vector]> (vectors (index w)).
Proof.
  intros Hid Hcaps Htags Hq. cbn zeta. rewrite upsert_run.
  destruct (textToEmbed_total accessPoint caps tags Hcaps Htags) as [text Htext].
  assert (Hemb : PineconeOperations.generateEmbedding (openaiKey w) accessPoint
                 = JS.Ok (PineconeOperations.hashVector text)).
  { unfold PineconeOperations.generateEmbedding. rewrite Htext.
    cbn. by destruct (openaiKey w). }
  rewrite Hemb. cbn zeta.
  unfold indexCall, PineconeService.upsert. rewrite Hq.
  cbn [PineconeService.putAll PineconeOperations.vectorDataOf vd_id].
  rewrite Hid. cbn. split; [done|]. split; [done|]. by eexists.
Qed.

Lemma store_delete_quiet id w :
  storeFaults (store w) = [] ->
  let deleted := SupabaseOperations.deleteAccessPoint id w in
  deleted.1 = succeed
  /\ storeFaults (store deleted.2) = []
  /\ table (store deleted.2) = delete (SupabaseOperations.eqId id) (table (store w)).
Proof.
  intros Hq. cbn zeta. rewrite delete_run. cbn zeta.
  unfold storeCall, Postgres.delete. rewrite Hq. done.
Qed.

Lemma index_delete_quiet k w :
  indexFaults (index w) = [] ->
  let deleted := PineconeOperations.deleteAccessPoint (JS.VStr k) w in
  deleted.1 = succeed
  /\ vectors (index deleted.2) = delete k (vectors (index w)).
Proof.
  intros Hq. cbn zeta. rewrite index_delete_run. cbn zeta.
  unfold indexCall, PineconeService.deleteOne. rewrite Hq. done.
Qed.

(** X14: the life of a record when both backends answer every request.
    For a record that conforms to the interface, has a string id no row
    carries yet and has arrays under [capabilities] and [tags]: create
    succeeds; reading the id returns what create returned; delete
    succeeds; reading the id again is the not-found failure; and after the
    delete the table is what it was before the create and the index has no
    entry under the id. *)
Theorem create_read_delete_read (accessPoint : AccessPoint) (k : string)
    (caps tags : list string) (w : World) :
  conforms accessPoint ->
  JS.get "id" accessPoint = JS.VStr k ->
  JS.get "capabilities" accessPoint = JS.VArr caps ->
  JS.get "tags" accessPoint = JS.VArr tags ->
  storeFaults (store w) = [] -> indexFaults (index w) = [] ->
  table (store w) !! k = None ->
  let id := JS.VStr k in
  let created := DataSyncManager.createAccessPoint accessPoint w in
  let read := DataSyncManager.getAccessPoint id created.2 in
  let deleted := DataSyncManager.deleteAccessPoint id read.2 in
  let reread := DataSyncManager.getAccessPoint id deleted.2 in
  success created.1 = true
  /\ read.1 = created.1
  /\ deleted.1 = succeed
  /\ reread.1 = failWith (SupabaseOperations.notFound id)
  /\ table (store deleted.2) = table (store w)
  /\ vectors (index deleted.2) !! k = None.
Proof.
  intros Hconf Hid Hcaps Htags Hqs Hqi Hfree. cbn zeta.
  unfold DataSyncManager.getAccessPoint.
  (* create *)
  destruct (create_quiet accessPoint k w Hconf Hid Hqs Hfree) as (Hok & Hqs1 & row & Ht1).
  cbn zeta in *.
  set (w1 := (SupabaseOperations.createAccessPoint accessPoint w).2) in *.
  assert (Hqi1 : indexFaults (index w1) = [])
    by (unfold w1; by rewrite supabase_create_keepsIndex).
  destruct (upsert_quiet accessPoint k caps tags w1 Hid Hcaps Htags Hqi1)
    as (Hidx & Hqi2 & vector & Hv2).
  cbn zeta in *.
  rewrite manager_create_run. cbn zeta. fold w1. rewrite Hok, Hidx. cbn [success succeed fst snd].
  set (w2 := (PineconeOperations.upsertAccessPoint accessPoint w1).2) in *.
  assert (Hs2 : store w2 = store w1) by apply pinecone_upsert_keepsStore.
  split; [done|].
  (* read *)
  assert (Hrow2 : table (store w2) !! SupabaseOperations.eqId (JS.VStr k) = Some row)
    by (rewrite Hs2, Ht1; apply lookup_insert_eq).
  destruct (get_quiet (JS.VStr k) w2 ltac:(by rewrite Hs2)) as [Hqs3 Hread].
  rewrite Hrow2 in Hread.
  destruct (create_success accessPoint w Hok) as (k' & row' & _ & _ & Ht1' & Hres).
  fold w1 in Ht1'.
  assert (row' = row) as ->.
  { assert (Hl : table (store w1) !! k = Some row) by (rewrite Ht1; apply lookup_insert_eq).
    assert (k' = k) as ->.
    { destruct (decide (k' = k)) as [|Hne]; [done|].
      rewrite Ht1', lookup_insert_ne, Hfree in Hl by done. done. }
    rewrite Ht1', lookup_insert_eq in Hl. congruence. }
  split; [by rewrite Hread, Hres|].
  set (w3 := (SupabaseOperations.getAccessPoint (JS.VStr k) w2).2) in *.
  assert (Ht3 : table (store w3) = table (store w2)) by apply get_table.
  assert (Hi3 : index w3 = index w2) by apply supabase_get_keepsIndex.
  (* delete *)
  destruct (delete_answer (JS.VStr k) w3) as [[Hsd Hid'] Hrd]. cbn zeta in *.
  destruct (store_delete_quiet (JS.VStr k) w3 Hqs3) as (Hsdel & Hqs4 & Ht4).
  destruct (index_delete_quiet k w3 ltac:(by rewrite Hi3)) as (_ & Hv4).
  cbn zeta in *.
  rewrite Hrd, Hsdel. cbn [success succeed orb].
  split; [done|].
  set (w4 := (DataSyncManager.deleteAccessPoint (JS.VStr k) w3).2) in *.
  assert (Ht4' : table (store w4) = table (store w)).
  { rewrite Hsd, Ht4, Ht3, Hs2, Ht1. cbn [SupabaseOperations.eqId JS.toStr].
    by apply delete_insert_id. }
  split.
  - apply get_absent; [|by rewrite Hsd, Hqs4].
    by rewrite Ht4'.
  - split; [done|]. rewrite Hid', Hv4. apply lookup_delete_eq.
Qed.

Lemma create_read_delete_read_witness :
  let id := JS.VStr "x1" in
  let created := DataSyncManager.createAccessPoint demoPoint quietWorld in
  let read := DataSyncManager.getAccessPoint id created.2 in
  let deleted := DataSyncManager.deleteAccessPoint id read.2 in
  let reread := DataSyncManager.getAccessPoint id deleted.2 in
  success created.1 = true
  /\ read.1 = created.1
  /\ deleted.1 = succeed
  /\ reread.1 = failWith (SupabaseOperations.notFound id)
  /\ table (store deleted.2) = table (store quietWorld)
  /\ vectors (index deleted.2) !! "x1" = None.
Proof.
  apply (create_read_delete_read demoPoint "x1" ["create-pod"] ["demo"] quietWorld);
    try reflexivity.
  apply (bool_decide_unpack (conforms demoPoint)). vm_compute. reflexivity.
Defined.

End Lifecycle.

(* ===================================================================== *)
(** ** What comes back from the store: property names *)
(* ===================================================================== *)

Section ReturnedNames.

Import SupabaseOperations.

Lemma keys_set key v (o : JS.Obj) x :
  x ∈ (JS.set key v o).*1 -> x = key \/ x ∈ o.*1.
Proof.
  induction o as [|[k w] r IH]; cbn [JS.set].
  - rewrite fmap_cons, fmap_nil. intros [->|[]%elem_of_nil]%elem_of_cons. by left.
  - destruct (String.eqb k key); rewrite !fmap_cons; cbn [fst];
      intros [->|Hx]%elem_of_cons.
    + right. by left.
    + right. by right.
    + right. by left.
    + destruct (IH Hx) as [->|?]; [by left | right; by right].
Qed.

Lemma keys_renamed (convert : string * JS.Value -> string) (o : JS.Obj) : forall acc x,
  x ∈ (fold_left (fun newObj kv => JS.set (convert kv) kv.2 newObj) o acc).*1 ->
  x ∈ acc.*1 \/ exists kv, kv ∈ o /\ x = convert kv.
Proof.
  induction o as [|kv r IH]; intros acc x; cbn [fold_left]; [by left|].
  intros [Hacc|(kv' & Hin & ->)]%IH.
  - apply keys_set in Hacc as [->|?]; [|by left].
    right. exists kv. split; [left | done].
  - right. exists kv'. split; [by right | done].
Qed.

Lemma NoDup_set key v (o : JS.Obj) : NoDup o.*1 -> NoDup (JS.set key v o).*1.
Proof.
  induction o as [|[k w] r IH]; cbn [JS.set].
  - intros _. rewrite fmap_cons, fmap_nil. apply NoDup_singleton.
  - rewrite fmap_cons. cbn [fst]. intros [Hk Hr]%NoDup_cons.
    destruct (String.eqb_spec k key) as [->|Hne]; rewrite fmap_cons; cbn [fst].
    + by apply NoDup_cons.
    + apply NoDup_cons. split; [|by apply IH].
      intros [->|?]%keys_set; done.
Qed.

Lemma NoDup_renamed (convert : string * JS.Value -> string) (o : JS.Obj) : forall acc,
  NoDup acc.*1 ->
  NoDup (fold_left (fun newObj kv => JS.set (convert kv) kv.2 newObj) o acc).*1.
Proof.
  induction o as [|kv r IH]; intros acc Hacc; cbn [fold_left]; [done|].
  by apply IH, NoDup_set.
Qed.

(** Building an object key by key under converted names: if exactly the
    property [source] is converted to [target], then [target] holds what
    [source] held. *)
Lemma obj_get_renamed (convert : string * JS.Value -> string) source target (o : JS.Obj) :
  NoDup o.*1 ->
  (forall kv, kv ∈ o -> convert kv = target <-> kv.1 = source) ->
  forall acc,
    JS.get target (fold_left (fun newObj kv => JS.set (convert kv) kv.2 newObj) o acc)
    = if bool_decide (source ∈ o.*1) then JS.get source o else JS.get target acc.
Proof.
  induction o as [|[k v] r IH]; intros Hnd Hconv acc; [done|].
  rewrite fmap_cons in *. apply NoDup_cons in Hnd as [Hk Hnd].
  cbn [fold_left JS.get fst snd] in *.
  rewrite IH; [|done|intros kv Hkv; apply Hconv; by right].
  destruct (String.eqb_spec k source) as [->|Hne].
  - rewrite (bool_decide_eq_false_2 _ Hk),
      (bool_decide_eq_true_2 (source ∈ source :: r.*1)) by left.
    replace (convert (source, v)) with target
      by (symmetry; apply (Hconv (source, v)); [left|done]).
    apply obj_get_set_eq.
  - assert (convert (k, v) <> target) by (rewrite (Hconv (k, v)); [done|left]).
    destruct (decide (source ∈ r.*1)) as [Hin|Hout].
    + rewrite !bool_decide_eq_true_2; [done| by right | done].
    + rewrite !bool_decide_eq_false_2; [by rewrite obj_get_set_ne| |done].
      intros [?|?]%elem_of_cons; congruence.
Qed.

Lemma obj_get_elem (o : JS.Obj) key v :
  NoDup o.*1 -> (key, v) ∈ o -> JS.get key o = v.
Proof.
  induction o as [|[k w] r IH]; [by intros _ ?%elem_of_nil|].
  rewrite fmap_cons. intros [Hk Hr]%NoDup_cons [[= -> ->]|Hin]%elem_of_cons; cbn [JS.get].
  - by rewrite String.eqb_refl.
  - destruct (String.eqb_spec k key) as [->|]; [|by apply IH].
    destruct Hk. apply list_elem_of_fmap. by exists (key, v).
Qed.

Lemma toSnakeCase_fold (o : JS.Obj) :
  toSnakeCase (Some o)
  = fold_left (fun newObj kv => JS.set (columnOf kv) kv.2 newObj) o [].
Proof.
  unfold toSnakeCase. apply fold_left_pointwise.
  intros acc [k v]. unfold columnOf. by destruct v.
Qed.

Lemma columnOf_sent accessPoint kv :
  conforms accessPoint -> kv ∈ accessPoint -> columnOf kv ∈ sentColumns.
Proof.
  intros [_ Hfields] Hkv.
  assert (Hk : kv.1 ∈ accessPointFields).
  { rewrite Forall_forall in Hfields. apply Hfields, list_elem_of_fmap. by exists kv. }
  unfold sentColumns, columnOf. rewrite !elem_of_app.
  destruct kv.2.
  - right; left. apply list_elem_of_fmap. by exists kv.1.
  - right; left. apply list_elem_of_fmap. by exists kv.1.
  - left. apply list_elem_of_fmap. by exists kv.1.
  - left. apply list_elem_of_fmap. by exists kv.1.
  - left. apply list_elem_of_fmap. by exists kv.1.
Qed.

(** Every column of a row sent for a conforming record is a known one. *)
Lemma stamped_columns accessPoint created_at updated_at column :
  conforms accessPoint ->
  column ∈ (stamped accessPoint created_at updated_at).*1 -> column ∈ sentColumns.
Proof.
  intros Hconf. unfold stamped, JS.spread. cbn [fold_left fst snd].
  intros [->|[->|Hin]%keys_set]%keys_set.
  - unfold sentColumns. rewrite !elem_of_app. right; right. right. left.
  - unfold sentColumns. rewrite !elem_of_app. right; right. left.
  - rewrite toSnakeCase_fold in Hin.
    apply keys_renamed in Hin as [[]%elem_of_nil|(kv & Hkv & ->)].
    by eapply columnOf_sent.
Qed.

Lemma stamped_NoDup accessPoint created_at updated_at :
  NoDup (stamped accessPoint created_at updated_at).*1.
Proof.
  unfold stamped, JS.spread. cbn [fold_left fst snd].
  do 2 apply NoDup_set. rewrite toSnakeCase_fold. apply NoDup_renamed, NoDup_nil_2.
Qed.

Lemma toCamelCase_fold (row : JS.Obj) :
  toCamelCase row
  = fold_left (fun newObj kv => JS.set (camelKey kv.1) kv.2 newObj) row [].
Proof. reflexivity. Qed.

Lemma caller_fields_own_column :
  forallb (fun field => columnIsOwn field && readBackIsOwn field) callerFields = true.
Proof. vm_compute. reflexivity. Qed.

Lemma caller_fields_keep_stamps :
  forallb (fun field =>
    negb (String.eqb (snakeKey field) "created_at")
    && negb (String.eqb (snakeKey field) "updated_at")) callerFields = true.
Proof. vm_compute. reflexivity. Qed.

Lemma acronyms_never_read_back :
  forallb (fun column =>
    negb (String.eqb (camelKey column) "subnetID")
    && negb (String.eqb (camelKey column) "subnetURL")) sentColumns = true.
Proof. vm_compute. reflexivity. Qed.

(** What a successful create returns is the stamped row read back. *)
Lemma create_returns_stamped accessPoint w :
  success (createAccessPoint accessPoint w).1 = true ->
  data (createAccessPoint accessPoint w).1
  = Some (toCamelCase (stamped accessPoint (now w).1 (now (now w).2).1)).
Proof.
  rewrite create_run. cbn zeta. cbn [fst snd].
  set (row := stamped _ _ _).
  set (w2 := (now (now w).2).2).
  destruct (decide (served (storeFaults (store w2)))) as [Hs|Hs].
  - destruct (storeCall_served (StoreInsert row)
                (fun s => Postgres.single (Postgres.insert row s)) w2 Hs) as (-> & _).
    unfold Postgres.insert.
    destruct (JS.get "id" row); try done.
    by destruct (table (store w2) !! s).
  - destruct (storeCall_refused (StoreInsert row)
                (fun s => Postgres.single (Postgres.insert row s)) w2 Hs)
      as (_ & [(c & m & ->) | (m & ->)]); done.
Qed.

(** X15: the names of what create returns.  For a record that conforms to
    the interface, every value the caller supplied that is neither null nor
    undefined comes back under the name obtained by converting the property
    name to snake_case and back; the returned object has no [subnetID] and
    no [subnetURL] property at all, whatever the record carried there. *)
Theorem created_record_comes_back_renamed
    (accessPoint : AccessPoint) (w : World) :
  conforms accessPoint ->
  success (createAccessPoint accessPoint w).1 = true ->
  exists returned,
    data (createAccessPoint accessPoint w).1 = Some returned
    /\ JS.get "subnetID" returned = JS.VUndefined
    /\ JS.get "subnetURL" returned = JS.VUndefined
    /\ forall field v,
         field ∈ callerFields -> (field, v) ∈ accessPoint ->
         v <> JS.VNull -> v <> JS.VUndefined ->
         JS.get (camelKey (snakeKey field)) returned = v.
Proof.
  intros Hconf Hok.
  set (row := stamped accessPoint (now w).1 (now (now w).2).1).
  exists (toCamelCase row). split; [by apply create_returns_stamped|].
  assert (Habsent : forall name,
            forallb (fun column => negb (String.eqb (camelKey column) name)) sentColumns = true ->
            JS.get name (toCamelCase row) = JS.VUndefined).
  { intros name Hall. apply obj_get_absent. rewrite toCamelCase_fold.
    intros [[]%elem_of_nil|(kv & Hkv & Hname)]%keys_renamed.
    rewrite forallb_forall in Hall.
    assert (Hcol : kv.1 ∈ sentColumns).
    { apply (stamped_columns accessPoint (now w).1 (now (now w).2).1); [done|].
      apply list_elem_of_fmap. by exists kv. }
    apply list_elem_of_In, Hall in Hcol.
    apply negb_true_iff, String.eqb_neq in Hcol. congruence. }
  split; [|split].
  - apply Habsent. vm_compute. reflexivity.
  - apply Habsent. vm_compute. reflexivity.
  - intros field v Hfield Hin Hnull Hundef.
    pose proof caller_fields_own_column as Hown. rewrite forallb_forall in Hown.
    pose proof (Hfield) as Hfield'.
    apply list_elem_of_In, Hown, andb_true_iff in Hfield' as [Hcolumn Hback].
    unfold columnIsOwn in Hcolumn. unfold readBackIsOwn in Hback.
    rewrite forallb_forall in Hcolumn, Hback.
    destruct Hconf as [Hnd Hfields].
    (* reading back *)
    rewrite toCamelCase_fold.
    rewrite (obj_get_renamed (fun kv => camelKey kv.1) (snakeKey field)); cycle 1.
    { apply stamped_NoDup. }
    { intros kv Hkv. split; [|by intros ->].
      intros Hcamel.
      assert (Hcol : kv.1 ∈ sentColumns).
      { apply (stamped_columns accessPoint (now w).1 (now (now w).2).1); [done|].
        apply list_elem_of_fmap. by exists kv. }
      apply list_elem_of_In, Hback in Hcol.
      apply orb_true_iff in Hcol as [Heq|Hne]; [by apply String.eqb_eq|].
      apply negb_true_iff, String.eqb_neq in Hne. done. }
    (* the stamps do not touch the column *)
    assert (Hstamps : snakeKey field <> "created_at" /\ snakeKey field <> "updated_at").
    { unfold callerFields in Hfield. apply list_elem_of_filter in Hfield as [[H1 H2] Hf].
      pose proof caller_fields_keep_stamps as Hkeep. rewrite forallb_forall in Hkeep.
      assert (Hc : field ∈ callerFields)
        by (apply list_elem_of_filter; split; [done|exact Hf]).
      apply list_elem_of_In, Hkeep, andb_true_iff in Hc as [Hc1 Hc2].
      apply negb_true_iff, String.eqb_neq in Hc1, Hc2. done. }
    assert (Hrow : JS.get (snakeKey field) row = v).
    { unfold row, stamped, JS.spread. cbn [fold_left fst snd].
      rewrite !obj_get_set_ne by (intros ?; by destruct Hstamps).
      rewrite toSnakeCase_fold.
      rewrite (obj_get_renamed columnOf field); [| done |].
      - rewrite bool_decide_eq_true_2
          by (apply list_elem_of_fmap; by exists (field, v)).
        by apply obj_get_elem.
      - intros [k u] Hkv. cbn [fst]. split.
        + intros Hcol.
          assert (Hk : k ∈ accessPointFields).
          { rewrite Forall_forall in Hfields. apply Hfields, list_elem_of_fmap.
            by exists (k, u). }
          apply list_elem_of_In, Hcolumn in Hk.
          apply orb_true_iff in Hk as [Heq|Hne]; [by apply String.eqb_eq|].
          apply andb_true_iff in Hne as [H1 H2].
          apply negb_true_iff, String.eqb_neq in H1, H2.
          unfold columnOf in Hcol. cbn [fst snd] in Hcol. by destruct u.
        + intros ->. assert (u = v) as ->.
          { rewrite <- (obj_get_elem accessPoint field u), <- (obj_get_elem accessPoint field v);
              done. }
          unfold columnOf. cbn [fst snd]. by destruct v. }
    case_bool_decide as Hhas; [done|].
    destruct Hhas. apply list_elem_of_fmap.
    assert (Hget : JS.get (snakeKey field) row <> JS.VUndefined) by (by rewrite Hrow).
    destruct (decide (snakeKey field ∈ row.*1)) as [Hin'|Hout].
    + apply list_elem_of_fmap in Hin' as (kv & -> & Hkv). by exists kv.
    + by apply obj_get_absent in Hout.
Qed.

Lemma created_record_comes_back_renamed_witness :
  exists returned,
    data (createAccessPoint demoPoint quietWorld).1 = Some returned
    /\ JS.get "subnetID" returned = JS.VUndefined
    /\ JS.get "subnetURL" returned = JS.VUndefined
    /\ JS.get "subnetId" returned = JS.VStr "1"
    /\ JS.get "inputType" returned = JS.VStr "text".
Proof.
  destruct (created_record_comes_back_renamed demoPoint quietWorld)
    as (returned & Hdata & Hid & Hurl & Hall).
  - apply (bool_decide_unpack (conforms demoPoint)). vm_compute. reflexivity.
  - vm_compute. reflexivity.
  - exists returned. repeat split; try assumption.
    + assert (Hname : camelKey (snakeKey "subnetID") = "subnetId")
        by (vm_compute; reflexivity).
      rewrite <- Hname.
      apply (Hall "subnetID" (JS.VStr "1")).
      * apply (bool_decide_unpack ("subnetID" ∈ callerFields)). vm_compute. reflexivity.
      * unfold demoPoint. right. left.
      * discriminate.
      * discriminate.
    + assert (Hname : camelKey (snakeKey "inputType") = "inputType")
        by (vm_compute; reflexivity).
      rewrite <- Hname.
      apply (Hall "inputType" (JS.VStr "text")).
      * apply (bool_decide_unpack ("inputType" ∈ callerFields)). vm_compute. reflexivity.
      * unfold demoPoint. do 6 right. left.
      * discriminate.
      * discriminate.
Defined.

End ReturnedNames.

(* ===================================================================== *)
(** ** The coordinator: what an update writes to the index, and search *)
(* ===================================================================== *)

Section UpdateAndSearch.

Import SupabaseOperations.

Lemma keys_spread (a b : JS.Obj) x :
  x ∈ (JS.spread a b).*1 -> x ∈ a.*1 \/ x ∈ b.*1.
Proof.
  unfold JS.spread.
  intros [?|(kv & Hkv & ->)]%(keys_renamed fst); [by left|].
  right. apply list_elem_of_fmap. by exists kv.
Qed.

Lemma stampedUpdate_columns updates updated_at column :
  conforms updates ->
  column ∈ (stampedUpdate updates updated_at).*1 -> column ∈ sentColumns.
Proof.
  intros Hconf. unfold stampedUpdate, JS.spread. cbn [fold_left fst snd].
  intros [->|Hin]%keys_set.
  - unfold sentColumns. rewrite !elem_of_app. right; right. right. left.
  - rewrite toSnakeCase_fold in Hin.
    apply keys_renamed in Hin as [[]%elem_of_nil|(kv & Hkv & ->)].
    by eapply columnOf_sent.
Qed.

(** A row whose columns are all known ones is read back without a
    [subnetID] property. *)
Lemma known_columns_lose_subnetID (row : JS.Obj) :
  Forall (fun column => column ∈ sentColumns) row.*1 ->
  JS.get "subnetID" (toCamelCase row) = JS.VUndefined.
Proof.
  intros Hcols. apply obj_get_absent. rewrite toCamelCase_fold.
  intros [[]%elem_of_nil|(kv & Hkv & Hname)]%keys_renamed.
  pose proof acronyms_never_read_back as Hall. rewrite forallb_forall in Hall.
  assert (Hcol : kv.1 ∈ sentColumns).
  { rewrite Forall_forall in Hcols. apply Hcols, list_elem_of_fmap. by exists kv. }
  apply list_elem_of_In, Hall, andb_true_iff in Hcol as [Hcol _].
  apply negb_true_iff, String.eqb_neq in Hcol. congruence.
Qed.

(** X16: what a coordinator update writes to the index.  When the row has
    only known columns and the update conforms to the interface, the full
    record the store returns has no [subnetID], so the entry the
    coordinator sends to the index carries [undefined] as its [subnetID]
    metadata, whatever subnet the row belongs to. *)
Theorem update_indexes_undefined_subnetID
    (id : JS.Value) (updates old : JS.Obj) (w : World) :
  table (store w) !! eqId id = Some old ->
  Forall (fun column => column ∈ sentColumns) old.*1 ->
  conforms updates ->
  let final := DataSyncManager.updateAccessPoint id updates w in
  success (updateAccessPoint id updates w).1 = true ->
  exists full,
    data final.1 = Some full
    /\ JS.get "subnetID" full = JS.VUndefined
    /\ forall key embedding,
         PineconeOperations.generateEmbedding key full = JS.Ok embedding ->
         exists sent,
           last (indexLog (index final.2)) = Some (IndexUpsert [sent])
           /\ vd_values sent = embedding
           /\ JS.get "subnetID" (vd_metadata sent) = JS.VUndefined.
Proof.
  intros Hold Hcols Hconf. cbn zeta. intros Hok.
  destruct (update_success id updates w Hok) as (old' & k & Hold' & Hres & _ & _).
  assert (old' = old) as -> by congruence.
  set (merged := JS.spread old (stampedUpdate updates (now w).1)) in *.
  exists (toCamelCase merged).
  rewrite manager_update_run. cbn zeta. rewrite Hok, Hres.
  cbn [fst snd data succeedWith DataSyncManager.reindex].
  split; [done|].
  assert (Hlost : JS.get "subnetID" (toCamelCase merged) = JS.VUndefined).
  { apply known_columns_lose_subnetID, Forall_forall. intros column Hin.
    apply keys_spread in Hin as [Hin|Hin].
    - rewrite Forall_forall in Hcols. by apply Hcols.
    - by eapply stampedUpdate_columns. }
  split; [done|].
  intros key embedding Hemb.
  exists (PineconeOperations.vectorDataOf (toCamelCase merged) embedding).
  unfold PineconeOperations.updateAccessPoint. rewrite upsert_run.
  rewrite (generateEmbedding_env _ key), Hemb. cbn zeta. cbn [snd].
  rewrite indexCall_log, last_snoc.
  split; [done|]. split; [done|].
  cbn [vd_metadata PineconeOperations.vectorDataOf JS.get].
  change (String.eqb "id" "subnetID") with false.
  change (String.eqb "subnetID" "subnetID") with true. cbn match. exact Hlost.
Qed.

Lemma update_indexes_undefined_subnetID_witness :
  let final := DataSyncManager.updateAccessPoint (JS.VStr "x1")
                 [("description", JS.VStr "new")] storedDemo in
  JS.get "subnet_id" <$> (table (store storedDemo) !! "x1") = Some (JS.VStr "1")
  /\ exists full,
       data final.1 = Some full
       /\ JS.get "subnetID" full = JS.VUndefined
       /\ forall key embedding,
            PineconeOperations.generateEmbedding key full = JS.Ok embedding ->
            exists sent,
              last (indexLog (index final.2)) = Some (IndexUpsert [sent])
              /\ vd_values sent = embedding
              /\ JS.get "subnetID" (vd_metadata sent) = JS.VUndefined.
Proof.
  split; [vm_compute; reflexivity|].
  assert (Hrow : exists old, table (store storedDemo) !! "x1" = Some old
                   /\ forallb (fun column => bool_decide (column ∈ sentColumns)) old.*1 = true).
  { vm_compute. eexists. split; reflexivity. }
  destruct Hrow as (old & Hold & Hcols).
  apply (update_indexes_undefined_subnetID (JS.VStr "x1")
           [("description", JS.VStr "new")] old storedDemo).
  - exact Hold.
  - apply Forall_forall. intros column Hin. rewrite forallb_forall in Hcols.
    apply list_elem_of_In, Hcols in Hin. by apply bool_decide_eq_true_1 in Hin.
  - apply (bool_decide_unpack (conforms [("description", JS.VStr "new")])).
    vm_compute. reflexivity.
  - vm_compute. reflexivity.
Defined.

Lemma refetch_length ids : forall w,
  (length (Reference.refetch ids w).1 <= length ids)%nat.
Proof.
  induction ids as [|id rest IH]; intros w; [done|].
  cbn [Reference.refetch length].
  specialize (IH (getAccessPoint id w).2).
  destruct (success (getAccessPoint id w).1), (data (getAccessPoint id w).1);
    cbn [fst length]; lia.
Qed.

(** X17: a search never returns more records than the index ranked, and
    reports success even when the store resolves none of them. *)
Theorem search_returns_at_most_ranked (query : string) (topK : nat) (w : World) :
  let ranked := PineconeOperations.searchSimilar query topK w in
  let final := DataSyncManager.searchAccessPoints query topK w in
  success ranked.1 = true ->
  success final.1 = true
  /\ exists matches records,
       data ranked.1 = Some matches
       /\ data final.1 = Some records
       /\ (length records <= length matches)%nat.
Proof.
  cbn zeta. intros Hok. rewrite manager_search_run. cbn zeta. rewrite Hok.
  destruct (search_similar_success query topK w Hok) as [matches Hm].
  rewrite Hm. cbn [default fst succeedWith success data]. split; [done|].
  eexists matches, _. split; [done|]. split; [done|].
  etransitivity; [apply refetch_length|]. by rewrite length_map.
Qed.

Lemma search_returns_at_most_ranked_witness :
  let final := DataSyncManager.searchAccessPoints "demo" 10 driftedWorld in
  success final.1 = true
  /\ exists matches records,
       data (PineconeOperations.searchSimilar "demo" 10 driftedWorld).1 = Some matches
       /\ data final.1 = Some records
       /\ (length records <= length matches)%nat.
Proof.
  apply (search_returns_at_most_ranked "demo" 10 driftedWorld). vm_compute. reflexivity.
Defined.

(** X18: a similarity query is always sent.  Whatever the query text, the
    empty one included, the adapter builds a query vector of 1024
    components and sends one query with it; when the index answers, the
    call succeeds with the index's matches (none, if the index returns no
    list) and the index's records are as before. *)
Theorem similarity_query_is_always_sent (query : string) (topK : nat) (w : World) :
  exists vector,
    length vector = 1024%nat
    /\ PineconeOperations.generateEmbedding (openaiKey w)
         (PineconeOperations.queryAccessPoint query) = JS.Ok vector
    /\ indexLog (index (PineconeOperations.searchSimilar query topK w).2)
       = (indexLog (index w) ++ [IndexQuery vector topK])%list
    /\ (served (indexFaults (index w)) ->
          (PineconeOperations.searchSimilar query topK w).1
          = succeedWith (default [] (nearest (index w) vector topK (vectors (index w))))
          /\ vectors (index (PineconeOperations.searchSimilar query topK w).2)
             = vectors (index w)).
Proof.
  destruct (textToEmbed_total (PineconeOperations.queryAccessPoint query) [] (JS.split query)
              eq_refl eq_refl) as [text Htext].
  exists (PineconeOperations.hashVector text).
  assert (Hemb : PineconeOperations.generateEmbedding (openaiKey w)
                   (PineconeOperations.queryAccessPoint query)
                 = JS.Ok (PineconeOperations.hashVector text)).
  { unfold PineconeOperations.generateEmbedding. rewrite Htext. cbn.
    by destruct (openaiKey w). }
  split; [apply hashVector_length|]. split; [done|].
  unfold PineconeOperations.searchSimilar. rewrite bind_run.
  cbn [processEnv fst snd]. rewrite Hemb, bind_run.
  set (call := indexCall _ _ w).
  assert (Hlog : indexLog (index call.2)
                 = (indexLog (index w)
                    ++ [IndexQuery (PineconeOperations.hashVector text) topK])%list)
    by apply indexCall_log.
  split.
  - by destruct call.1.
  - intros Hs.
    destruct (indexCall_served (IndexQuery (PineconeOperations.hashVector text) topK)
                (PineconeService.query (PineconeOperations.hashVector text) topK) w Hs)
      as (Hr & Hv).
    fold call in Hr, Hv. rewrite Hr. cbn [PineconeService.query fst snd] in *.
    split; [done|]. by rewrite <- Hv.
Qed.

Lemma similarity_query_is_always_sent_witness :
  exists vector,
    length vector = 1024%nat
    /\ (PineconeOperations.searchSimilar "" 10 driftedWorld).1
       = succeedWith [[("id", JS.VStr "gone")]; [("id", JS.VStr "x1")]]
    /\ indexLog (index (PineconeOperations.searchSimilar "" 10 driftedWorld).2)
       = [IndexQuery vector 10].
Proof.
  destruct (similarity_query_is_always_sent "" 10 driftedWorld)
    as (vector & Hlen & _ & Hlog & Hserved).
  exists vector. split; [exact Hlen|].
  destruct Hserved as [Hres _]; [exact I|].
  split; [rewrite Hres; reflexivity | exact Hlog].
Defined.

End UpdateAndSearch.

(* ===================================================================== *)
(** ** databaseOperations.ts: statements, writes and reads *)
(* ===================================================================== *)

Section DatabaseAdapter.

Import DatabaseOperations.







End DatabaseAdapter.

(* ===================================================================== *)
(** ** Bulk sync of a well-formed batch, and the seed data *)
(* ===================================================================== *)

Section BulkSyncQuiet.

Lemma wellFormedRecord_spec accessPoint :
  wellFormedRecord accessPoint = true -> conforms accessPoint /\ indexable accessPoint.
Proof.
  unfold wellFormedRecord, indexable. intros [Hc Hshape]%andb_true_iff.
  split; [by apply bool_decide_eq_true_1 in Hc|].
  destruct (JS.get "id" accessPoint); try discriminate Hshape.
  destruct (JS.get "capabilities" accessPoint); try discriminate Hshape.
  destruct (JS.get "tags" accessPoint); try discriminate Hshape.
  repeat split; eauto.
Qed.

Lemma stampRows_rows accessPoints : forall w,
  store (SupabaseOperations.stampRows accessPoints w).2 = store w
  /\ Forall2 (fun ap row => exists c u, row = stamped ap c u)
       accessPoints (SupabaseOperations.stampRows accessPoints w).1.
Proof.
  induction accessPoints as [|ap rest IH]; intros w; [by split|].
  cbn [SupabaseOperations.stampRows]. rewrite !bind_run. cbn zeta.
  destruct (IH (now (now w).2).2) as [Hstore Hrows].
  unfold mret, M_ret. cbn [fst snd]. split.
  - by rewrite Hstore, !now_keepsStore.
  - constructor; [|done]. by eexists _, _.
Qed.

Lemma upsertRows_all (rows : list JS.Obj) : forall seen t,
  Forall (fun row => exists k, JS.get "id" row = JS.VStr k) rows ->
  NoDup (map (JS.get "id") rows) ->
  (forall row k, row ∈ rows -> JS.get "id" row = JS.VStr k -> k ∉ seen) ->
  exists t', Postgres.upsertRows rows seen t = inr t'
    /\ (forall k, is_Some (t !! k) -> is_Some (t' !! k))
    /\ (forall row k, row ∈ rows -> JS.get "id" row = JS.VStr k -> is_Some (t' !! k)).
Proof.
  induction rows as [|row rest IH]; intros seen t Hids Hnd Hseen.
  - exists t. split; [done|]. split; [done|]. by intros ? ? ?%elem_of_nil.
  - apply Forall_cons in Hids as [[k Hk] Hids].
    cbn [map] in Hnd. apply NoDup_cons in Hnd as [Hfresh Hnd].
    cbn [Postgres.upsertRows]. rewrite Hk.
    rewrite bool_decide_eq_false_2 by (apply (Hseen row k); [left | done]).
    destruct (IH (k :: seen) (<[k := JS.spread (default [] (t !! k)) row]> t) Hids Hnd)
      as (t' & Hres & Hkeep & Hall).
    { intros row' k' Hin Hk' [->|?]%elem_of_cons.
      - apply Hfresh. rewrite Hk, <- Hk'. apply list_elem_of_fmap. by exists row'.
      - by apply (Hseen row' k'); [right|..]. }
    exists t'. split; [done|]. split.
    + intros k' Hsome. apply Hkeep.
      destruct (decide (k = k')) as [->|]; [rewrite lookup_insert_eq; by eexists|].
      by rewrite lookup_insert_ne.
    + intros row' k' [->|Hin]%elem_of_cons Hk'; [|by eapply Hall].
      assert (k' = k) as -> by congruence.
      apply Hkeep. rewrite lookup_insert_eq. by eexists.
Qed.

Lemma putAll_holds (records : list VectorData) : forall v v',
  PineconeService.putAll records v = Some v' ->
  (forall k, is_Some (v !! k) -> is_Some (v' !! k))
  /\ (forall r k, r ∈ records -> vd_id r = JS.VStr k -> is_Some (v' !! k)).
Proof.
  induction records as [|r rest IH]; intros v v'.
  - intros [= <-]. split; [done|]. by intros ? ? ?%elem_of_nil.
  - cbn [PineconeService.putAll]. destruct (vd_id r) as [| | |k|] eqn:Hk; try done.
    intros [Hkeep Hall]%IH. split.
    + intros k' Hsome. apply Hkeep.
      destruct (decide (k = k')) as [->|]; [rewrite lookup_insert_eq; by eexists|].
      by rewrite lookup_insert_ne.
    + intros r' k' [->|Hin]%elem_of_cons Hk'; [|by eapply Hall].
      assert (k' = k) as -> by congruence.
      apply Hkeep. rewrite lookup_insert_eq. by eexists.
Qed.

(** The chunk loop against an index that answers every request. *)
Lemma upsertChunks_quiet vectorsData starts : forall w,
  Forall hasStringId vectorsData ->
  indexFaults (index w) = [] ->
  let chunkAt i := PineconeOperations.slice i (i + PineconeOperations.chunkSize) vectorsData in
  let done := PineconeOperations.upsertChunks vectorsData starts w in
  done.1 = Data tt
  /\ indexFaults (index done.2) = []
  /\ length (indexLog (index done.2)) = (length (indexLog (index w)) + length starts)%nat
  /\ PineconeService.putAll (concat (map chunkAt starts)) (vectors (index w))
     = Some (vectors (index done.2)).
Proof.
  induction starts as [|i later IH]; intros w Hids Hq; cbn zeta.
  - cbn. rewrite Nat.add_0_r. done.
  - rewrite upsertChunks_step. cbn zeta.
    set (chunk := PineconeOperations.slice i (i + PineconeOperations.chunkSize) vectorsData).
    destruct (putAll_string_ids chunk (vectors (index w)) (slice_string_ids _ _ _ Hids))
      as [v' Hput].
    assert (Hcall : indexCall (IndexUpsert chunk) (PineconeService.upsert chunk) w
                    = (Data tt, withIndex (mkIndex v' (nearest (index w)) []
                                             (indexLog (index w) ++ [IndexUpsert chunk])) w)).
    { unfold indexCall, PineconeService.upsert. by rewrite Hq, Hput. }
    rewrite Hcall. cbn [fst snd].
    set (w1 := withIndex _ w).
    destruct (IH w1 Hids eq_refl) as (Hr & Hf & Hl & Hp). cbn zeta in *.
    rewrite Hr, Hf, Hl. unfold w1 in Hp |- *.
    cbn [index withIndex indexLog vectors length] in *.
    split; [done|]. split; [done|].
    split; [rewrite length_app; cbn; lia|].
    cbn [map concat]. fold chunk. by rewrite putAll_app, Hput.
Qed.

Lemma buildVectors_total key accessPoints :
  Forall indexable accessPoints ->
  exists vectorsData, PineconeOperations.buildVectors key accessPoints = JS.Ok vectorsData.
Proof.
  induction 1 as [|ap rest (_ & [caps Hc] & [tags Ht]) _ [more IH]]; [by eexists|].
  destruct (textToEmbed_total ap caps tags Hc Ht) as [text Htext].
  cbn [PineconeOperations.buildVectors]. unfold PineconeOperations.generateEmbedding.
  rewrite Htext. cbn [PineconeOperations.excBind].
  destruct key; cbn [PineconeOperations.excBind]; rewrite IH; by eexists.
Qed.

(** X22: bulk sync of a well-formed batch, both backends answering.  When
    every record conforms to the interface, has a string id and arrays under
    [capabilities] and [tags], and no id occurs twice, the sync succeeds;
    afterwards every record's id has a row in the store and an entry in the
    index; the store has received one request and the index one request per
    started hundred of records. *)
Theorem bulk_sync_writes_every_record (accessPoints : list AccessPoint) (w : World) :
  Forall conforms accessPoints ->
  Forall indexable accessPoints ->
  NoDup (map (JS.get "id") accessPoints) ->
  storeFaults (store w) = [] -> indexFaults (index w) = [] ->
  let final := DataSyncManager.bulkSyncAccessPoints accessPoints w in
  final.1 = succeed
  /\ (forall ap k, ap ∈ accessPoints -> JS.get "id" ap = JS.VStr k ->
        is_Some (table (store final.2) !! k) /\ is_Some (vectors (index final.2) !! k))
  /\ length (storeLog (store final.2)) = S (length (storeLog (store w)))
  /\ length (indexLog (index final.2))
     = (length (indexLog (index w)) + (length accessPoints + 99) / 100)%nat.
Proof.
  intros Hconf Hidx Hnd Hqs Hqi. cbn zeta.
  (* the store side *)
  destruct (stampRows_rows accessPoints w) as [Hstore0 Hrows].
  set (rows := (SupabaseOperations.stampRows accessPoints w).1) in *.
  set (w0 := (SupabaseOperations.stampRows accessPoints w).2) in *.
  assert (Hrowids : map (JS.get "id") rows = map (JS.get "id") accessPoints).
  { clear -Hrows Hconf. induction Hrows as [|ap row aps rs (c & u & ->) _ IH]; [done|].
    apply Forall_cons in Hconf as [Hc Hconf]. cbn [map].
    by rewrite IH, stamped_id, toSnakeCase_id. }
  assert (Hrowstr : Forall (fun row => exists k, JS.get "id" row = JS.VStr k) rows).
  { apply Forall_forall. intros row Hin.
    apply list_elem_of_lookup in Hin as [n Hn].
    assert (Hn' : map (JS.get "id") rows !! n = Some (JS.get "id" row))
      by (by rewrite list_lookup_fmap, Hn).
    rewrite Hrowids, list_lookup_fmap in Hn'.
    destruct (accessPoints !! n) as [ap|] eqn:Hap; [|done].
    injection Hn' as <-. rewrite Forall_forall in Hidx.
    apply (Hidx ap). by eapply list_elem_of_lookup_2. }
  destruct (upsertRows_all rows [] (table (store w0)) Hrowstr)
    as (t' & Hup & _ & Hall); [by rewrite Hrowids | by intros ? ? _ _ ?%elem_of_nil |].
  assert (Hbulk : SupabaseOperations.bulkInsertAccessPoints accessPoints w
                  = (succeed, withStore (mkStore t' (textSearch (store w0)) []
                                           (storeLog (store w0) ++ [StoreUpsert rows])) w0)).
  { unfold SupabaseOperations.bulkInsertAccessPoints. rewrite !bind_run.
    fold rows w0. unfold storeCall, Postgres.upsert.
    rewrite Hstore0, Hqs, <- Hstore0, Hup. done. }
  set (w1 := withStore _ w0) in Hbulk.
  (* the index side *)
  destruct (buildVectors_total (openaiKey w1) accessPoints Hidx) as [vectorsData Hbuild].
  pose proof (buildVectors_ids _ _ _ Hbuild) as Hvids.
  assert (Hstr : Forall hasStringId vectorsData).
  { apply Forall_forall. intros v Hv.
    apply list_elem_of_lookup in Hv as [n Hn].
    assert (Hn' : map vd_id vectorsData !! n = Some (vd_id v))
      by (by rewrite list_lookup_fmap, Hn).
    rewrite Hvids, list_lookup_fmap in Hn'.
    destruct (accessPoints !! n) as [ap|] eqn:Hap; [|done].
    injection Hn' as Hn'. rewrite Forall_forall in Hidx.
    destruct (Hidx ap) as ([k Hk] & _); [by eapply list_elem_of_lookup_2|].
    exists k. congruence. }
  assert (Hqi1 : indexFaults (index w1) = []).
  { unfold w1. cbn [index withStore]. unfold w0.
    by rewrite supabase_stampRows_keepsIndex. }
  destruct (upsertChunks_quiet vectorsData
              (PineconeOperations.chunkStarts (length vectorsData)) w1 Hstr Hqi1)
    as (Hr & _ & Hl & Hp).
  cbn zeta in *.
  assert (Hfirst : PineconeOperations.bulkUpsertAccessPoints accessPoints w1
                   = (succeed, (PineconeOperations.upsertChunks vectorsData
                                  (PineconeOperations.chunkStarts (length vectorsData)) w1).2)).
  { unfold PineconeOperations.bulkUpsertAccessPoints. rewrite !bind_run.
    cbn [processEnv fst snd]. by rewrite Hbuild, bind_run, Hr. }
  rewrite manager_bulkSync_run. cbn zeta. rewrite Hbulk. cbn [fst snd success succeed].
  rewrite Hfirst. cbn [fst snd success succeed].
  set (w2 := (PineconeOperations.upsertChunks _ _ w1).2) in *.
  assert (Hstore2 : store w2 = store w1) by apply pinecone_upsertChunks_keepsStore.
  assert (Hlen : length vectorsData = length accessPoints)
    by (by rewrite <- (length_map vd_id), Hvids, length_map).
  split; [done|]. split; [|split].
  - intros ap k Hin Hk. split.
    + rewrite Hstore2. unfold w1. cbn [store withStore table].
      assert (Hrow : JS.VStr k ∈ map (JS.get "id") rows).
      { rewrite Hrowids, <- Hk. apply list_elem_of_fmap. by exists ap. }
      apply list_elem_of_fmap in Hrow as (row & Hrk & Hrin).
      by apply (Hall row k).
    + rewrite chunkStarts_chunks in Hp. unfold PineconeOperations.chunkStarts in Hp.
      rewrite map_map, chunks_concat in Hp by apply chunk_count_covers.
      apply putAll_holds in Hp as [_ Hp].
      assert (Hv : JS.VStr k ∈ map vd_id vectorsData).
      { rewrite Hvids, <- Hk. apply list_elem_of_fmap. by exists ap. }
      apply list_elem_of_fmap in Hv as (v & Hvk & Hvin).
      by apply (Hp v k).
  - rewrite Hstore2. unfold w1. cbn [store withStore storeLog].
    rewrite length_app, Hstore0. cbn. lia.
  - rewrite Hl. unfold w1 at 1. cbn [index withStore]. unfold w0 at 1.
    rewrite supabase_stampRows_keepsIndex.
    unfold PineconeOperations.chunkStarts. rewrite length_map, length_seq, Hlen.
    unfold PineconeOperations.chunkSize. do 2 f_equal. lia.
Qed.

Lemma seed_records_well_formed :
  forallb wellFormedRecord AccessPoints.accessPointsData = true
  /\ bool_decide (NoDup (map (fun ap => JS.toStr (JS.get "id" ap))
                           AccessPoints.accessPointsData)) = true.
Proof. split; vm_compute; reflexivity. Qed.

(** [run()] leaves the world its bulk sync of the seed records leaves. *)
Lemma run_state w :
  (DataSyncManager.run w).2
  = (DataSyncManager.bulkSyncAccessPoints AccessPoints.accessPointsData w).2.
Proof. unfold DataSyncManager.run. by rewrite bind_run. Qed.

(** The witness is [run()] on the seed records. *)
Lemma bulk_sync_writes_every_record_witness :
  (forall ap k, ap ∈ AccessPoints.accessPointsData -> JS.get "id" ap = JS.VStr k ->
     is_Some (table (store (DataSyncManager.run quietWorld).2) !! k)
     /\ is_Some (vectors (index (DataSyncManager.run quietWorld).2) !! k))
  /\ length (storeLog (store (DataSyncManager.run quietWorld).2))
     = S (length (storeLog (store quietWorld)))
  /\ length (indexLog (index (DataSyncManager.run quietWorld).2))
     = (length (indexLog (index quietWorld))
        + (length AccessPoints.accessPointsData + 99) / 100)%nat.
Proof.
  rewrite run_state.
  destruct (bulk_sync_writes_every_record AccessPoints.accessPointsData quietWorld)
    as (_ & Hall & Hs & Hi).
  - apply Forall_forall. intros ap Hin.
    destruct seed_records_well_formed as [Hwf _]. rewrite forallb_forall in Hwf.
    by apply list_elem_of_In, Hwf, wellFormedRecord_spec in Hin as [? _].
  - apply Forall_forall. intros ap Hin.
    destruct seed_records_well_formed as [Hwf _]. rewrite forallb_forall in Hwf.
    by apply list_elem_of_In, Hwf, wellFormedRecord_spec in Hin as [_ ?].
  - destruct seed_records_well_formed as [_ Hnd]. apply bool_decide_eq_true_1 in Hnd.
    eapply (NoDup_fmap_1 JS.toStr). by rewrite <- list_fmap_compose.
  - reflexivity.
  - reflexivity.
  - split; [exact Hall|]. split; [exact Hs | exact Hi].
Defined.

End BulkSyncQuiet.

(* ===================================================================== *)
(** ** The seed records and their lookups (accesspoint.ts) *)
(* ===================================================================== *)

Section SeedLookups.

Lemma find_by_unique_id (records : list JS.Obj) id ap :
  NoDup (map (JS.get "id") records) ->
  List.find (fun r => AccessPoints.strictEqString (JS.get "id" r) id) records = Some ap
  <-> ap ∈ records /\ JS.get "id" ap = JS.VStr id.
Proof.
  induction records as [|r rest IH]; intros Hnd.
  - split; [done | by intros [?%elem_of_nil _]].
  - cbn [map] in Hnd. apply NoDup_cons in Hnd as [Hfresh Hnd].
    cbn [List.find]. unfold AccessPoints.strictEqString at 1.
    destruct (JS.get "id" r) as [| | |k|] eqn:Hk.
    1-3,5: rewrite (IH Hnd); split;
      [intros [? ?]; split; [by right | done]
      |intros [[->|?]%elem_of_cons Hid]; [congruence | done]].
    destruct (String.eqb_spec k id) as [->|Hne].
    + split.
      * intros [= <-]. split; [by left | done].
      * intros [[->|Hin]%elem_of_cons Hid]; [done|].
        exfalso. apply Hfresh. rewrite <- Hid. apply list_elem_of_fmap. by exists ap.
    + rewrite (IH Hnd). split.
      * intros [? ?]. split; [by right | done].
      * intros [[->|?]%elem_of_cons Hid]; [congruence | done].
Qed.

Lemma filter_keeps_order {A} (test : A -> bool) (items : list A) :
  sublist (List.filter test items) items.
Proof.
  induction items as [|item rest IH]; [constructor|].
  cbn [List.filter]. destruct (test item); by constructor.
Qed.

Lemma filterExc_arrays (prop : string) (item : string) (records : list JS.Obj) :
  Forall (fun r => exists items, JS.get prop r = JS.VArr items) records ->
  AccessPoints.filterExc (fun r => AccessPoints.includes prop (JS.get prop r) item) records
  = JS.Ok (List.filter (fun r => match JS.get prop r with
                                 | JS.VArr items => bool_decide (item ∈ items)
                                 | _ => false
                                 end) records).
Proof.
  induction 1 as [|r rest [items Hr] _ IH]; [done|].
  cbn [AccessPoints.filterExc List.filter]. rewrite IH, Hr. cbn.
  by destruct (bool_decide (item ∈ items)).
Qed.

Lemma seed_records_have_arrays prop :
  prop = "capabilities" \/ prop = "tags" ->
  Forall (fun r => exists items, JS.get prop r = JS.VArr items) AccessPoints.accessPointsData.
Proof.
  intros Hprop. apply Forall_forall. intros r Hin.
  assert (Hwf : forallb wellFormedRecord AccessPoints.accessPointsData = true)
    by (vm_compute; reflexivity).
  rewrite forallb_forall in Hwf.
  apply list_elem_of_In, Hwf in Hin. unfold wellFormedRecord in Hin.
  apply andb_true_iff in Hin as [_ Hin].
  destruct (JS.get "id" r); try discriminate Hin.
  destruct (JS.get "capabilities" r) eqn:Hc; try discriminate Hin.
  destruct (JS.get "tags" r) eqn:Ht; try discriminate Hin.
  destruct Hprop as [-> | ->]; eauto.
Qed.

Lemma seed_ids_distinct : NoDup (map (JS.get "id") AccessPoints.accessPointsData).
Proof.
  assert (Hnd : bool_decide (NoDup (map (fun ap => JS.toStr (JS.get "id" ap))
                                      AccessPoints.accessPointsData)) = true)
    by (vm_compute; reflexivity).
  apply bool_decide_eq_true_1 in Hnd.
  eapply (NoDup_fmap_1 JS.toStr). by rewrite <- list_fmap_compose.
Qed.

(** X23: lookup by id among the seed records.  The ids of the seed records
    are pairwise different, so [getAccessPointById id] returns a record
    exactly when that record is in the seed data with this id, and returns
    undefined exactly when no seed record has the id. *)
Theorem seed_lookup_by_id_is_exact (id : string) :
  (forall ap, AccessPoints.getAccessPointById id = Some ap
              <-> ap ∈ AccessPoints.accessPointsData /\ JS.get "id" ap = JS.VStr id)
  /\ (AccessPoints.getAccessPointById id = None
      <-> forall ap, ap ∈ AccessPoints.accessPointsData -> JS.get "id" ap <> JS.VStr id).
Proof.
  assert (Hfound : forall ap, AccessPoints.getAccessPointById id = Some ap
            <-> ap ∈ AccessPoints.accessPointsData /\ JS.get "id" ap = JS.VStr id).
  { intros ap. apply find_by_unique_id, seed_ids_distinct. }
  split; [exact Hfound|]. split.
  - intros Hnone ap Hin Hid.
    assert (Hsome : AccessPoints.getAccessPointById id = Some ap) by (by apply Hfound).
    congruence.
  - intros Hall. destruct (AccessPoints.getAccessPointById id) as [ap|] eqn:Hget; [|done].
    destruct (proj1 (Hfound ap) eq_refl) as [Hin Hid]. by destruct (Hall ap Hin).
Qed.

(** X24: the filters by capability and by tag on the seed records.  Every
    seed record carries arrays under [capabilities] and [tags], so neither
    filter throws for any argument; each returns, in the order of the seed
    data, exactly the records whose array contains the argument as one of
    its elements. *)
Theorem seed_filters_select_members (item : string) :
  (exists found, AccessPoints.getAccessPointsByCapability item = JS.Ok found
     /\ sublist found AccessPoints.accessPointsData
     /\ forall ap, ap ∈ found <->
          ap ∈ AccessPoints.accessPointsData
          /\ exists items, JS.get "capabilities" ap = JS.VArr items /\ item ∈ items)
  /\ (exists found, AccessPoints.getAccessPointsByTag item = JS.Ok found
     /\ sublist found AccessPoints.accessPointsData
     /\ forall ap, ap ∈ found <->
          ap ∈ AccessPoints.accessPointsData
          /\ exists items, JS.get "tags" ap = JS.VArr items /\ item ∈ items).
Proof.
  assert (Hgen : forall prop, prop = "capabilities" \/ prop = "tags" ->
    exists found,
      AccessPoints.filterExc (fun r => AccessPoints.includes prop (JS.get prop r) item)
        AccessPoints.accessPointsData = JS.Ok found
      /\ sublist found AccessPoints.accessPointsData
      /\ forall ap, ap ∈ found <->
           ap ∈ AccessPoints.accessPointsData
           /\ exists items, JS.get prop ap = JS.VArr items /\ item ∈ items).
  { intros prop Hprop. eexists. split.
    - apply filterExc_arrays, seed_records_have_arrays, Hprop.
    - split; [apply filter_keeps_order|]. intros ap.
      rewrite !list_elem_of_In, filter_In. split.
      + intros [Hin Hkeep]. split; [done|].
        destruct (JS.get prop ap) as [| | | |items]; try discriminate Hkeep.
        exists items. split; [done|]. by apply bool_decide_eq_true_1 in Hkeep.
      + intros [Hin (items & -> & Hitem)]. split; [done|].
        by apply bool_decide_eq_true_2. }
  split; [apply (Hgen "capabilities"); by left | apply (Hgen "tags"); by right].
Qed.

End SeedLookups.

(* ===================================================================== *)
(** ** What a failed index write leaves behind; the two store adapters *)
(* ===================================================================== *)

Section Divergence.

(** An upsert that reports failure has not changed the index's records. *)
Lemma upsert_failure accessPoint w :
  success (PineconeOperations.upsertAccessPoint accessPoint w).1 = false ->
  vectors (index (PineconeOperations.upsertAccessPoint accessPoint w).2)
  = vectors (index w).
Proof.
  rewrite upsert_run.
  destruct (PineconeOperations.generateEmbedding (openaiKey w) accessPoint)
    as [msg|embedding]; [done|].
  cbn zeta. cbn [fst snd].
  set (vd := PineconeOperations.vectorDataOf accessPoint embedding).
  destruct (decide (served (indexFaults (index w)))) as [Hs|Hs].
  - destruct (indexCall_served (IndexUpsert [vd]) (PineconeService.upsert [vd]) w Hs)
      as (-> & ->).
    unfold PineconeService.upsert.
    destruct (PineconeService.putAll [vd] (vectors (index w))); [done|]. done.
  - by destruct (indexCall_refused (IndexUpsert [vd]) (PineconeService.upsert [vd]) w Hs)
      as (-> & _).
Qed.

(** X25: an update the index refuses.  When the store update succeeds and
    the index upsert of the full record fails, the coordinator still
    returns the store's success; the store holds the merged row the
    returned record was read from, while the records of the index are what
    they were before the call: the entry under the id, if any, is the one
    made from the old values, and nothing is rolled back or retried. *)
Theorem update_failure_leaves_stale_index (id : JS.Value) (updates : JS.Obj) (w : World) :
  let stored := SupabaseOperations.updateAccessPoint id updates w in
  let final := DataSyncManager.updateAccessPoint id updates w in
  success stored.1 = true ->
  success (DataSyncManager.reindex (data stored.1) stored.2).1 = false ->
  final.1 = stored.1
  /\ vectors (index final.2) = vectors (index w)
  /\ exists old k,
       table (store w) !! SupabaseOperations.eqId id = Some old
       /\ let merged := JS.spread old (stampedUpdate updates (now w).1) in
          table (store final.2) !! k = Some merged
          /\ JS.get "id" merged = JS.VStr k
          /\ data final.1 = Some (SupabaseOperations.toCamelCase merged).
Proof.
  cbn zeta. intros Hok Hfail. rewrite manager_update_run. cbn zeta. rewrite Hok.
  cbn [fst snd].
  destruct (update_success id updates w Hok) as (old & k & Hold & Hres & Hid & Hrow).
  cbn zeta in Hres, Hid, Hrow.
  rewrite Hres in Hfail |- *.
  cbn [data succeedWith DataSyncManager.reindex] in Hfail |- *.
  unfold PineconeOperations.updateAccessPoint in Hfail |- *.
  split; [done|]. split.
  - rewrite (upsert_failure _ _ Hfail). by rewrite supabase_update_keepsIndex.
  - exists old, k. split; [done|]. cbn zeta.
    by rewrite pinecone_upsert_keepsStore.
Qed.

Lemma update_failure_leaves_stale_index_witness :
  let w := indexDown storedDemo in
  let updates := [("description", JS.VStr "new")] in
  let stored := SupabaseOperations.updateAccessPoint (JS.VStr "x1") updates w in
  let final := DataSyncManager.updateAccessPoint (JS.VStr "x1") updates w in
  final.1 = stored.1
  /\ vectors (index final.2) = vectors (index w)
  /\ exists old k,
       table (store w) !! SupabaseOperations.eqId (JS.VStr "x1") = Some old
       /\ let merged := JS.spread old (stampedUpdate updates (now w).1) in
          table (store final.2) !! k = Some merged
          /\ JS.get "id" merged = JS.VStr k
          /\ data final.1 = Some (SupabaseOperations.toCamelCase merged).
Proof.
  apply (update_failure_leaves_stale_index (JS.VStr "x1") [("description", JS.VStr "new")]
           (indexDown storedDemo)); vm_compute; reflexivity.
Defined.

(** X26: the two store adapters on delete, the database answering.  Both
    leave the same table, the old one without the row of the id.  They
    differ in what they report: [SupabaseOperations] reports success
    whether or not a row had the id; [DatabaseOperations] reports success
    when a row had it and the not-found failure when none had. *)
Theorem store_adapters_differ_on_absent_id (k : string) (w : World) :
  storeFaults (store w) = [] ->
  let viaClient := SupabaseOperations.deleteAccessPoint (JS.VStr k) w in
  let viaPool := DatabaseOperations.deleteAccessPoint (JS.VStr k) w in
  table (store viaClient.2) = delete k (table (store w))
  /\ table (store viaPool.2) = delete k (table (store w))
  /\ viaClient.1 = succeed
  /\ viaPool.1 = match table (store w) !! k with
                 | Some _ => succeed
                 | None => failWith (DatabaseOperations.notFound (JS.VStr k))
                 end.
Proof.
  intros Hq. cbn zeta.
  destruct (store_delete_quiet (JS.VStr k) w Hq) as (Hres & _ & Htable).
  cbn zeta in Hres, Htable.
  split; [exact Htable|]. split; [|split; [exact Hres|]].
  - destruct (table (store w) !! k) as [row|] eqn:Hrow.
    + by destruct (database_delete_present (JS.VStr k) k row w eq_refl Hq Hrow)
        as (_ & -> & _).
    + destruct (database_delete_absent (JS.VStr k) w Hq Hrow) as (_ & ->).
      by rewrite delete_id.
  - destruct (table (store w) !! k) as [row|] eqn:Hrow.
    + by destruct (database_delete_present (JS.VStr k) k row w eq_refl Hq Hrow)
        as (-> & _).
    + by destruct (database_delete_absent (JS.VStr k) w Hq Hrow) as (-> & _).
Qed.

Lemma store_adapters_differ_on_absent_id_witness :
  let w := quietWorld in
  let viaClient := SupabaseOperations.deleteAccessPoint (JS.VStr "x1") w in
  let viaPool := DatabaseOperations.deleteAccessPoint (JS.VStr "x1") w in
  table (store viaClient.2) = delete "x1" (table (store w))
  /\ table (store viaPool.2) = delete "x1" (table (store w))
  /\ viaClient.1 = succeed
  /\ viaPool.1 = match table (store w) !! "x1" with
                 | Some _ => succeed
                 | None => failWith (DatabaseOperations.notFound (JS.VStr "x1"))
                 end.
Proof.
  apply (store_adapters_differ_on_absent_id "x1" quietWorld). reflexivity.
Defined.

End Divergence.
